(** * PPKS: Practical Parallel Key Switch over an elliptic curve

    A shallow embedding of the Go package [ppks] (both copies of the
    library: the plain one and the one that carries the share proofs),
    together with the properties of its specification.

    The embedding follows the Go code statement by statement:
    - a [*big.Int] is a location of a heap of integers; [new(big.Int)]
      allocates, [z.Neg(x)], [z.Mod(x, m)], [z.Add(x, y)] write to [z];
    - a [CurvePoint] is a struct of two such pointers, copied by value;
    - [rand.Reader] is a tape of bytes that [io.ReadFull] consumes;
    - a Go [error] result and a runtime panic are two kinds of outcome;
    - the curve ([elliptic.Curve]) and the digest ([sm3]) are external:
      the curve is an interface with a contract, the digest a function. *)

From Stdlib Require Import ZArith Lia List Permutation.
From Stdlib.Strings Require Import Byte.
From stdpp Require Import base list.
Import ListNotations.

Local Open Scope Z_scope.

(** ** math/big: the byte encodings of integers *)

Definition byte_to_Z (b : byte) : Z := Z.of_N (Byte.to_N b).

Definition byte_of_Z (z : Z) : byte :=
  match Byte.of_N (Z.to_N z) with
  | Some b => b
  | None => x00
  end.

(** [new(big.Int).SetBytes(b)]: [b] read as a big-endian unsigned integer. *)
Definition SetBytes (b : list byte) : Z :=
  fold_left (fun acc x => acc * 256 + byte_to_Z x) b 0.

(** Base-256 digits of a non-negative integer, least significant first. *)
Fixpoint le_digits (fuel : nat) (z : Z) : list byte :=
  match fuel with
  | O => []
  | S f => if z =? 0 then []
           else byte_of_Z (z mod 256) :: le_digits f (z / 256)
  end.

(** [x.Bytes()]: the absolute value of [x], big-endian, without leading
    zero bytes (so [0] is the empty slice). *)
Definition Bytes (z : Z) : list byte :=
  rev (le_digits (S (Z.to_nat (Z.log2 (Z.abs z)))) (Z.abs z)).

(** ** Outcomes, state and the monad of the package *)

(** The errors [io.ReadFull] reports. *)
Inductive error : Type :=
  | EOF
  | ErrUnexpectedEOF.

(** The runtime panics the modelled statements can raise. *)
Inductive panic : Type :=
  | IndexOutOfRange
  | NilDereference
  | DivisionByZero
  | SliceBoundsOutOfRange
  | MakeSliceLenOutOfRange.

Inductive outcome (A : Type) : Type :=
  | Ok (a : A)
  | Err (e : error)
  | Panic (p : panic).
Arguments Ok {A} a.
Arguments Err {A} e.
Arguments Panic {A} p.

(** A [*big.Int].  It points either to a big.Int of the heap or to one of
    the integers that live for the whole process and that no statement of
    the package writes to: the package variable [one] and the fields of
    [curve.Params()]; such a pointer is given by the value it points to. *)
Inductive bigInt : Type :=
  | cell (l : nat)
  | fixed (v : Z).

Record state : Type := State {
  heap : list Z;          (* the big.Int values, by address *)
  tape : list byte        (* what rand.Reader will still deliver *)
}.

Definition M (A : Type) : Type := state -> outcome A * state.

Definition ret {A} (a : A) : M A := fun s => (Ok a, s).

Definition bind {A B} (m : M A) (f : A -> M B) : M B :=
  fun s => match m s with
           | (Ok a, s') => f a s'
           | (Err e, s') => (Err e, s')
           | (Panic p, s') => (Panic p, s')
           end.

Definition raise {A} (e : error) : M A := fun s => (Err e, s).
Definition throw {A} (p : panic) : M A := fun s => (Panic p, s).

Notation "x <- m ;; k" := (bind m (fun x => k))
  (at level 100, m at next level, right associativity).
Notation "m ;;; k" := (bind m (fun _ => k))
  (at level 100, right associativity).

(** *** Heap primitives *)

(** What a pointer points to in a heap. *)
Definition deref (h : list Z) (x : bigInt) : option Z :=
  match x with
  | cell l => h !! l
  | fixed v => Some v
  end.

(** A fresh big.Int holding [v]; the result is its address. *)
Definition alloc (v : Z) : M nat :=
  fun s => (Ok (length (heap s)), State (heap s ++ [v]) (tape s)).

(** Reading through a pointer; a pointer to nothing is a nil dereference. *)
Definition load (x : bigInt) : M Z :=
  fun s => match deref (heap s) x with
           | Some v => (Ok v, s)
           | None => (Panic NilDereference, s)
           end.

(** Writing to the big.Int at address [l]. *)
Definition store (l : nat) (v : Z) : M unit :=
  fun s => if decide (l < length (heap s))%nat
           then (Ok tt, State (<[l := v]> (heap s)) (tape s))
           else (Panic NilDereference, s).

(** *** math/big operations, receiver first as in Go

    The receiver [z] of every call in the package is a big.Int of the
    heap; the call writes to it and returns it. *)

(** [new(big.Int)] *)
Definition new_Int : M nat := alloc 0.

(** [z.Set(x)] *)
Definition Int_Set (z : nat) (x : bigInt) : M nat :=
  v <- load x ;; store z v ;;; ret z.

(** [z.Neg(x)] *)
Definition Int_Neg (z : nat) (x : bigInt) : M nat :=
  v <- load x ;; store z (- v) ;;; ret z.

(** [z.Mod(x, m)]: the Euclidean modulus; a zero [m] panics. *)
Definition Int_Mod (z : nat) (x m : bigInt) : M nat :=
  v <- load x ;; w <- load m ;;
  if w =? 0 then throw DivisionByZero
  else store z (v mod Z.abs w) ;;; ret z.

(** [z.Add(x, y)] *)
Definition Int_Add (z : nat) (x y : bigInt) : M nat :=
  a <- load x ;; b <- load y ;; store z (a + b) ;;; ret z.

(** [z.Sub(x, y)] *)
Definition Int_Sub (z : nat) (x y : bigInt) : M nat :=
  a <- load x ;; b <- load y ;; store z (a - b) ;;; ret z.

(** [z.Mul(x, y)] *)
Definition Int_Mul (z : nat) (x y : bigInt) : M nat :=
  a <- load x ;; b <- load y ;; store z (a * b) ;;; ret z.

(** [new(big.Int).SetBytes(b)] *)
Definition Int_SetBytes (b : list byte) : M nat := alloc (SetBytes b).

(** [x.Bytes()] *)
Definition Int_Bytes (x : bigInt) : M (list byte) :=
  v <- load x ;; ret (Bytes v).

(** [x.Cmp(y)]: -1, 0 or 1. *)
Definition Int_Cmp (x y : bigInt) : M Z :=
  a <- load x ;; b <- load y ;;
  ret (match a ?= b with Lt => -1 | Eq => 0 | Gt => 1 end).

(** *** io.ReadFull(rand.Reader, b) with [len(b) = n]

    All [n] bytes, or [EOF] when there is none, or [ErrUnexpectedEOF]
    when the reader ends early. *)
Definition ReadFull (n : nat) : M (list byte) :=
  fun s =>
    if decide (n <= length (tape s))%nat
    then (Ok (take n (tape s)), State (heap s) (drop n (tape s)))
    else match tape s with
         | [] => (Err EOF, s)
         | _ => (Err ErrUnexpectedEOF, State (heap s) [])
         end.

(** ** The external collaborators *)

(** crypto/elliptic: the curve interface.  Coordinates go in and come out
  as integers, scalars go in as the big-endian bytes of [k.Bytes()]. *)
Module elliptic.

Record CurveParams : Type := {
  P : Z;        (* the order of the coordinate field *)
  N : Z;        (* the order of the base point *)
  Gx : Z;
  Gy : Z;       (* the base point *)
  BitSize : Z
}.

Class Curve : Type := {
  Params : CurveParams;
  Add : Z -> Z -> Z -> Z -> Z * Z;
  ScalarMult : Z -> Z -> list byte -> Z * Z;
  ScalarBaseMult : list byte -> Z * Z
}.

End elliptic.

(** sm3: [h.Sum(nil)] after the bytes [msg] were written to [h]. *)
Module sm3.

Class Hash : Type := { Sum : list byte -> list byte }.

End sm3.

(** ** The package *)

(** [sm2.PublicKey] and, by [type CurvePoint sm2.PublicKey], a curve
  point.  The [Curve] field is the one curve of the process. *)
Record CurvePoint : Type := { X : bigInt; Y : bigInt }.

Definition PublicKey : Type := CurvePoint.

(** [sm2.PrivateKey] *)
Record PrivateKey : Type := { Public : PublicKey; D : bigInt }.

(** An ElGamal ciphertext: a pair of points. *)
Record CipherText : Type := { K : CurvePoint; C : CurvePoint }.

Definition CipherVector : Type := list CipherText.

(** The package variable [one]. *)
Definition one : bigInt := fixed 1.

Section Package.

Context {curve : elliptic.Curve} {hash : sm3.Hash}.

Definition params_P : bigInt := fixed (elliptic.P elliptic.Params).
Definition params_N : bigInt := fixed (elliptic.N elliptic.Params).
Definition params_Gx : bigInt := fixed (elliptic.Gx elliptic.Params).
Definition params_Gy : bigInt := fixed (elliptic.Gy elliptic.Params).

(** *** Calls into the curve

    The curve reads its operands and returns its results in two new
    big.Int. *)

Definition alloc_point (xy : Z * Z) : M (nat * nat) :=
  x <- alloc (fst xy) ;; y <- alloc (snd xy) ;; ret (x, y).

(** [curve.Add(x1, y1, x2, y2)] *)
Definition curve_Add (x1 y1 x2 y2 : bigInt) : M (nat * nat) :=
  a <- load x1 ;; b <- load y1 ;; c <- load x2 ;; d <- load y2 ;;
  alloc_point (elliptic.Add a b c d).

(** [curve.ScalarMult(x, y, k)] *)
Definition curve_ScalarMult (x y : bigInt) (k : list byte) : M (nat * nat) :=
  a <- load x ;; b <- load y ;;
  alloc_point (elliptic.ScalarMult a b k).

(** [curve.ScalarBaseMult(k)] *)
Definition curve_ScalarBaseMult (k : list byte) : M (nat * nat) :=
  alloc_point (elliptic.ScalarBaseMult k).

Definition point (xy : nat * nat) : CurvePoint :=
  {| X := cell (fst xy); Y := cell (snd xy) |}.

(** *** randFieldElement (the same in both files) *)
Definition randFieldElement : M nat :=
  let len := Z.quot (elliptic.BitSize elliptic.Params) 8 + 8 in
  if len <? 0 then throw MakeSliceLenOutOfRange else
  b <- ReadFull (Z.to_nat len) ;;
  k <- Int_SetBytes b ;;
  n <- new_Int ;; Int_Sub n params_N one ;;;
  Int_Mod k (cell k) (cell n) ;;;
  Int_Add k (cell k) one ;;;
  ret k.

(** *** GetPubKey *)
Definition GetPubKey (priv : PrivateKey) : PublicKey := Public priv.

(** *** CollPrivKey (the same in both files) *)

(** The body of [for i := 0; i < len(privs); i++], over [privs[i:]]. *)
Fixpoint CollPrivKey_loop (collPriv : nat) (privs : list PrivateKey) : M unit :=
  match privs with
  | [] => ret tt
  | priv :: rest =>
      Int_Add collPriv (cell collPriv) (D priv) ;;;
      cmp <- Int_Cmp (cell collPriv) params_N ;;
      (if cmp >=? 0
       then Int_Mod collPriv (cell collPriv) params_N ;;; ret tt
       else ret tt) ;;;
      CollPrivKey_loop collPriv rest
  end.

Definition CollPrivKey (privs : list PrivateKey) : M PrivateKey :=
  match privs with
  | [] => throw IndexOutOfRange                       (* privs[0] *)
  | _ :: _ =>
      collPriv <- alloc 0 ;;                          (* SetString("0", 16) *)
      CollPrivKey_loop collPriv privs ;;;
      d <- Int_Bytes (cell collPriv) ;;
      xy <- curve_ScalarBaseMult d ;;
      ret {| Public := point xy; D := cell collPriv |}
  end.

(** *** CollPubKey (the same in both files) *)

(** The body of [for i := 1; i < len(pubs); i++], over [pubs[i:]]. *)
Fixpoint CollPubKey_loop (collPubKey : PublicKey) (pubs : list PublicKey)
  : M PublicKey :=
  match pubs with
  | [] => ret collPubKey
  | pub :: rest =>
      xy <- curve_Add (X collPubKey) (Y collPubKey) (X pub) (Y pub) ;;
      CollPubKey_loop (point xy) rest
  end.

Definition CollPubKey (pubs : list PublicKey) : M PublicKey :=
  match pubs with
  | [] => throw IndexOutOfRange                       (* pubs[0] *)
  | pub0 :: rest => CollPubKey_loop pub0 rest
  end.

(** *** PointEncrypt (the same in both files) *)
Definition PointEncrypt (pub : PublicKey) (Dp : CurvePoint) : M CipherText :=
  r <- randFieldElement ;;
  rb <- Int_Bytes (cell r) ;;
  ctK <- curve_ScalarBaseMult rb ;;
  rb' <- Int_Bytes (cell r) ;;
  rK <- curve_ScalarMult (X pub) (Y pub) rb' ;;
  ctC <- curve_Add (cell (fst rK)) (cell (snd rK)) (X Dp) (Y Dp) ;;
  ret {| K := point ctK; C := point ctC |}.

(** *** PointDecrypt, of the file with the proofs *)
Definition PointDecrypt (ct : CipherText) (priv : PrivateKey) : M CurvePoint :=
  d <- Int_Bytes (D priv) ;;
  rK <- curve_ScalarMult (X (K ct)) (Y (K ct)) d ;;
  let (rKx, rKy) := rK in
  z <- new_Int ;;
  negrKy <- Int_Neg z (cell rKy) ;;
  Int_Mod negrKy (cell negrKy) params_P ;;;
  xy <- curve_Add (X (C ct)) (Y (C ct)) (cell rKx) (cell negrKy) ;;
  ret (point xy).

(** *** ShareCal, of the file with the proofs: the share and its nonce *)
Definition ShareCal (targetPubKey : PublicKey) (rB : CurvePoint)
    (priv : PrivateKey) : M (CipherText * bigInt) :=
  ri <- randFieldElement ;;
  rib <- Int_Bytes (cell ri) ;;
  shareK <- curve_ScalarBaseMult rib ;;
  d <- Int_Bytes (D priv) ;;
  rBki <- curve_ScalarMult (X rB) (Y rB) d ;;
  let (rBkix, rBkiy) := rBki in
  Int_Neg rBkiy (cell rBkiy) ;;;
  Int_Mod rBkiy (cell rBkiy) params_P ;;;
  rib' <- Int_Bytes (cell ri) ;;
  riU <- curve_ScalarMult (X targetPubKey) (Y targetPubKey) rib' ;;
  let (riUx, riUy) := riU in
  shareC <- curve_Add (cell rBkix) (cell rBkiy) (cell riUx) (cell riUy) ;;
  ret ({| K := point shareK; C := point shareC |}, cell ri).

(** *** The hash object of a transcript

    [sm3.New()] has nothing written to it; [h.Write(x.Bytes())] appends;
    the challenge is [new(big.Int).SetBytes(h.Sum(nil)[:32])]. *)

Definition sm3_New : list byte := [].

Definition sm3_Write (h : list byte) (x : bigInt) : M (list byte) :=
  b <- Int_Bytes x ;; ret (h ++ b).

Definition challenge (h : list byte) : M nat :=
  let sum := sm3.Sum h in
  if decide (32 <= length sum)%nat
  then Int_SetBytes (take 32 sum)
  else throw SliceBoundsOutOfRange.

(** *** ProofGen: a proof for (y1, y2) under
    Y1 = y1*B, Y2 = y2*B, A = y1*A1 + y2*A2 *)
Definition ProofGen (y1 y2 : bigInt) (B Y1 Y2 A1 A2 A : CurvePoint)
  : M (bigInt * bigInt * bigInt) :=
  v1 <- randFieldElement ;;
  v2 <- randFieldElement ;;
  (* T1 = v1*B, T2 = v2*B, T3 = v1*A1 + v2*A2 *)
  v1b <- Int_Bytes (cell v1) ;;
  T1 <- curve_ScalarMult (X B) (Y B) v1b ;;
  let T1 := point T1 in
  v2b <- Int_Bytes (cell v2) ;;
  T2 <- curve_ScalarMult (X B) (Y B) v2b ;;
  let T2 := point T2 in
  v1b <- Int_Bytes (cell v1) ;;
  vA1 <- curve_ScalarMult (X A1) (Y A1) v1b ;;
  v2b <- Int_Bytes (cell v2) ;;
  vA2 <- curve_ScalarMult (X A2) (Y A2) v2b ;;
  T3 <- curve_Add (cell (fst vA1)) (cell (snd vA1))
                  (cell (fst vA2)) (cell (snd vA2)) ;;
  let T3 := point T3 in
  (* c = H(B, Y1, Y2, A1, A2, A, T1, T2, T3) *)
  h <- sm3_Write sm3_New (X B) ;;
  h <- sm3_Write h (Y B) ;;
  h <- sm3_Write h (X Y1) ;;
  h <- sm3_Write h (Y Y1) ;;
  h <- sm3_Write h (X Y2) ;;
  h <- sm3_Write h (Y Y2) ;;
  h <- sm3_Write h (X A1) ;;
  h <- sm3_Write h (Y A1) ;;
  h <- sm3_Write h (X A2) ;;
  h <- sm3_Write h (Y A2) ;;
  h <- sm3_Write h (X A) ;;
  h <- sm3_Write h (Y A) ;;
  h <- sm3_Write h (X T1) ;;
  h <- sm3_Write h (Y T1) ;;
  h <- sm3_Write h (X T2) ;;
  h <- sm3_Write h (Y T2) ;;
  h <- sm3_Write h (X T3) ;;
  h <- sm3_Write h (Y T3) ;;
  c <- challenge h ;;
  (* r1 = v1 - c*y1,  r2 = v2 - c*y2 *)
  z <- new_Int ;; r1 <- Int_Mul z (cell c) y1 ;;
  Int_Mod r1 (cell r1) params_N ;;;
  z <- new_Int ;; r1 <- Int_Sub z (cell v1) (cell r1) ;;
  Int_Mod r1 (cell r1) params_N ;;;
  z <- new_Int ;; r2 <- Int_Mul z (cell c) y2 ;;
  Int_Mod r2 (cell r2) params_N ;;;
  Int_Sub r2 (cell v2) (cell r2) ;;;
  Int_Mod r2 (cell r2) params_N ;;;
  ret (cell c, cell r1, cell r2).

(** *** ProofGenNoB: the same with the base point of the curve for B *)
Definition ProofGenNoB (y1 y2 : bigInt) (Y1 Y2 A1 A2 A : CurvePoint)
  : M (bigInt * bigInt * bigInt) :=
  v1 <- randFieldElement ;;
  v2 <- randFieldElement ;;
  v1b <- Int_Bytes (cell v1) ;;
  T1 <- curve_ScalarBaseMult v1b ;;
  let T1 := point T1 in
  v2b <- Int_Bytes (cell v2) ;;
  T2 <- curve_ScalarBaseMult v2b ;;
  let T2 := point T2 in
  v1b <- Int_Bytes (cell v1) ;;
  vA1 <- curve_ScalarMult (X A1) (Y A1) v1b ;;
  v2b <- Int_Bytes (cell v2) ;;
  vA2 <- curve_ScalarMult (X A2) (Y A2) v2b ;;
  T3 <- curve_Add (cell (fst vA1)) (cell (snd vA1))
                  (cell (fst vA2)) (cell (snd vA2)) ;;
  let T3 := point T3 in
  h <- sm3_Write sm3_New params_Gx ;;
  h <- sm3_Write h params_Gy ;;
  h <- sm3_Write h (X Y1) ;;
  h <- sm3_Write h (Y Y1) ;;
  h <- sm3_Write h (X Y2) ;;
  h <- sm3_Write h (Y Y2) ;;
  h <- sm3_Write h (X A1) ;;
  h <- sm3_Write h (Y A1) ;;
  h <- sm3_Write h (X A2) ;;
  h <- sm3_Write h (Y A2) ;;
  h <- sm3_Write h (X A) ;;
  h <- sm3_Write h (Y A) ;;
  h <- sm3_Write h (X T1) ;;
  h <- sm3_Write h (Y T1) ;;
  h <- sm3_Write h (X T2) ;;
  h <- sm3_Write h (Y T2) ;;
  h <- sm3_Write h (X T3) ;;
  h <- sm3_Write h (Y T3) ;;
  c <- challenge h ;;
  (* r1 = v1 - c*y1,  r2 = v2 - c*y2 *)
  z <- new_Int ;; r1 <- Int_Mul z (cell c) y1 ;;
  Int_Mod r1 (cell r1) params_N ;;;
  z <- new_Int ;; r1 <- Int_Sub z (cell v1) (cell r1) ;;
  Int_Mod r1 (cell r1) params_N ;;;
  z <- new_Int ;; r2 <- Int_Mul z (cell c) y2 ;;
  Int_Mod r2 (cell r2) params_N ;;;
  Int_Sub r2 (cell v2) (cell r2) ;;;
  Int_Mod r2 (cell r2) params_N ;;;
  ret (cell c, cell r1, cell r2).

(** *** ProofVrf: T1' = r1*B + c*Y1, T2' = r2*B + c*Y2,
    T3' = r1*A1 + r2*A2 + c*A, and the challenge over them *)
Definition ProofVrf (c r1 r2 : bigInt) (B Y1 Y2 A1 A2 A : CurvePoint)
  : M bool :=
  r1b <- Int_Bytes r1 ;;
  rB1 <- curve_ScalarMult (X B) (Y B) r1b ;;
  cb <- Int_Bytes c ;;
  cY1 <- curve_ScalarMult (X Y1) (Y Y1) cb ;;
  T1 <- curve_Add (cell (fst rB1)) (cell (snd rB1))
                  (cell (fst cY1)) (cell (snd cY1)) ;;
  let T1 := point T1 in
  r2b <- Int_Bytes r2 ;;
  rB2 <- curve_ScalarMult (X B) (Y B) r2b ;;
  cb <- Int_Bytes c ;;
  cY2 <- curve_ScalarMult (X Y2) (Y Y2) cb ;;
  T2 <- curve_Add (cell (fst rB2)) (cell (snd rB2))
                  (cell (fst cY2)) (cell (snd cY2)) ;;
  let T2 := point T2 in
  r1b <- Int_Bytes r1 ;;
  rA1 <- curve_ScalarMult (X A1) (Y A1) r1b ;;
  r2b <- Int_Bytes r2 ;;
  rA2 <- curve_ScalarMult (X A2) (Y A2) r2b ;;
  cb <- Int_Bytes c ;;
  cA <- curve_ScalarMult (X A) (Y A) cb ;;
  T3 <- curve_Add (cell (fst rA1)) (cell (snd rA1))
                  (cell (fst rA2)) (cell (snd rA2)) ;;
  T3 <- curve_Add (cell (fst T3)) (cell (snd T3))
                  (cell (fst cA)) (cell (snd cA)) ;;
  let T3 := point T3 in
  h <- sm3_Write sm3_New (X B) ;;
  h <- sm3_Write h (Y B) ;;
  h <- sm3_Write h (X Y1) ;;
  h <- sm3_Write h (Y Y1) ;;
  h <- sm3_Write h (X Y2) ;;
  h <- sm3_Write h (Y Y2) ;;
  h <- sm3_Write h (X A1) ;;
  h <- sm3_Write h (Y A1) ;;
  h <- sm3_Write h (X A2) ;;
  h <- sm3_Write h (Y A2) ;;
  h <- sm3_Write h (X A) ;;
  h <- sm3_Write h (Y A) ;;
  h <- sm3_Write h (X T1) ;;
  h <- sm3_Write h (Y T1) ;;
  h <- sm3_Write h (X T2) ;;
  h <- sm3_Write h (Y T2) ;;
  h <- sm3_Write h (X T3) ;;
  h <- sm3_Write h (Y T3) ;;
  c_new <- challenge h ;;
  (* c ?= c' *)
  cmp <- Int_Cmp c (cell c_new) ;;
  if cmp =? 0 then ret true else ret false.

(** *** ProofVrfNoB *)
Definition ProofVrfNoB (c r1 r2 : bigInt) (Y1 Y2 A1 A2 A : CurvePoint)
  : M bool :=
  r1b <- Int_Bytes r1 ;;
  r1B <- curve_ScalarBaseMult r1b ;;
  cb <- Int_Bytes c ;;
  cY1 <- curve_ScalarMult (X Y1) (Y Y1) cb ;;
  T1 <- curve_Add (cell (fst r1B)) (cell (snd r1B))
                  (cell (fst cY1)) (cell (snd cY1)) ;;
  let T1 := point T1 in
  r2b <- Int_Bytes r2 ;;
  rB2 <- curve_ScalarBaseMult r2b ;;
  cb <- Int_Bytes c ;;
  cY2 <- curve_ScalarMult (X Y2) (Y Y2) cb ;;
  T2 <- curve_Add (cell (fst rB2)) (cell (snd rB2))
                  (cell (fst cY2)) (cell (snd cY2)) ;;
  let T2 := point T2 in
  r1b <- Int_Bytes r1 ;;
  rA1 <- curve_ScalarMult (X A1) (Y A1) r1b ;;
  r2b <- Int_Bytes r2 ;;
  rA2 <- curve_ScalarMult (X A2) (Y A2) r2b ;;
  cb <- Int_Bytes c ;;
  cA <- curve_ScalarMult (X A) (Y A) cb ;;
  T3 <- curve_Add (cell (fst rA1)) (cell (snd rA1))
                  (cell (fst rA2)) (cell (snd rA2)) ;;
  T3 <- curve_Add (cell (fst T3)) (cell (snd T3))
                  (cell (fst cA)) (cell (snd cA)) ;;
  let T3 := point T3 in
  h <- sm3_Write sm3_New params_Gx ;;
  h <- sm3_Write h params_Gy ;;
  h <- sm3_Write h (X Y1) ;;
  h <- sm3_Write h (Y Y1) ;;
  h <- sm3_Write h (X Y2) ;;
  h <- sm3_Write h (Y Y2) ;;
  h <- sm3_Write h (X A1) ;;
  h <- sm3_Write h (Y A1) ;;
  h <- sm3_Write h (X A2) ;;
  h <- sm3_Write h (Y A2) ;;
  h <- sm3_Write h (X A) ;;
  h <- sm3_Write h (Y A) ;;
  h <- sm3_Write h (X T1) ;;
  h <- sm3_Write h (Y T1) ;;
  h <- sm3_Write h (X T2) ;;
  h <- sm3_Write h (Y T2) ;;
  h <- sm3_Write h (X T3) ;;
  h <- sm3_Write h (Y T3) ;;
  c_new <- challenge h ;;
  (* c ?= c' *)
  cmp <- Int_Cmp c (cell c_new) ;;
  if cmp =? 0 then ret true else ret false.

(** [A2 = -rB].  The four Share functions below start with the same six
    statements: [A2 := new(CurvePoint)], [A2.X = new(big.Int).Set(rB.X)],
    [A2.Y = new(big.Int).Set(rB.Y)], [A2.Y.Neg(A2.Y)] and
    [A2.Y.Mod(A2.Y, curve.Params().P)]. *)
Definition neg_copy (rB : CurvePoint) : M CurvePoint :=
  z <- new_Int ;; A2X <- Int_Set z (X rB) ;;
  z <- new_Int ;; A2Y <- Int_Set z (Y rB) ;;
  Int_Neg A2Y (cell A2Y) ;;;
  Int_Mod A2Y (cell A2Y) params_P ;;;
  ret {| X := cell A2X; Y := cell A2Y |}.

(** The point [B] the share proofs are about: the base point, by the
    pointers of [curve.Params()]. *)
Definition base_point : CurvePoint := {| X := params_Gx; Y := params_Gy |}.

(** *** ShareProofGen *)
Definition ShareProofGen (ri : bigInt) (priv : PrivateKey) (share : CipherText)
    (targetPubKey : PublicKey) (rB : CurvePoint)
  : M (bigInt * bigInt * bigInt) :=
  let B := base_point in
  A2 <- neg_copy rB ;;
  ProofGen ri (D priv) B (K share) (Public priv) targetPubKey A2 (C share).

(** *** ShareProofGenNoB *)
Definition ShareProofGenNoB (ri : bigInt) (priv : PrivateKey)
    (share : CipherText) (targetPubKey : PublicKey) (rB : CurvePoint)
  : M (bigInt * bigInt * bigInt) :=
  A2 <- neg_copy rB ;;
  ProofGenNoB ri (D priv) (K share) (Public priv) targetPubKey A2 (C share).

(** *** ShareProofVry *)
Definition ShareProofVry (c r1 r2 : bigInt) (share : CipherText)
    (nodePubKey targetPubKey : PublicKey) (rB : CurvePoint) : M bool :=
  let B := base_point in
  A2 <- neg_copy rB ;;
  ProofVrf c r1 r2 B (K share) nodePubKey targetPubKey A2 (C share).

(** *** ShareProofVryNoB *)
Definition ShareProofVryNoB (c r1 r2 : bigInt) (share : CipherText)
    (nodePubKey targetPubKey : PublicKey) (rB : CurvePoint) : M bool :=
  A2 <- neg_copy rB ;;
  ProofVrfNoB c r1 r2 (K share) nodePubKey targetPubKey A2 (C share).

(** *** ShareReplace (the same in both files) *)

(** The body of [for i := 1; i < lens; i++], over [shares[i:]]: [sigma]
    is a copy of a struct, its fields are set to the new sums. *)
Fixpoint ShareReplace_loop (sigma : CipherText) (shares : list CipherText)
  : M CipherText :=
  match shares with
  | [] => ret sigma
  | share :: rest =>
      sK <- curve_Add (X (K sigma)) (Y (K sigma)) (X (K share)) (Y (K share)) ;;
      sC <- curve_Add (X (C sigma)) (Y (C sigma)) (X (C share)) (Y (C share)) ;;
      ShareReplace_loop {| K := point sK; C := point sC |} rest
  end.

Definition ShareReplace (shares : CipherVector) (rct : CipherText)
  : M CipherText :=
  match shares with
  | [] => throw IndexOutOfRange                       (* shares[0] *)
  | share0 :: rest =>
      sigma <- ShareReplace_loop share0 rest ;;
      ctC <- curve_Add (X (C sigma)) (Y (C sigma)) (X (C rct)) (Y (C rct)) ;;
      ret {| K := K sigma; C := point ctC |}
  end.

End Package.

(** The plain file: the same package without the proofs.  Its
  [PointDecrypt] and [ShareCal] negate the y coordinate in place and
  pass it on without reducing it. *)
Module Plain.

Section Package.

Context {curve : elliptic.Curve}.

Definition PointDecrypt (ct : CipherText) (priv : PrivateKey) : M CurvePoint :=
d <- Int_Bytes (D priv) ;;
rK <- curve_ScalarMult (X (K ct)) (Y (K ct)) d ;;
let (rKx, rKy) := rK in
negrKy <- Int_Neg rKy (cell rKy) ;;
xy <- curve_Add (X (C ct)) (Y (C ct)) (cell rKx) (cell negrKy) ;;
ret (point xy).

Definition ShareCal (targetPubKey : PublicKey) (rB : CurvePoint)
  (priv : PrivateKey) : M CipherText :=
ri <- randFieldElement ;;
rib <- Int_Bytes (cell ri) ;;
shareK <- curve_ScalarBaseMult rib ;;
d <- Int_Bytes (D priv) ;;
rBki <- curve_ScalarMult (X rB) (Y rB) d ;;
let (rBkix, rBkiy) := rBki in
Int_Neg rBkiy (cell rBkiy) ;;;
rib' <- Int_Bytes (cell ri) ;;
riU <- curve_ScalarMult (X targetPubKey) (Y targetPubKey) rib' ;;
let (riUx, riUy) := riU in
shareC <- curve_Add (cell rBkix) (cell rBkiy) (cell riUx) (cell riUy) ;;
ret {| K := point shareK; C := point shareC |}.

End Package.

End Plain.

(** ** The workflow of the tests

    [TestWorkFlow], without the proofs of the shares, which do not enter
    its result: the key-switch servers hold [pks], the user encrypts [Dp]
    under their aggregate public key, every server computes its share for
    the requester [q], the shares replace the ciphertext, and [q]
    decrypts. *)

Section WorkFlow.

Context {curve : elliptic.Curve}.

(** [for i := 0; i < lens; i++ { share, ri, _ := ShareCal(&Q, &ct.K, &pks[i]);
    shares[i] = *share }] *)
Fixpoint ShareCal_all (Q : PublicKey) (rB : CurvePoint) (pks : list PrivateKey)
  : M CipherVector :=
  match pks with
  | [] => ret []
  | pk :: rest =>
      sr <- ShareCal Q rB pk ;;
      shares <- ShareCal_all Q rB rest ;;
      ret (fst sr :: shares)
  end.

Definition WorkFlow (pks : list PrivateKey) (q : PrivateKey) (Dp : CurvePoint)
  : M CurvePoint :=
  let Pks := map GetPubKey pks in
  collPk <- CollPubKey Pks ;;
  ct <- PointEncrypt collPk Dp ;;
  let Q := GetPubKey q in
  shares <- ShareCal_all Q (K ct) pks ;;
  tct <- ShareReplace shares ct ;;
  PointDecrypt tct q.

End WorkFlow.

(** ** The contract of the curve

    The curve is a cyclic group of order [N] generated by the base point
    (cofactor 1, as for SM2 and the NIST prime curves); [pt k] is the
    affine form the curve returns for [k] times the base point.  The
    contract says that [Add] is the group law on these points, that the
    scalar multiplications are its iterations, and that the opposite of a
    point is the point with the y coordinate negated mod [P]. *)

Section Contract.

Context {curve : elliptic.Curve}.

Definition pt (k : Z) : Z * Z :=
  elliptic.ScalarBaseMult (Bytes (k mod elliptic.N elliptic.Params)).

Class CurveLaws : Prop := {
  P_pos : 0 < elliptic.P elliptic.Params;
  N_gt_1 : 1 < elliptic.N elliptic.Params;
  BitSize_nonneg : 0 <= elliptic.BitSize elliptic.Params;
  base_pt : pt 1 = (elliptic.Gx elliptic.Params, elliptic.Gy elliptic.Params);
  ScalarBaseMult_pt : forall k, elliptic.ScalarBaseMult k = pt (SetBytes k);
  ScalarMult_pt : forall a k,
    elliptic.ScalarMult (fst (pt a)) (snd (pt a)) k = pt (SetBytes k * a);
  Add_pt : forall a b,
    elliptic.Add (fst (pt a)) (snd (pt a)) (fst (pt b)) (snd (pt b)) = pt (a + b);
  neg_pt : forall a,
    pt (- a) = (fst (pt a), (- snd (pt a)) mod elliptic.P elliptic.Params)
}.

(** What the plain file needs on top: that [Add] takes a negative y for
    its residue mod [P] (the big.Int implementations reduce what they are
    given). *)
Class AddReduces : Prop := {
  Add_raw_r : forall x1 y1 a,
    elliptic.Add x1 y1 (fst (pt a)) (- snd (pt a))
    = elliptic.Add x1 y1 (fst (pt a)) ((- snd (pt a)) mod elliptic.P elliptic.Params);
  Add_raw_l : forall a x2 y2,
    elliptic.Add (fst (pt a)) (- snd (pt a)) x2 y2
    = elliptic.Add (fst (pt a)) ((- snd (pt a)) mod elliptic.P elliptic.Params) x2 y2
}.

(** The bytes a nonce is made of, and the nonce. *)
Definition nonce_len : nat :=
  Z.to_nat (Z.quot (elliptic.BitSize elliptic.Params) 8 + 8).

Definition field_element (b : list byte) : Z :=
  SetBytes b mod (elliptic.N elliptic.Params - 1) + 1.

(** A point struct and the coordinates its pointers lead to. *)
Definition holds (h : list Z) (p : CurvePoint) (v : Z * Z) : Prop :=
  deref h (X p) = Some (fst v) /\ deref h (Y p) = Some (snd v).

(** A private key [d] with its public key [d*B]. *)
Definition keypair (h : list Z) (priv : PrivateKey) (d : Z) : Prop :=
  deref h (D priv) = Some d /\ holds h (Public priv) (pt d).

End Contract.

(** The sum of a list of scalars. *)
Fixpoint sumZ (l : list Z) : Z :=
  match l with
  | [] => 0
  | x :: l' => x + sumZ l'
  end.

(** The transcript of a proof and what is made of it. *)
Section Transcript.

Context {curve : elliptic.Curve} {hash : sm3.Hash}.

(** [h.Write(p.X.Bytes()); h.Write(p.Y.Bytes())] *)
Definition absorb (h : list byte) (p : Z * Z) : list byte :=
  (h ++ Bytes (fst p)) ++ Bytes (snd p).

Definition transcript (points : list (Z * Z)) : list byte :=
  fold_left absorb points [].

(** The challenge: the first 32 bytes of the digest, big-endian. *)
Definition challenge_value (msg : list byte) : Z :=
  SetBytes (take 32 (sm3.Sum msg)).

(** The response [v - c*y], with the two reductions of the code. *)
Definition response (v c y : Z) : Z :=
  (v - (c * y) mod elliptic.N elliptic.Params) mod elliptic.N elliptic.Params.

(** The digest has 32 bytes or more (SM3 has 32). *)
Class HashLaws : Prop := {
  Sum_length : forall msg, (32 <= length (sm3.Sum msg))%nat
}.

(** The three components of a proof: the challenge below [bc], the
    responses below [N]. *)
Definition proof_below (bc : Z) (h : list Z) (pf : bigInt * bigInt * bigInt)
  : Prop :=
  exists c r1 r2,
    deref h (fst (fst pf)) = Some c /\ deref h (snd (fst pf)) = Some r1
    /\ deref h (snd pf) = Some r2
    /\ 0 <= c < bc
    /\ 0 <= r1 < elliptic.N elliptic.Params
    /\ 0 <= r2 < elliptic.N elliptic.Params.

End Transcript.


(** The outcome of a call is an error (C8 as the specification words it). *)
Definition returns_error {A} (r : outcome A * state) : Prop :=
  exists e, fst r = Err e.

(** The frame of an operation.

    [frame n m Q]: run from a state with at least [n] big.Int, [m] leaves
    the first [n] of them as they are, whatever its outcome, and a value
    it returns satisfies [Q]. *)

Definition frame {A} (n : nat) (m : M A) (Q : A -> Prop) : Prop :=
  forall s, (n <= length (heap s))%nat ->
    take n (heap (snd (m s))) = take n (heap s)
    /\ (n <= length (heap (snd (m s))))%nat
    /\ forall a, fst (m s) = Ok a -> Q a.

(** Every pointer leads after to what it led to before. *)
Definition preserved (s s' : state) : Prop :=
  forall (x : bigInt) (v : Z),
    deref (heap s) x = Some v -> deref (heap s') x = Some v.

(** Two big.Int made after the first [n]. *)
Definition fresh2 (n : nat) (xy : nat * nat) : Prop :=
  (n <= fst xy)%nat /\ (n <= snd xy)%nat.

(** ** The reader and the outcomes

    [rand.Reader] is read by [randFieldElement] and by nothing else; the
    predicates below say what a call did with it. *)

Section Reader.

Context {curve : elliptic.Curve}.

(** An operation that needs no entropy: it leaves the reader where it is
    and does not return an error. *)
Definition quiet {A} (m : M A) : Prop :=
  forall s, tape (snd (m s)) = tape s /\ forall e, fst (m s) <> Err e.

(** The error [io.ReadFull] gives on a reader that ends early. *)
Definition short_read (t : list byte) : error :=
  match t with
  | [] => EOF
  | _ => ErrUnexpectedEOF
  end.

(** What a call did with the reader [t], by its outcome: with a value,
    [n] nonces were there and were taken; with an error, they were not
    there, the error is one of [io.ReadFull] and the reader is used up. *)
Definition drew {A} (n : nat) (t : list byte) (r : outcome A * state) : Prop :=
  match fst r with
  | Ok _ => (n * nonce_len <= length t)%nat
            /\ tape (snd r) = drop (n * nonce_len) t
  | Err e => (length t < n * nonce_len)%nat
             /\ (e = EOF \/ e = ErrUnexpectedEOF)
             /\ tape (snd r) = []
  | Panic _ => True
  end.

End Reader.

(** ** The other tests

    The tests from the keys on: the keys and the point are arguments,
    what the test prints is the result. *)

Section Tests.

Context {curve : elliptic.Curve} {hash : sm3.Hash}.

(** [TestWorkFlow] of the file with the proofs.  The loop over the
    servers: each one computes its share, proves it with
    [ShareProofGenNoB], and [ShareProofVryNoB] gives the flag the test
    looks at. *)
Fixpoint ShareCal_proved (Q : PublicKey) (rB : CurvePoint)
    (pks : list PrivateKey) : M (CipherVector * list bool) :=
  match pks with
  | [] => ret ([], [])
  | pk :: rest =>
      sr <- ShareCal Q rB pk ;;
      let (share, ri) := sr in
      pf <- ShareProofGenNoB ri pk share Q rB ;;
      let (cr1, r2) := pf in
      let (c, r1) := cr1 in
      flag <- ShareProofVryNoB c r1 r2 share (Public pk) Q rB ;;
      res <- ShareCal_proved Q rB rest ;;
      ret (share :: fst res, flag :: snd res)
  end.

(** [0 == D.X.Cmp(pt.X) && 0 == D.Y.Cmp(pt.Y)] *)
Definition same_point (Dp out : CurvePoint) : M bool :=
  cx <- Int_Cmp (X Dp) (X out) ;;
  if cx =? 0
  then cy <- Int_Cmp (Y Dp) (Y out) ;; ret (cy =? 0)
  else ret false.

(** [TestCollPubKey] from the keys on: the private keys are added up by
    the statements of [CollPrivKey], the public keys by [CollPubKey], and
    the public key of the sum is compared with the sum of the public
    keys. *)
Definition TestCollPubKey (privs : list PrivateKey) : M bool :=
  collPriv <- alloc 0 ;;                              (* SetString("0", 16) *)
  CollPrivKey_loop collPriv privs ;;;
  cPubKey <- CollPubKey (map GetPubKey privs) ;;
  b <- Int_Bytes (cell collPriv) ;;
  newPubKey <- curve_ScalarBaseMult b ;;
  same_point cPubKey (point newPubKey).

(** [TestWorkFlow] from the keys on: the result of the comparison it prints
    and the flags of the proofs.  A call that returns an error ends the
    run here; the test drops the errors of [PointEncrypt], [ShareCal] and
    [ShareProofGenNoB]. *)
Definition TestWorkFlow (pks : list PrivateKey) (q : PrivateKey)
    (Dp : CurvePoint) : M (bool * list bool) :=
  let Pks := map GetPubKey pks in
  collPk <- CollPubKey Pks ;;
  ct <- PointEncrypt collPk Dp ;;
  let Q := Public q in
  res <- ShareCal_proved Q (K ct) pks ;;
  tct <- ShareReplace (fst res) ct ;;
  out <- PointDecrypt tct q ;;
  eq <- same_point Dp out ;;
  ret (eq, snd res).

(** [TestWorkFlow] of the plain file. *)
Fixpoint Plain_ShareCal_all (Q : PublicKey) (rB : CurvePoint)
    (pks : list PrivateKey) : M CipherVector :=
  match pks with
  | [] => ret []
  | pk :: rest =>
      share <- Plain.ShareCal Q rB pk ;;
      shares <- Plain_ShareCal_all Q rB rest ;;
      ret (share :: shares)
  end.

Definition Plain_TestWorkFlow (pks : list PrivateKey) (q : PrivateKey)
    (Dp : CurvePoint) : M bool :=
  let Pks := map GetPubKey pks in
  collPk <- CollPubKey Pks ;;
  ct <- PointEncrypt collPk Dp ;;
  let Q := Public q in
  shares <- Plain_ShareCal_all Q (K ct) pks ;;
  tct <- ShareReplace shares ct ;;
  out <- Plain.PointDecrypt tct q ;;
  same_point Dp out.

End Tests.

(** ** SM3, to run the package

    The digest of GB/T 32905: 32-bit words as integers with the
    wrap-around written out, the message padded to blocks of 64 bytes. *)
Module SM3.

Definition w32 (x : Z) : Z := x mod 2 ^ 32.

Definition rotl (x k : Z) : Z :=
  w32 (Z.lor (Z.shiftl x (k mod 32)) (Z.shiftr x (32 - k mod 32))).

Definition P0 (x : Z) : Z := Z.lxor (Z.lxor x (rotl x 9)) (rotl x 17).
Definition P1 (x : Z) : Z := Z.lxor (Z.lxor x (rotl x 15)) (rotl x 23).

Definition T (j : Z) : Z := if j <? 16 then 0x79cc4519 else 0x7a879d8a.

Definition FF (j x y z : Z) : Z :=
  if j <? 16 then Z.lxor (Z.lxor x y) z
  else Z.lor (Z.lor (Z.land x y) (Z.land x z)) (Z.land y z).

Definition GG (j x y z : Z) : Z :=
  if j <? 16 then Z.lxor (Z.lxor x y) z
  else Z.lor (Z.land x y) (Z.land (Z.lxor x 0xffffffff) z).

Definition IV : list Z :=
  [0x7380166f; 0x4914b2b9; 0x172442d7; 0xda8a0600;
   0xa96f30bc; 0x163138aa; 0xe38dee4d; 0xb0fb0e4e].

Definition word (W : list Z) (j : Z) : Z := nth (Z.to_nat j) W 0.

(** W_16 .. W_67, one at a time. *)
Fixpoint expand (steps : nat) (W : list Z) : list Z :=
  match steps with
  | O => W
  | S k =>
      let j := Z.of_nat (length W) in
      let x := Z.lxor (Z.lxor (word W (j - 16)) (word W (j - 9)))
                      (rotl (word W (j - 3)) 15) in
      expand k (W ++ [Z.lxor (Z.lxor (P1 x) (rotl (word W (j - 13)) 7))
                             (word W (j - 6))])
  end.

Definition round (W : list Z) (V : list Z) (j : Z) : list Z :=
  match V with
  | [A; B; C; D; E; F; G; H] =>
      let SS1 := rotl (w32 (rotl A 12 + E + rotl (T j) j)) 7 in
      let SS2 := Z.lxor SS1 (rotl A 12) in
      let TT1 := w32 (FF j A B C + D + SS2 + Z.lxor (word W j) (word W (j + 4))) in
      let TT2 := w32 (GG j E F G + H + SS1 + word W j) in
      [TT1; A; rotl B 9; C; P0 TT2; E; rotl F 19; G]
  | _ => V
  end.

Definition compress (V : list Z) (block : list Z) : list Z :=
  let W := expand 52 block in
  let V' := fold_left (round W) (map Z.of_nat (seq 0 64)) V in
  map (fun ab => Z.lxor (fst ab) (snd ab)) (combine V' V).

(** Big-endian bytes of a [k]-byte integer. *)
Fixpoint be_bytes (k : nat) (x : Z) : list byte :=
  match k with
  | O => []
  | S k' => byte_of_Z ((x / 256 ^ Z.of_nat k') mod 256) :: be_bytes k' x
  end.

Definition pad (msg : list byte) : list byte :=
  let len := Z.of_nat (length msg) in
  let zeros := Z.to_nat ((55 - len) mod 64) in
  msg ++ [x80] ++ repeat x00 zeros ++ be_bytes 8 (8 * len).

Fixpoint words (fuel : nat) (b : list byte) : list Z :=
  match fuel, b with
  | S f, b0 :: b1 :: b2 :: b3 :: rest =>
      (((byte_to_Z b0 * 256 + byte_to_Z b1) * 256 + byte_to_Z b2) * 256
       + byte_to_Z b3) :: words f rest
  | _, _ => []
  end.

Fixpoint blocks (fuel : nat) (V : list Z) (ws : list Z) : list Z :=
  match fuel, ws with
  | S f, _ :: _ => blocks f (compress V (firstn 16 ws)) (skipn 16 ws)
  | _, _ => V
  end.

Definition Sum (msg : list byte) : list byte :=
  let padded := pad msg in
  let ws := words (length padded) padded in
  flat_map (be_bytes 4) (blocks (length ws) IV ws).


#[export] Instance hash : sm3.Hash := {| sm3.Sum := Sum |}.

End SM3.

(** ** A small curve to run the package on

    y^2 = x^3 + 2x + 2 over the integers mod 17: a group of prime order
    19 generated by (5, 1); (0, 0) is not on the curve and stands for the
    point at infinity, as in crypto/elliptic.  The operations reduce the
    coordinates they are given, as the big.Int implementations do. *)
Module Toy.

Definition p : Z := 17.
Definition a : Z := 2.
Definition n : Z := 19.

Definition inv (x : Z) : Z := (x ^ (p - 2)) mod p.

Definition add (x1 y1 x2 y2 : Z) : Z * Z :=
  let x1 := x1 mod p in let y1 := y1 mod p in
  let x2 := x2 mod p in let y2 := y2 mod p in
  if (x1 =? 0) && (y1 =? 0) then (x2, y2)
  else if (x2 =? 0) && (y2 =? 0) then (x1, y1)
  else if (x1 =? x2) && ((y1 + y2) mod p =? 0) then (0, 0)
  else
    let lam := if x1 =? x2
               then ((3 * x1 * x1 + a) * inv (2 * y1)) mod p
               else ((y2 - y1) * inv (x2 - x1)) mod p in
    let x3 := (lam * lam - x1 - x2) mod p in
    (x3, (lam * (x1 - x3) - y1) mod p).

(** Double and add, from the most significant bit down. *)
Fixpoint mul_pos (k : positive) (x y : Z) : Z * Z :=
  match k with
  | xH => (x mod p, y mod p)
  | xO k' => let q := mul_pos k' x y in add (fst q) (snd q) (fst q) (snd q)
  | xI k' => let q := mul_pos k' x y in
             let d := add (fst q) (snd q) (fst q) (snd q) in
             add (fst d) (snd d) x y
  end.

Definition mul (x y : Z) (k : list byte) : Z * Z :=
  match SetBytes k with
  | Zpos k' => mul_pos k' x y
  | _ => (0, 0)
  end.

#[export] Instance curve : elliptic.Curve := {|
  elliptic.Params := {| elliptic.P := p; elliptic.N := n;
                        elliptic.Gx := 5; elliptic.Gy := 1;
                        elliptic.BitSize := 5 |};
  elliptic.Add := add;
  elliptic.ScalarMult := mul;
  elliptic.ScalarBaseMult := mul 5 1
|}.

(** The multiples of the base point, from 0 to 18 times. *)
Definition multiples : list (Z * Z) :=
  [(0, 0); (5, 1); (6, 3); (10, 6); (3, 1); (9, 16); (16, 13); (0, 6);
   (13, 7); (7, 6); (7, 11); (13, 10); (0, 11); (16, 4); (9, 1); (3, 16);
   (10, 11); (6, 14); (5, 16)].

Definition multiple (i : Z) : Z * Z := nth (Z.to_nat i) multiples (0, 0).

Definition residues : list Z := map Z.of_nat (seq 0 19).

Definition pair_eqb (u v : Z * Z) : bool :=
  (fst u =? fst v) && (snd u =? snd v).

End Toy.

Module Runs.
Import Toy SM3.

(** Three servers with the private keys 3, 5 and 18, the requester with
    7, and the point 4*B; every key with its public key. *)
Definition h0 : list Z := [3; 10; 6;  5; 9; 16;  18; 5; 16;  7; 0; 6;  3; 1].

Definition key (i : nat) : PrivateKey :=
  {| Public := {| X := cell (3 * i + 1); Y := cell (3 * i + 2) |};
     D := cell (3 * i) |}.

Definition Dp0 : CurvePoint := {| X := cell 12; Y := cell 13 |}.

Definition t0 : list byte :=
  [x01; x02; x03; x04; x05; x06; x07; x08;
   x09; x09; x09; x09; x09; x09; x09; x09;
   xc8; x01; x01; x01; x01; x01; x01; x4d;
   x00; x00; x00; x00; x00; x00; x00; x12;
   x00; x00; x00; x00; x00; x00; x00; x11].

(** A share of the server with key 3 for the requester key 7*B on the
    point 5*B, with the nonce 2: K = 2*B, C = (2*7 - 3*5)*B = 18*B. *)
Definition h1 : list Z := [2;  3; 10; 6;  0; 6;  9; 16;  6; 3;  5; 16].
Definition ri1 : bigInt := cell 0.
Definition priv1 : PrivateKey :=
  {| Public := {| X := cell 2; Y := cell 3 |}; D := cell 1 |}.
Definition Q1 : PublicKey := {| X := cell 4; Y := cell 5 |}.
Definition rB1 : CurvePoint := {| X := cell 6; Y := cell 7 |}.
Definition share1 : CipherText :=
  {| K := {| X := cell 8; Y := cell 9 |}; C := {| X := cell 10; Y := cell 11 |} |}.

(** Two shares and a ciphertext: 2*B, 3*B; 4*B, 5*B; 6*B, 7*B. *)
Definition h2 : list Z := [6; 3; 10; 6;  3; 1; 9; 16;  16; 13; 0; 6].
Definition ct_at (i : nat) : CipherText :=
  {| K := {| X := cell (4 * i); Y := cell (4 * i + 1) |};
     C := {| X := cell (4 * i + 2); Y := cell (4 * i + 3) |} |}.

(** The proof of [share1] and the state after it. *)
Definition proof1 : outcome (bigInt * bigInt * bigInt) * state :=
  Eval vm_compute in ShareProofGen ri1 priv1 share1 Q1 rB1 (State h1 t0).

End Runs.

(** A proof of [ProofGen] on the small curve, for the keys 3 and 5 with
    their public keys, A1 = A2 = 3*B and A = (3*3 + 5*3)*B = 5*B; and its
    heap with two more integers, the responses plus 19 and plus 38. *)
Module ProofRuns.
Import Toy SM3 Runs.

Definition proof0 : outcome (bigInt * bigInt * bigInt) * state :=
  Eval vm_compute in
    ProofGen (D (key 0)) (D (key 1)) base_point
      (Public (key 0)) (Public (key 1))
      (Public (key 0)) (Public (key 0)) (Public (key 1)) (State h0 t0).

Definition h3 : list Z :=
  Eval vm_compute in
    heap (snd proof0)
    ++ [nth 30 (heap (snd proof0)) 0 + 19; nth 31 (heap (snd proof0)) 0 + 38].

End ProofRuns.


(** * Properties *)

(** ** Byte encodings *)

Lemma byte_to_Z_range (b : byte) : 0 <= byte_to_Z b < 256.
Proof.
  unfold byte_to_Z. pose proof (Byte.to_N_bounded b) as Hb.
  lia.
Qed.

Lemma byte_to_of_Z (z : Z) : 0 <= z < 256 -> byte_to_Z (byte_of_Z z) = z.
Proof.
  intros Hz. unfold byte_to_Z, byte_of_Z.
  destruct (Byte.of_N (Z.to_N z)) as [b|] eqn:E.
  - apply Byte.to_of_N in E. rewrite E. lia.
  - apply Byte.of_N_None_iff in E. lia.
Qed.

Lemma SetBytes_snoc (l : list byte) (b : byte) :
  SetBytes (l ++ [b]) = SetBytes l * 256 + byte_to_Z b.
Proof. unfold SetBytes. rewrite fold_left_app. reflexivity. Qed.

Lemma SetBytes_nonneg (l : list byte) : 0 <= SetBytes l.
Proof.
  induction l as [|b l IH] using rev_ind.
  - reflexivity.
  - rewrite SetBytes_snoc. pose proof (byte_to_Z_range b). lia.
Qed.

Lemma SetBytes_lt (l : list byte) : SetBytes l < 256 ^ Z.of_nat (length l).
Proof.
  induction l as [|b l IH] using rev_ind.
  - reflexivity.
  - rewrite SetBytes_snoc, length_app, Nat2Z.inj_add, Z.pow_add_r by lia.
    pose proof (byte_to_Z_range b). change (256 ^ Z.of_nat (length [b])) with 256.
    lia.
Qed.

Lemma le_digits_value (fuel : nat) (z : Z) :
  0 <= z < 2 ^ Z.of_nat fuel -> SetBytes (rev (le_digits fuel z)) = z.
Proof.
  revert z. induction fuel as [|f IH]; intros z Hz.
  - change (2 ^ Z.of_nat 0) with 1 in Hz. cbn. lia.
  - cbn [le_digits]. destruct (Z.eqb_spec z 0) as [->|Hne]; [reflexivity|].
    cbn [rev]. rewrite SetBytes_snoc, IH, byte_to_of_Z.
    + pose proof (Z.div_mod z 256). lia.
    + apply Z.mod_pos_bound. lia.
    + rewrite Nat2Z.inj_succ, Z.pow_succ_r in Hz by lia.
      split; [apply Z.div_pos; lia|].
      apply Z.div_lt_upper_bound; lia.
Qed.

(** [SetBytes] undoes [Bytes] up to the sign, which [Bytes] drops. *)
Lemma SetBytes_Bytes (z : Z) : SetBytes (Bytes z) = Z.abs z.
Proof.
  unfold Bytes. apply le_digits_value.
  split; [lia|].
  destruct (Z.eq_dec (Z.abs z) 0) as [E|E].
  - rewrite E. cbn. lia.
  - rewrite Nat2Z.inj_succ, Z2Nat.id by apply Z.log2_nonneg.
    apply Z.log2_spec. lia.
Qed.

Lemma SetBytes_Bytes_nonneg (z : Z) : 0 <= z -> SetBytes (Bytes z) = z.
Proof. intros Hz. rewrite SetBytes_Bytes. lia. Qed.

(** ** Running the monad *)

Lemma bind_ret {A B} (a : A) (f : A -> M B) (s : state) :
  bind (ret a) f s = f a s.
Proof. reflexivity. Qed.

Lemma bind_bind {A B C'} (m : M A) (f : A -> M B) (g : B -> M C') (s : state) :
  bind (bind m f) g s = bind m (fun x => bind (f x) g) s.
Proof. unfold bind. destruct (m s) as [[a|e|p] s']; reflexivity. Qed.

Lemma bind_Ok {A B} (m : M A) (f : A -> M B) (s s' : state) (a : A) :
  m s = (Ok a, s') -> bind m f s = f a s'.
Proof. unfold bind. intros ->. reflexivity. Qed.

Lemma bind_alloc {B} (v : Z) (f : nat -> M B) (h : list Z) (t : list byte) :
  bind (alloc v) f (State h t) = f (length h) (State (h ++ [v]) t).
Proof. reflexivity. Qed.

Lemma bind_load {B} (x : bigInt) (v : Z) (f : Z -> M B) (h : list Z)
    (t : list byte) :
  deref h x = Some v -> bind (load x) f (State h t) = f v (State h t).
Proof. unfold bind, load. cbn. intros ->. reflexivity. Qed.

Lemma bind_store {B} (l : nat) (v : Z) (f : unit -> M B) (h : list Z)
    (t : list byte) :
  (l < length h)%nat ->
  bind (store l v) f (State h t) = f tt (State (<[l := v]> h) t).
Proof.
  intros Hl. unfold bind, store. cbn. destruct (decide _); [reflexivity|lia].
Qed.

Lemma bind_ReadFull {B} (n : nat) (f : list byte -> M B) (h : list Z)
    (t : list byte) :
  (n <= length t)%nat ->
  bind (ReadFull n) f (State h t) = f (take n t) (State h (drop n t)).
Proof.
  intros Hn. unfold bind, ReadFull. cbn. destruct (decide _); [reflexivity|lia].
Qed.

(** *** The heap as the entry heap followed by the new cells *)

Lemma deref_app_l (h l : list Z) (x : bigInt) (v : Z) :
  deref h x = Some v -> deref (h ++ l) x = Some v.
Proof.
  destruct x as [i|w]; cbn; [|auto]. intros H. by apply lookup_app_l_Some.
Qed.

Lemma deref_new (h l : list Z) (i : nat) :
  deref (h ++ l) (cell (length h + i)) = l !! i.
Proof.
  cbn. rewrite lookup_app_r by lia. f_equal. lia.
Qed.

Lemma deref_new0 (h l : list Z) : deref (h ++ l) (cell (length h)) = l !! 0%nat.
Proof. rewrite <- (deref_new h l 0). do 2 f_equal. lia. Qed.

Lemma insert_new0 (h l : list Z) (v : Z) :
  <[length h := v]> (h ++ l) = h ++ <[0%nat := v]> l.
Proof. rewrite <- (insert_app_r h l 0). f_equal. lia. Qed.

Lemma app_nil_heap (h : list Z) (t : list byte) : State h t = State (h ++ []) t.
Proof. by rewrite app_nil_r. Qed.

Lemma bind_alloc_app {B} (v : Z) (f : nat -> M B) (h l : list Z) (t : list byte) :
  bind (alloc v) f (State (h ++ l) t)
  = f (length h + length l)%nat (State (h ++ (l ++ [v])) t).
Proof. rewrite bind_alloc, length_app, app_assoc. reflexivity. Qed.

Ltac solve_deref :=
  first
    [ eassumption
    | reflexivity
    | rewrite deref_new; reflexivity
    | rewrite deref_new0; reflexivity
    | apply deref_app_l; eassumption ].

Ltac solve_len :=
  rewrite ?length_app; cbn [length]; lia.

Ltac norm_heap :=
  cbn [length app fst snd point X Y K C D Public insert list_insert];
  rewrite ?Nat.add_0_r.

Ltac mstep :=
  first
    [ rewrite insert_app_r
    | rewrite insert_new0
    | rewrite bind_bind
    | rewrite bind_ret
    | rewrite bind_alloc_app
    | rewrite bind_alloc
    | erewrite bind_load by solve_deref
    | rewrite bind_store by solve_len ];
  norm_heap.


Section Laws.

Context {curve : elliptic.Curve} {laws : CurveLaws}.

Local Abbreviation N := (elliptic.N elliptic.Params).
Local Abbreviation P := (elliptic.P elliptic.Params).

Lemma pt_mod (k : Z) : pt (k mod N) = pt k.
Proof. unfold pt. by rewrite Z.mod_mod by (pose proof N_gt_1; lia). Qed.

Lemma pt_congr (a b : Z) : a mod N = b mod N -> pt a = pt b.
Proof. intros E. rewrite <- (pt_mod a), E. apply pt_mod. Qed.

Lemma pt_shift (a k : Z) : pt (a + k * N) = pt a.
Proof. apply pt_congr. apply Z_mod_plus_full. Qed.

Lemma ScalarBaseMult_Bytes (k : Z) :
  0 <= k -> elliptic.ScalarBaseMult (Bytes k) = pt k.
Proof. intros Hk. by rewrite ScalarBaseMult_pt, SetBytes_Bytes_nonneg. Qed.

Lemma ScalarMult_Bytes (a k : Z) :
  0 <= k -> elliptic.ScalarMult (fst (pt a)) (snd (pt a)) (Bytes k) = pt (k * a).
Proof. intros Hk. by rewrite ScalarMult_pt, SetBytes_Bytes_nonneg. Qed.

Lemma ScalarMult_base (k : list byte) :
  elliptic.ScalarMult (elliptic.Gx elliptic.Params) (elliptic.Gy elliptic.Params) k
  = elliptic.ScalarBaseMult k.
Proof.
  pose proof base_pt as E.
  replace (elliptic.Gx elliptic.Params) with (fst (pt 1)) by (by rewrite E).
  replace (elliptic.Gy elliptic.Params) with (snd (pt 1)) by (by rewrite E).
  rewrite ScalarMult_pt, ScalarBaseMult_pt. f_equal. lia.
Qed.

Lemma Add_neg_r (a b : Z) :
  elliptic.Add (fst (pt a)) (snd (pt a)) (fst (pt b)) ((- snd (pt b)) mod P)
  = pt (a - b).
Proof.
  pose proof (neg_pt b) as E.
  replace (fst (pt b)) with (fst (pt (- b))) by (by rewrite E).
  replace ((- snd (pt b)) mod P) with (snd (pt (- b))) by (by rewrite E).
  rewrite Add_pt. f_equal.
Qed.

Lemma Add_neg_l (a b : Z) :
  elliptic.Add (fst (pt a)) ((- snd (pt a)) mod P) (fst (pt b)) (snd (pt b))
  = pt (b - a).
Proof.
  pose proof (neg_pt a) as E.
  replace (fst (pt a)) with (fst (pt (- a))) at 1 by (by rewrite E).
  replace ((- snd (pt a)) mod P) with (snd (pt (- a))) by (by rewrite E).
  rewrite Add_pt. f_equal. lia.
Qed.

Lemma field_element_range (b : list byte) : 1 <= field_element b < N.
Proof.
  unfold field_element. pose proof N_gt_1.
  pose proof (Z.mod_pos_bound (SetBytes b) (N - 1)). lia.
Qed.

End Laws.

(** *** Tactics for the runs *)

Ltac unfold_ops :=
  unfold Int_SetBytes, Int_Bytes, Int_Set, Int_Neg, Int_Mod, Int_Sub, Int_Add,
    Int_Mul, Int_Cmp, new_Int, curve_Add, curve_ScalarMult,
    curve_ScalarBaseMult, alloc_point, params_N, params_P, params_Gx,
    params_Gy, one.

Ltac use_holds :=
  repeat match goal with
         | H : holds _ _ _ |- _ => destruct H as [? ?]
         | H : keypair _ _ _ |- _ => destruct H as [? ?]
         end.

Ltac P_nonzero :=
  match goal with
  | |- context [ elliptic.P elliptic.Params =? 0 ] =>
      destruct (Z.eqb_spec (elliptic.P elliptic.Params) 0) as [?E|_];
      [pose proof P_pos; lia|];
      rewrite ?(Z.abs_eq (elliptic.P elliptic.Params)) by (pose proof P_pos; lia)
  end.

Ltac N_nonzero :=
  match goal with
  | |- context [ elliptic.N elliptic.Params =? 0 ] =>
      destruct (Z.eqb_spec (elliptic.N elliptic.Params) 0) as [?E|_];
      [pose proof N_gt_1; lia|];
      rewrite ?(Z.abs_eq (elliptic.N elliptic.Params)) by (pose proof N_gt_1; lia)
  end.

Ltac run := repeat first [ mstep | P_nonzero | N_nonzero ].

Ltac solve_holds := split; cbn [X Y K C D Public point fst snd]; solve_deref.

(** ** What the operations compute *)

Section Exec.

Context {curve : elliptic.Curve} {laws : CurveLaws}.

Local Abbreviation N := (elliptic.N elliptic.Params).
Local Abbreviation P := (elliptic.P elliptic.Params).

Lemma holds_app_l (h l : list Z) (p : CurvePoint) (v : Z * Z) :
  holds h p v -> holds (h ++ l) p v.
Proof. intros [Hx Hy]. split; by apply deref_app_l. Qed.

Lemma keypair_app_l (h l : list Z) (priv : PrivateKey) (d : Z) :
  keypair h priv d -> keypair (h ++ l) priv d.
Proof.
  intros [Hd Hp]. split; [by apply deref_app_l | by apply holds_app_l].
Qed.

Lemma randFieldElement_run (h : list Z) (t : list byte) :
  (nonce_len <= length t)%nat ->
  randFieldElement (State h t)
  = (Ok (length h),
     State (h ++ [field_element (take nonce_len t); N - 1]) (drop nonce_len t)).
Proof.
  intros Hlen. unfold randFieldElement.
  pose proof BitSize_nonneg as HB. pose proof N_gt_1 as HN.
  destruct (Z.ltb_spec (Z.quot (elliptic.BitSize elliptic.Params) 8 + 8) 0)
    as [Hneg|_].
  { pose proof (Z.quot_pos (elliptic.BitSize elliptic.Params) 8). lia. }
  fold nonce_len.
  rewrite bind_ReadFull by exact Hlen.
  unfold Int_SetBytes, new_Int, Int_Sub, Int_Mod, Int_Add, params_N, one.
  repeat mstep.
  destruct (Z.eqb_spec (N - 1) 0) as [E|_]; [lia|].
  repeat mstep.
  rewrite Z.abs_eq by lia. reflexivity.
Qed.

Lemma PointEncrypt_spec (h : list Z) (t : list byte) (pub : PublicKey)
    (Dp : CurvePoint) (k d : Z) :
  holds h pub (pt k) -> holds h Dp (pt d) -> (nonce_len <= length t)%nat ->
  let r := field_element (take nonce_len t) in
  exists ct new,
    PointEncrypt pub Dp (State h t) = (Ok ct, State (h ++ new) (drop nonce_len t))
    /\ holds (h ++ new) (K ct) (pt r)
    /\ holds (h ++ new) (C ct) (pt (r * k + d)).
Proof.
  intros Hpub HD Hlen r. use_holds. unfold PointEncrypt.
  pose proof (field_element_range (take nonce_len t)) as Hr. fold r in Hr.
  erewrite bind_Ok by (by apply randFieldElement_run). fold r.
  unfold_ops. run.
  rewrite ScalarBaseMult_Bytes, ScalarMult_Bytes, Add_pt by lia.
  eexists _, _. split; [reflexivity|]. split; solve_holds.
Qed.

Lemma PointDecrypt_spec (h : list Z) (t : list byte) (ct : CipherText)
    (priv : PrivateKey) (d r c : Z) :
  deref h (D priv) = Some d -> 0 <= d ->
  holds h (K ct) (pt r) -> holds h (C ct) (pt c) ->
  exists Dp new,
    PointDecrypt ct priv (State h t) = (Ok Dp, State (h ++ new) t)
    /\ holds (h ++ new) Dp (pt (c - d * r)).
Proof.
  intros Hd Hd0 HK HC. use_holds. unfold PointDecrypt.
  unfold_ops. run.
  rewrite ScalarMult_Bytes by lia. 
  unfold_ops. run.
  rewrite Add_neg_r.
  eexists _, _. split; [reflexivity|]. solve_holds.
Qed.

Lemma ShareCal_spec (h : list Z) (t : list byte) (Q : PublicKey)
    (rB : CurvePoint) (priv : PrivateKey) (k q r : Z) :
  deref h (D priv) = Some k -> 0 <= k ->
  holds h Q (pt q) -> holds h rB (pt r) -> (nonce_len <= length t)%nat ->
  let ri := field_element (take nonce_len t) in
  exists share rip new,
    ShareCal Q rB priv (State h t)
    = (Ok (share, rip), State (h ++ new) (drop nonce_len t))
    /\ deref (h ++ new) rip = Some ri
    /\ holds (h ++ new) (K share) (pt ri)
    /\ holds (h ++ new) (C share) (pt (ri * q - k * r)).
Proof.
  intros Hd Hk HQ HrB Hlen ri. use_holds. unfold ShareCal.
  pose proof (field_element_range (take nonce_len t)) as Hr. fold ri in Hr.
  erewrite bind_Ok by (by apply randFieldElement_run). fold ri.
  unfold_ops. run.
  rewrite ScalarBaseMult_Bytes, !ScalarMult_Bytes, Add_neg_l by lia.
  eexists _, _, _. split; [reflexivity|]. split; [solve_deref|].
  split; solve_holds.
Qed.

(** *** The loops *)

Lemma sumZ_app (l1 l2 : list Z) : sumZ (l1 ++ l2) = sumZ l1 + sumZ l2.
Proof. induction l1 as [|x l1 IH]; cbn; lia. Qed.

Lemma sumZ_Permutation (l1 l2 : list Z) :
  Permutation l1 l2 -> sumZ l1 = sumZ l2.
Proof. induction 1; cbn; lia. Qed.

Lemma CollPubKey_loop_spec (pubs : list PublicKey) :
  forall (h : list Z) (t : list byte) (acc : PublicKey) (a : Z) (ks : list Z),
  holds h acc (pt a) ->
  Forall2 (fun pub k => holds h pub (pt k)) pubs ks ->
  exists res new,
    CollPubKey_loop acc pubs (State h t) = (Ok res, State (h ++ new) t)
    /\ holds (h ++ new) res (pt (a + sumZ ks)).
Proof.
  induction pubs as [|pub pubs IH]; intros h t acc a ks Hacc Hall.
  - inversion Hall; subst. exists acc, []. cbn [CollPubKey_loop sumZ].
    rewrite app_nil_r, Z.add_0_r. by split.
  - inversion Hall as [|? k ? ks' Hpub Hrest]; subst.
    cbn [CollPubKey_loop sumZ]. use_holds. unfold_ops. run.
    rewrite Add_pt.
    edestruct (IH (h ++ [fst (pt (a + k)); snd (pt (a + k))]) t
                 (point (length h, (length h + 1)%nat)) (a + k) ks')
      as (res & new & Hrun & Hres).
    + solve_holds.
    + eapply Forall2_impl; [exact Hrest|]. intros ? ?. apply holds_app_l.
    + rewrite Hrun. rewrite <- app_assoc in *.
      eexists _, _. split; [reflexivity|].
      by replace (a + (k + sumZ ks')) with (a + k + sumZ ks') by lia.
Qed.

Lemma CollPubKey_spec (pubs : list PublicKey) (ks : list Z) (h : list Z)
    (t : list byte) :
  pubs <> [] ->
  Forall2 (fun pub k => holds h pub (pt k)) pubs ks ->
  exists res new,
    CollPubKey pubs (State h t) = (Ok res, State (h ++ new) t)
    /\ holds (h ++ new) res (pt (sumZ ks)).
Proof.
  intros Hne Hall. destruct Hall as [|pub k pubs ks Hpub Hrest]; [done|].
  cbn [CollPubKey sumZ]. by apply CollPubKey_loop_spec.
Qed.

Lemma ShareReplace_loop_spec (shares : list CipherText) :
  forall (h : list Z) (t : list byte) (sigma : CipherText) (a b : Z)
         (vs : list (Z * Z)),
  holds h (K sigma) (pt a) -> holds h (C sigma) (pt b) ->
  Forall2 (fun share v => holds h (K share) (pt (fst v))
                          /\ holds h (C share) (pt (snd v))) shares vs ->
  exists res new,
    ShareReplace_loop sigma shares (State h t) = (Ok res, State (h ++ new) t)
    /\ holds (h ++ new) (K res) (pt (a + sumZ (map fst vs)))
    /\ holds (h ++ new) (C res) (pt (b + sumZ (map snd vs))).
Proof.
  induction shares as [|share shares IH]; intros h t sigma a b vs HK HC Hall.
  - inversion Hall; subst. exists sigma, []. cbn [ShareReplace_loop sumZ map].
    rewrite app_nil_r, !Z.add_0_r. by split.
  - inversion Hall as [|? [va vb] ? vs' [HsK HsC] Hrest]; subst.
    cbn [ShareReplace_loop sumZ map fst snd] in *. use_holds. unfold_ops. run.
    rewrite !Add_pt.
    edestruct (IH (h ++ [fst (pt (a + va)); snd (pt (a + va));
                         fst (pt (b + vb)); snd (pt (b + vb))]) t
                 {| K := point (length h, (length h + 1)%nat);
                    C := point ((length h + 2)%nat, (length h + 3)%nat) |}
                 (a + va) (b + vb) vs')
      as (res & new & Hrun & HresK & HresC).
    + solve_holds.
    + solve_holds.
    + eapply Forall2_impl; [exact Hrest|]. intros ? ? [? ?].
      split; by apply holds_app_l.
    + rewrite Hrun. rewrite <- app_assoc in *.
      eexists _, _. split; [reflexivity|].
      replace (a + (va + sumZ (map fst vs'))) with (a + va + sumZ (map fst vs')) by lia.
      replace (b + (vb + sumZ (map snd vs'))) with (b + vb + sumZ (map snd vs')) by lia.
      by split.
Qed.

Lemma ShareReplace_spec (shares : CipherVector) (vs : list (Z * Z))
    (rct : CipherText) (c : Z) (h : list Z) (t : list byte) :
  shares <> [] ->
  Forall2 (fun share v => holds h (K share) (pt (fst v))
                          /\ holds h (C share) (pt (snd v))) shares vs ->
  holds h (C rct) (pt c) ->
  exists ct new,
    ShareReplace shares rct (State h t) = (Ok ct, State (h ++ new) t)
    /\ holds (h ++ new) (K ct) (pt (sumZ (map fst vs)))
    /\ holds (h ++ new) (C ct) (pt (sumZ (map snd vs) + c)).
Proof.
  intros Hne Hall Hc.
  destruct Hall as [|share [va vb] shares vs [HK HC] Hrest]; [done|].
  cbn [ShareReplace sumZ map fst snd] in *.
  destruct (ShareReplace_loop_spec shares h t share va vb vs HK HC Hrest)
    as (sigma & new & Hrun & HsK & HsC).
  erewrite bind_Ok by exact Hrun.
  pose proof (holds_app_l _ new _ _ Hc) as Hc'.
  destruct HsC as [? ?], Hc' as [? ?].
  remember (h ++ new) as h1 eqn:Eh1.
  unfold_ops. run. rewrite Add_pt. subst h1. rewrite <- app_assoc.
  eexists _, _. split; [reflexivity|]. rewrite app_assoc. split.
  - by apply holds_app_l.
  - solve_holds.
Qed.

Lemma CollPrivKey_loop_spec (privs : list PrivateKey) :
  forall (ks : list Z) (h : list Z) (t : list byte) (a : Z),
  Forall2 (fun priv k => deref h (D priv) = Some k /\ 0 <= k) privs ks ->
  0 <= a < N ->
  CollPrivKey_loop (length h) privs (State (h ++ [a]) t)
  = (Ok tt, State (h ++ [(a + sumZ ks) mod N]) t).
Proof.
  pose proof N_gt_1 as HN.
  induction privs as [|priv privs IH]; intros ks h t a Hall Ha.
  - inversion Hall; subst. cbn [CollPrivKey_loop sumZ].
    by rewrite Z.add_0_r, Z.mod_small.
  - inversion Hall as [|? k ? ks' [Hd Hk] Hrest]; subst.
    cbn [CollPrivKey_loop sumZ]. unfold_ops. run.
    destruct (Z.compare_spec (a + k) N) as [E|E|E];
      cbn [Z.geb Z.compare]; run.
    + rewrite (IH ks') by (try apply Z.mod_pos_bound; done || lia).
      by rewrite Zplus_mod_idemp_l, Z.add_assoc.
    + rewrite (IH ks') by (done || lia). by rewrite Z.add_assoc.
    + rewrite (IH ks') by (try apply Z.mod_pos_bound; done || lia).
      by rewrite Zplus_mod_idemp_l, Z.add_assoc.
Qed.

Lemma CollPrivKey_spec (privs : list PrivateKey) (ks : list Z) (h : list Z)
    (t : list byte) :
  privs <> [] ->
  Forall2 (fun priv k => deref h (D priv) = Some k /\ 0 <= k) privs ks ->
  exists res new,
    CollPrivKey privs (State h t) = (Ok res, State (h ++ new) t)
    /\ keypair (h ++ new) res (sumZ ks mod N).
Proof.
  intros Hne Hall. pose proof N_gt_1 as HN.
  destruct privs as [|priv privs]; [done|].
  unfold CollPrivKey. rewrite bind_alloc.
  erewrite bind_Ok by (apply CollPrivKey_loop_spec; [exact Hall|lia]).
  rewrite Z.add_0_l. unfold_ops. run.
  rewrite ScalarBaseMult_Bytes by (apply Z.mod_pos_bound; lia).
  eexists _, _. split; [reflexivity|]. split; [solve_deref|solve_holds].
Qed.

Lemma ShareCal_all_spec (Q : PublicKey) (rB : CurvePoint) (q r : Z)
    (pks : list PrivateKey) :
  forall (ks : list Z) (h : list Z) (t : list byte),
  Forall2 (fun priv k => deref h (D priv) = Some k /\ 0 <= k) pks ks ->
  holds h Q (pt q) -> holds h rB (pt r) ->
  (length pks * nonce_len <= length t)%nat ->
  exists shares new vs,
    ShareCal_all Q rB pks (State h t)
    = (Ok shares, State (h ++ new) (drop (length pks * nonce_len) t))
    /\ Forall2 (fun share v => holds (h ++ new) (K share) (pt (fst v))
                               /\ holds (h ++ new) (C share) (pt (snd v)))
               shares vs
    /\ length shares = length pks
    /\ sumZ (map snd vs) = sumZ (map fst vs) * q - sumZ ks * r.
Proof.
  induction pks as [|pk pks IH]; intros ks h t Hall HQ HrB Hlen.
  - inversion Hall; subst. exists [], [], []. cbn. rewrite app_nil_r, drop_0.
    repeat split; constructor.
  - inversion Hall as [|? k ? ks' [Hd Hk] Hrest]; subst.
    cbn [ShareCal_all length] in *.
    destruct (ShareCal_spec h t Q rB pk k q r Hd Hk HQ HrB)
      as (share & rip & new1 & Hrun1 & _ & HsK & HsC); [lia|].
    erewrite bind_Ok by exact Hrun1. cbn [fst].
    destruct (IH ks' (h ++ new1) (drop nonce_len t))
      as (shares & new2 & vs & Hrun2 & Hvs & Hlen2 & Hsum).
    + eapply Forall2_impl; [exact Hrest|]. intros ? ? [? ?].
      split; [by apply deref_app_l|done].
    + by apply holds_app_l.
    + by apply holds_app_l.
    + rewrite length_drop. lia.
    + erewrite bind_Ok by exact Hrun2. unfold ret.
      rewrite drop_drop, <- app_assoc in *.
      set (ri := field_element (take nonce_len t)) in *.
      exists (share :: shares), (new1 ++ new2), ((ri, ri * q - k * r) :: vs).
      split; [do 3 f_equal; lia|]. split; [|split].
      * constructor; [|exact Hvs]. cbn [fst snd]. rewrite !app_assoc.
        split; by apply holds_app_l.
      * cbn. lia.
      * cbn [map sumZ fst snd]. lia.
Qed.

(** ** The claims about keys, encryption and shares *)

Lemma Forall_exists_Forall2 {A B} (R : A -> B -> Prop) (l : list A) :
  Forall (fun x => exists y, R x y) l -> exists l', Forall2 R l l'.
Proof.
  induction 1 as [|x l [y Hy] _ [l' IH]].
  - exists []. constructor.
  - exists (y :: l'). by constructor.
Qed.

Lemma Forall2_with_r {A B} (R : A -> B -> Prop) (Q : B -> Prop) (l : list A)
    (k : list B) :
  Forall2 R l k -> Forall Q k -> Forall2 (fun x y => R x y /\ Q y) l k.
Proof.
  induction 1 as [|x y l k Hxy _ IH]; intros HQ; [constructor|].
  inversion HQ; subst. constructor; auto.
Qed.

(** C2.  Encrypting a point under a public key and decrypting with its
    private key gives the point back: from any state whose random source
    still has the bytes of a nonce, [PointEncrypt] returns a ciphertext,
    [PointDecrypt] (of the file that reduces the negated y mod p) returns
    a point, and that point has the coordinates of the plaintext [Dp]. *)
Theorem PointDecrypt_PointEncrypt (h : list Z) (t : list byte)
    (priv : PrivateKey) (Dp : CurvePoint) (sk d : Z) :
  1 <= sk < N ->
  keypair h priv sk ->
  holds h Dp (pt d) ->
  (nonce_len <= length t)%nat ->
  exists ct s1 out s2,
    PointEncrypt (GetPubKey priv) Dp (State h t) = (Ok ct, s1)
    /\ PointDecrypt ct priv s1 = (Ok out, s2)
    /\ holds (heap s2) out (pt d)
    /\ holds (heap s2) Dp (pt d).
Proof.
  intros Hsk [Hd Hpub] HD Hlen.
  destruct (PointEncrypt_spec h t (GetPubKey priv) Dp sk d Hpub HD Hlen)
    as (ct & new1 & Hrun1 & HK & HC).
  destruct (PointDecrypt_spec (h ++ new1) (drop nonce_len t) ct priv sk
              _ _ (deref_app_l _ new1 _ _ Hd) ltac:(lia) HK HC)
    as (out & new2 & Hrun2 & Hout).
  exists ct, (State (h ++ new1) (drop nonce_len t)), out,
         (State ((h ++ new1) ++ new2) (drop nonce_len t)).
  split; [exact Hrun1|]. split; [exact Hrun2|]. cbn [heap]. split.
  - set (r := field_element (take nonce_len t)) in *.
    by replace (r * sk + d - sk * r) with d in Hout by lia.
  - by do 2 apply holds_app_l.
Qed.

(** C1.  The key switch, end to end: for [m >= 1] servers with private
    keys in [1, N-1], a requester key pair and a point [Dp], the workflow
    (aggregate the public keys, encrypt [Dp] under the aggregate, let every
    server compute its share for the requester on [ct.K], replace, decrypt
    with the requester's key) returns a point with the coordinates of
    [Dp], whenever the random source has the bytes of the [m + 1] nonces. *)
Theorem WorkFlow_key_switch (h : list Z) (t : list byte)
    (pks : list PrivateKey) (ks : list Z) (q : PrivateKey) (qd : Z)
    (Dp : CurvePoint) (d : Z) :
  pks <> [] ->
  Forall2 (keypair h) pks ks ->
  Forall (fun k => 1 <= k < N) ks ->
  keypair h q qd -> 1 <= qd < N ->
  holds h Dp (pt d) ->
  ((length pks + 1) * nonce_len <= length t)%nat ->
  exists out s',
    WorkFlow pks q Dp (State h t) = (Ok out, s')
    /\ holds (heap s') out (pt d)
    /\ holds (heap s') Dp (pt d).
Proof.
  intros Hne Hkeys Hrange [Hqd HQ] Hq HD Hlen. unfold WorkFlow.
  (* the aggregate public key *)
  destruct (CollPubKey_spec (map GetPubKey pks) ks h t) as (collPk & n1 & R1 & HPk).
  { by destruct pks. }
  { apply Forall2_fmap_l. eapply Forall2_impl; [exact Hkeys|]. by intros ? ? [? ?]. }
  erewrite bind_Ok by exact R1.
  (* the ciphertext *)
  destruct (PointEncrypt_spec (h ++ n1) t collPk Dp (sumZ ks) d HPk
              (holds_app_l _ n1 _ _ HD)) as (ct & n2 & R2 & HctK & HctC); [lia|].
  erewrite bind_Ok by exact R2.
  set (r := field_element (take nonce_len t)) in *.
  (* the shares *)
  destruct (ShareCal_all_spec (GetPubKey q) (K ct) qd r pks ks
              ((h ++ n1) ++ n2) (drop nonce_len t))
    as (shares & n3 & vs & R3 & Hvs & Hlen3 & Hsum).
  { eapply Forall2_impl; [apply (Forall2_with_r _ _ _ _ Hkeys Hrange)|].
    intros pk k [[Hk _] Hr]. split; [by do 2 apply deref_app_l|lia]. }
  { by do 2 apply holds_app_l. }
  { exact HctK. }
  { rewrite length_drop. lia. }
  erewrite bind_Ok by exact R3.
  (* the replacement *)
  destruct (ShareReplace_spec shares vs ct (r * sumZ ks + d)
              (((h ++ n1) ++ n2) ++ n3)
              (drop (length pks * nonce_len) (drop nonce_len t)))
    as (tct & n4 & R4 & HtK & HtC).
  { destruct shares; [destruct pks; done|done]. }
  { exact Hvs. }
  { by apply holds_app_l. }
  erewrite bind_Ok by exact R4.
  (* the decryption *)
  destruct (PointDecrypt_spec ((((h ++ n1) ++ n2) ++ n3) ++ n4)
              (drop (length pks * nonce_len) (drop nonce_len t)) tct q qd
              (sumZ (map fst vs)) (sumZ (map snd vs) + (r * sumZ ks + d)))
    as (out & n5 & R5 & Hout); [by do 4 apply deref_app_l|lia|done|done|].
  rewrite R5. eexists _, _. split; [reflexivity|]. cbn [heap]. split.
  - rewrite Hsum in Hout.
    by replace (sumZ (map fst vs) * qd - sumZ ks * r + (r * sumZ ks + d)
                - qd * sumZ (map fst vs)) with d in Hout by ring.
  - by do 5 apply holds_app_l.
Qed.

(** C4.  Aggregation is a homomorphism: for a nonempty list of private
    keys in [1, N-1], the public key of [CollPrivKey privs] and
    [CollPubKey] of their public keys are the same point, the one of the
    sum of the keys mod [N]. *)
Theorem CollPrivKey_CollPubKey (h : list Z) (t : list byte)
    (privs : list PrivateKey) (ks : list Z) :
  privs <> [] ->
  Forall2 (keypair h) privs ks ->
  Forall (fun k => 1 <= k < N) ks ->
  exists collPrivKey s1 collPubKey s2,
    CollPrivKey privs (State h t) = (Ok collPrivKey, s1)
    /\ CollPubKey (map GetPubKey privs) s1 = (Ok collPubKey, s2)
    /\ deref (heap s2) (D collPrivKey) = Some (sumZ ks mod N)
    /\ holds (heap s2) (GetPubKey collPrivKey) (pt (sumZ ks mod N))
    /\ holds (heap s2) collPubKey (pt (sumZ ks mod N)).
Proof.
  intros Hne Hkeys Hrange.
  destruct (CollPrivKey_spec privs ks h t Hne) as (cpriv & n1 & R1 & Hd & Hp).
  { eapply Forall2_impl; [apply (Forall2_with_r _ _ _ _ Hkeys Hrange)|].
    intros pk k [[Hk _] Hr]. split; [done|lia]. }
  destruct (CollPubKey_spec (map GetPubKey privs) ks (h ++ n1) t)
    as (cpub & n2 & R2 & Hpub).
  { by destruct privs. }
  { apply Forall2_fmap_l. eapply Forall2_impl; [exact Hkeys|].
    intros ? ? [? ?]. by apply holds_app_l. }
  eexists _, _, _, _. split; [exact R1|]. split; [exact R2|]. cbn [heap].
  split; [by apply deref_app_l|]. split; [by apply holds_app_l|].
  by rewrite pt_mod.
Qed.

(** C6.  The order of the shares does not matter: for a ciphertext and
    two nonempty share vectors that are permutations of each other, all
    of curve points, [ShareReplace] returns ciphertexts with the same
    coordinates. *)
Theorem ShareReplace_Permutation (h : list Z) (t : list byte)
    (shares1 shares2 : CipherVector) (rct : CipherText) :
  shares1 <> [] ->
  Permutation shares1 shares2 ->
  Forall (fun share => exists v, holds h (K share) (pt (fst v))
                                 /\ holds h (C share) (pt (snd v))) shares1 ->
  (exists c, holds h (C rct) (pt c)) ->
  exists ct1 s1 ct2 s2 vK vC,
    ShareReplace shares1 rct (State h t) = (Ok ct1, s1)
    /\ ShareReplace shares2 rct (State h t) = (Ok ct2, s2)
    /\ holds (heap s1) (K ct1) vK /\ holds (heap s2) (K ct2) vK
    /\ holds (heap s1) (C ct1) vC /\ holds (heap s2) (C ct2) vC.
Proof.
  intros Hne Hperm Hpts [c Hc].
  destruct (Forall_exists_Forall2 _ _ Hpts) as [vs1 Hvs1].
  destruct (Permutation_Forall2 Hperm Hvs1) as (vs2 & Hpv & Hvs2).
  destruct (ShareReplace_spec shares1 vs1 rct c h t Hne Hvs1 Hc)
    as (ct1 & n1 & R1 & HK1 & HC1).
  destruct (ShareReplace_spec shares2 vs2 rct c h t) as (ct2 & n2 & R2 & HK2 & HC2);
    [|exact Hvs2|exact Hc|].
  { intros ->. apply Permutation_nil_r in Hperm. done. }
  rewrite <- (sumZ_Permutation _ _ (Permutation_map fst Hpv)) in HK2.
  rewrite <- (sumZ_Permutation _ _ (Permutation_map snd Hpv)) in HC2.
  eexists _, _, _, _, _, _. split; [exact R1|]. split; [exact R2|]. by cbn [heap].
Qed.

(** C8, as the code has it.  With an empty collection [CollPrivKey],
    [CollPubKey] and [ShareReplace] stop at their first statement, the
    access to element 0: the outcome is the index-out-of-range panic of
    the Go runtime, not a value and not an error, and the state is the one
    of the call. *)
Theorem empty_aggregation_panics (s : state) (rct : CipherText) :
  CollPrivKey [] s = (Panic IndexOutOfRange, s)
  /\ CollPubKey [] s = (Panic IndexOutOfRange, s)
  /\ ShareReplace [] rct s = (Panic IndexOutOfRange, s).
Proof. repeat split. Qed.

(** ** The proofs of the shares *)

Context {hash : sm3.Hash} {hlaws : HashLaws}.

Lemma bind_randFieldElement {B} (f : nat -> M B) (h l : list Z) (t : list byte) :
  (nonce_len <= length t)%nat ->
  bind randFieldElement f (State (h ++ l) t)
  = f (length h + length l)%nat
      (State (h ++ (l ++ [field_element (take nonce_len t); N - 1]))
             (drop nonce_len t)).
Proof.
  intros Hlen. erewrite bind_Ok by (by apply randFieldElement_run).
  by rewrite length_app, <- app_assoc.
Qed.

Lemma bind_challenge {B} (msg : list byte) (f : nat -> M B) (h l : list Z)
    (t : list byte) :
  bind (challenge msg) f (State (h ++ l) t)
  = f (length h + length l)%nat (State (h ++ (l ++ [challenge_value msg])) t).
Proof.
  unfold challenge. destruct (decide _) as [_|Hn].
  - unfold Int_SetBytes. by rewrite bind_alloc_app.
  - pose proof (Sum_length msg). lia.
Qed.

Lemma response_range (v c y : Z) : 0 <= response v c y < N.
Proof. apply Z.mod_pos_bound. pose proof N_gt_1. lia. Qed.

Lemma challenge_value_range (msg : list byte) :
  0 <= challenge_value msg < 2 ^ 256.
Proof.
  unfold challenge_value. split; [apply SetBytes_nonneg|].
  eapply Z.lt_le_trans; [apply SetBytes_lt|].
  change (2 ^ 256) with (256 ^ 32). apply Z.pow_le_mono_r; [lia|].
  rewrite length_take. lia.
Qed.

Lemma pt_response (v c y m rest : Z) :
  pt (response v c y * m + c * y * m + rest) = pt (v * m + rest).
Proof.
  unfold response. pose proof N_gt_1 as HN.
  set (k1 := (c * y) / N). set (k2 := (v - (c * y) mod N) / N).
  assert (E1 : (c * y) mod N = c * y - N * k1)
    by (unfold k1; pose proof (Z.div_mod (c * y) N); lia).
  assert (E2 : (v - (c * y) mod N) mod N = v - (c * y) mod N - N * k2)
    by (unfold k2; pose proof (Z.div_mod (v - (c * y) mod N) N); lia).
  rewrite E2, E1.
  replace ((v - (c * y - N * k1) - N * k2) * m + c * y * m + rest)
    with (v * m + rest + ((k1 - k2) * m) * N) by ring.
  apply pt_shift.
Qed.

Lemma neg_copy_spec (h : list Z) (t : list byte) (rB : CurvePoint) (r : Z) :
  holds h rB (pt r) ->
  exists A2 new,
    neg_copy rB (State h t) = (Ok A2, State (h ++ new) t)
    /\ holds (h ++ new) A2 (pt (- r)).
Proof.
  intros HrB. use_holds. unfold neg_copy. unfold_ops. run.
  eexists _, _. split; [reflexivity|]. rewrite neg_pt. solve_holds.
Qed.

Ltac run_proof :=
  repeat first
    [ mstep | P_nonzero | N_nonzero
    | rewrite bind_randFieldElement by (rewrite ?length_drop; lia)
    | rewrite bind_challenge ].

Lemma ProofGen_spec (h : list Z) (t : list byte) (y1 y2 : bigInt)
    (B Y1 Y2 A1 A2 A : CurvePoint) (u1 u2 b a1 a2 : Z) (vY1 vY2 vA : Z * Z) :
  deref h y1 = Some u1 -> deref h y2 = Some u2 ->
  holds h B (pt b) -> holds h Y1 vY1 -> holds h Y2 vY2 ->
  holds h A1 (pt a1) -> holds h A2 (pt a2) -> holds h A vA ->
  (2 * nonce_len <= length t)%nat ->
  let v1 := field_element (take nonce_len t) in
  let v2 := field_element (take nonce_len (drop nonce_len t)) in
  let c := challenge_value
             (transcript [pt b; vY1; vY2; pt a1; pt a2; vA;
                          pt (v1 * b); pt (v2 * b); pt (v1 * a1 + v2 * a2)]) in
  exists pc pr1 pr2 new,
    ProofGen y1 y2 B Y1 Y2 A1 A2 A (State h t)
    = (Ok (pc, pr1, pr2), State (h ++ new) (drop nonce_len (drop nonce_len t)))
    /\ deref (h ++ new) pc = Some c
    /\ deref (h ++ new) pr1 = Some (response v1 c u1)
    /\ deref (h ++ new) pr2 = Some (response v2 c u2).
Proof.
  intros Hy1 Hy2 HB HY1 HY2 HA1 HA2 HA Hlen v1 v2 c. use_holds.
  pose proof (field_element_range (take nonce_len t)) as Hv1.
  pose proof (field_element_range (take nonce_len (drop nonce_len t))) as Hv2.
  fold v1 in Hv1. fold v2 in Hv2.
  unfold ProofGen. rewrite (app_nil_heap h).
  rewrite bind_randFieldElement by lia. norm_heap.
  rewrite bind_randFieldElement by (rewrite length_drop; lia). norm_heap.
  fold v1 v2. unfold sm3_Write. unfold_ops. run_proof.
  rewrite !ScalarMult_Bytes, Add_pt by lia.
  eexists _, _, _, _. split; [reflexivity|].
  split; [solve_deref|]. split; solve_deref.
Qed.

Lemma ProofVrf_spec (h : list Z) (t : list byte) (pc pr1 pr2 : bigInt)
    (B Y1 Y2 A1 A2 A : CurvePoint) (c w1 w2 b e1 e2 a1 a2 a : Z) :
  deref h pc = Some c -> deref h pr1 = Some w1 -> deref h pr2 = Some w2 ->
  0 <= c -> 0 <= w1 -> 0 <= w2 ->
  holds h B (pt b) -> holds h Y1 (pt e1) -> holds h Y2 (pt e2) ->
  holds h A1 (pt a1) -> holds h A2 (pt a2) -> holds h A (pt a) ->
  exists new,
    ProofVrf pc pr1 pr2 B Y1 Y2 A1 A2 A (State h t)
    = (Ok (c =? challenge_value
                  (transcript [pt b; pt e1; pt e2; pt a1; pt a2; pt a;
                               pt (w1 * b + c * e1); pt (w2 * b + c * e2);
                               pt (w1 * a1 + w2 * a2 + c * a)])),
       State (h ++ new) t).
Proof.
  intros Hc Hw1 Hw2 Hc0 Hw10 Hw20 HB HY1 HY2 HA1 HA2 HA. use_holds.
  unfold ProofVrf. rewrite (app_nil_heap h).
  unfold sm3_Write. unfold_ops. run_proof.
  rewrite !ScalarMult_Bytes, !Add_pt by lia.
  match goal with
  | |- context [ ?x ?= ?y ] => destruct (Z.compare_spec x y) as [E|E|E]
  end.
  - eexists.
    replace (0 =? 0) with true by reflexivity. unfold ret.
    f_equal. f_equal. symmetry. apply Z.eqb_eq. exact E.
  - eexists.
    replace (-1 =? 0) with false by reflexivity. unfold ret.
    f_equal. f_equal. symmetry. apply Z.eqb_neq. cbn in *. lia.
  - eexists.
    replace (1 =? 0) with false by reflexivity. unfold ret.
    f_equal. f_equal. symmetry. apply Z.eqb_neq. cbn in *. lia.
Qed.

Lemma holds_base_point (h : list Z) : holds h base_point (pt 1).
Proof. rewrite base_pt. by split. Qed.

(** C3.  Completeness of the share proof: for a share computed with the
    nonce [ri] and the private key [sk] (share.K = ri*B and
    share.C = ri*Q - sk*rB), the proof that [ShareProofGen] returns makes
    [ShareProofVry] return true for the public key [sk*B]. *)
Theorem ShareProofVry_ShareProofGen (h : list Z) (t : list byte)
    (ri : bigInt) (priv : PrivateKey) (share : CipherText) (Q : PublicKey)
    (rB : CurvePoint) (vri sk q r : Z) :
  deref h ri = Some vri -> 1 <= vri < N ->
  keypair h priv sk -> 1 <= sk < N ->
  holds h Q (pt q) -> holds h rB (pt r) ->
  holds h (K share) (pt vri) ->
  holds h (C share) (pt (vri * q - sk * r)) ->
  (2 * nonce_len <= length t)%nat ->
  exists c r1 r2 s1 s2,
    ShareProofGen ri priv share Q rB (State h t) = (Ok (c, r1, r2), s1)
    /\ ShareProofVry c r1 r2 share (GetPubKey priv) Q rB s1 = (Ok true, s2).
Proof.
  intros Hri Hvri [Hd Hpub] Hsk HQ HrB HK HC Hlen.
  (* the proof *)
  unfold ShareProofGen.
  destruct (neg_copy_spec h t rB r HrB) as (A2 & n1 & R1 & HA2).
  erewrite bind_Ok by exact R1.
  destruct (ProofGen_spec (h ++ n1) t ri (D priv) base_point (K share)
              (Public priv) Q A2 (C share) vri sk 1 q (- r)
              (pt vri) (pt sk) (pt (vri * q - sk * r))
              (deref_app_l _ n1 _ _ Hri) (deref_app_l _ n1 _ _ Hd)
              (holds_base_point _) (holds_app_l _ n1 _ _ HK)
              (holds_app_l _ n1 _ _ Hpub) (holds_app_l _ n1 _ _ HQ) HA2
              (holds_app_l _ n1 _ _ HC) Hlen)
    as (pc & pr1 & pr2 & n2 & R2 & Hc & Hr1 & Hr2).
  set (v1 := field_element (take nonce_len t)) in *.
  set (v2 := field_element (take nonce_len (drop nonce_len t))) in *.
  match type of Hc with _ = Some ?x => set (c := x) in * end.
  rewrite R2. clear R1 R2.
  (* its verification *)
  destruct (neg_copy_spec ((h ++ n1) ++ n2) (drop nonce_len (drop nonce_len t))
              rB r) as (A2' & n3 & R3 & HA2'); [by do 2 apply holds_app_l|].
  destruct (ProofVrf_spec (((h ++ n1) ++ n2) ++ n3)
              (drop nonce_len (drop nonce_len t)) pc pr1 pr2 base_point
              (K share) (GetPubKey priv) Q A2' (C share)
              c (response v1 c vri) (response v2 c sk) 1 vri sk q (- r)
              (vri * q - sk * r)
              (deref_app_l _ n3 _ _ Hc) (deref_app_l _ n3 _ _ Hr1)
              (deref_app_l _ n3 _ _ Hr2)
              (proj1 (challenge_value_range _))
              (proj1 (response_range _ _ _)) (proj1 (response_range _ _ _))
              (holds_base_point _)
              (holds_app_l _ n3 _ _ (holds_app_l _ n2 _ _ (holds_app_l _ n1 _ _ HK)))
              (holds_app_l _ n3 _ _ (holds_app_l _ n2 _ _ (holds_app_l _ n1 _ _ Hpub)))
              (holds_app_l _ n3 _ _ (holds_app_l _ n2 _ _ (holds_app_l _ n1 _ _ HQ)))
              HA2'
              (holds_app_l _ n3 _ _ (holds_app_l _ n2 _ _ (holds_app_l _ n1 _ _ HC))))
    as (n4 & R4).
  exists pc, pr1, pr2, (State ((h ++ n1) ++ n2) (drop nonce_len (drop nonce_len t))).
  eexists. split; [reflexivity|].
  unfold ShareProofVry. erewrite bind_Ok by exact R3.
  rewrite R4.
  match goal with
  | |- (Ok ?b, _) = _ => enough (Hb : b = true) by (rewrite Hb; reflexivity)
  end.
  apply Z.eqb_eq. unfold c at 1. do 2 f_equal.
  assert (E1 : pt (response v1 c vri * 1 + c * vri) = pt (v1 * 1)).
  { replace (response v1 c vri * 1 + c * vri)
      with (response v1 c vri * 1 + c * vri * 1 + 0) by ring.
    rewrite pt_response. f_equal. ring. }
  assert (E2 : pt (response v2 c sk * 1 + c * sk) = pt (v2 * 1)).
  { replace (response v2 c sk * 1 + c * sk)
      with (response v2 c sk * 1 + c * sk * 1 + 0) by ring.
    rewrite pt_response. f_equal. ring. }
  assert (E3 : pt (response v1 c vri * q + response v2 c sk * - r
                   + c * (vri * q - sk * r)) = pt (v1 * q + v2 * - r)).
  { replace (response v1 c vri * q + response v2 c sk * - r
             + c * (vri * q - sk * r))
      with (response v1 c vri * q + c * vri * q
            + (response v2 c sk * - r + c * sk * - r)) by ring.
    rewrite pt_response.
    replace (v1 * q + (response v2 c sk * - r + c * sk * - r))
      with (response v2 c sk * - r + c * sk * - r + v1 * q) by ring.
    rewrite pt_response. f_equal. ring. }
  by rewrite E1, E2, E3.
Qed.

End Exec.

(** ** Runs from an arbitrary state *)

Lemma bind_Err {A B} (m : M A) (f : A -> M B) (s s' : state) (e : error) :
  m s = (Err e, s') -> bind m f s = (Err e, s').
Proof. unfold bind. intros ->. reflexivity. Qed.

Lemma bind_Panic {A B} (m : M A) (f : A -> M B) (s s' : state) (p : panic) :
  m s = (Panic p, s') -> bind m f s = (Panic p, s').
Proof. unfold bind. intros ->. reflexivity. Qed.

Lemma bind_load_None {B} (x : bigInt) (f : Z -> M B) (h : list Z)
    (t : list byte) :
  deref h x = None ->
  bind (load x) f (State h t) = (Panic NilDereference, State h t).
Proof. unfold bind, load. cbn. intros ->. reflexivity. Qed.

Lemma bind_throw {A B} (p : panic) (f : A -> M B) (s : state) :
  bind (throw p) f s = (Panic p, s).
Proof. reflexivity. Qed.

Section AnyState.

Context {curve : elliptic.Curve}.

Local Abbreviation N := (elliptic.N elliptic.Params).

(** [randFieldElement] from any state: a new scalar and the heap grown by
    two cells, or an error, or a panic. *)
Lemma randFieldElement_cases (h : list Z) (t : list byte) :
  (exists v w t',
     randFieldElement (State h t) = (Ok (length h), State (h ++ [v; w]) t'))
  \/ (exists e s', randFieldElement (State h t) = (Err e, s'))
  \/ (exists p s', randFieldElement (State h t) = (Panic p, s')).
Proof.
  unfold randFieldElement.
  destruct (Z.ltb_spec (Z.quot (elliptic.BitSize elliptic.Params) 8 + 8) 0).
  { right. right. by eexists _, _. }
  set (n := Z.to_nat _).
  destruct (decide (n <= length t)%nat) as [Hn|Hn].
  - rewrite bind_ReadFull by exact Hn.
    unfold Int_SetBytes, new_Int, Int_Sub, Int_Mod, Int_Add, params_N, one.
    repeat mstep.
    destruct (Z.eqb_spec (N - 1) 0).
    + right. right. by eexists _, _.
    + repeat mstep. left. by eexists _, _, _.
  - right. left. unfold bind, ReadFull. cbn [tape heap].
    destruct (decide _); [done|]. destruct t; by eexists _, _.
Qed.

End AnyState.

(** One more step of a run in which a pointer may lead nowhere. *)
Ltac stop := first [ reflexivity | by intros [=] ].

Ltac load_case :=
  match goal with
  | |- context [ bind (load ?x) _ (State ?h ?t) ] =>
      let E := fresh "E" in
      destruct (deref h x) as [?|] eqn:E;
      [ repeat (erewrite (bind_load x _ _ h t) by exact E)
      | rewrite !(bind_load_None x _ h t E); stop ];
      clear E
  end.

Ltac rfe_case :=
  match goal with
  | |- context [ bind randFieldElement _ (State ?h ?t) ] =>
      let E := fresh "E" in
      destruct (randFieldElement_cases h t)
        as [(?v & ?w & ?t' & E)|[(?e & ?s' & E)|(?p & ?s' & E)]];
      [ repeat (erewrite (bind_Ok randFieldElement _ (State h t)) by exact E)
      | repeat (erewrite (bind_Err randFieldElement _ (State h t)) by exact E);
        stop
      | repeat (erewrite (bind_Panic randFieldElement _ (State h t)) by exact E);
        stop ];
      clear E
  end.

Ltac challenge_case :=
  match goal with
  | |- context [ bind (challenge ?m) _ _ ] =>
      unfold challenge;
      destruct (decide (32 <= length (sm3.Sum m))%nat);
      [ unfold Int_SetBytes | rewrite !bind_throw; stop ]
  end.

Ltac mod_case :=
  match goal with
  | |- context [ if ?n =? 0 then throw DivisionByZero else _ ] =>
      destruct (Z.eqb_spec n 0); [ rewrite ?bind_throw; stop | ]
  end.

Ltac norm_app :=
  rewrite <- ?app_assoc, ?length_app; norm_heap; rewrite <- ?Nat.add_assoc;
  cbn [Nat.add].

Ltac run_any :=
  repeat first [ mstep | load_case | mod_case ].

Section ProofRange.

Context {curve : elliptic.Curve} {hash : sm3.Hash}.

Local Abbreviation N := (elliptic.N elliptic.Params).

Ltac finish_range HN :=
  intros [= <- <-]; unfold proof_below; cbn [fst snd heap];
  eexists _, _, _;
  split; [solve_deref|]; split; [solve_deref|]; split; [solve_deref|];
  rewrite ?Z.abs_eq by lia;
  split; [apply challenge_value_range|];
  split; apply Z.mod_pos_bound; exact HN.

Lemma ProofGen_range (y1 y2 : bigInt) (B Y1 Y2 A1 A2 A : CurvePoint)
    (h : list Z) (t : list byte) (pf : bigInt * bigInt * bigInt) (s' : state) :
  0 < N ->
  ProofGen y1 y2 B Y1 Y2 A1 A2 A (State h t) = (Ok pf, s') ->
  proof_below (2 ^ 256) (heap s') pf.
Proof.
  intros HN. unfold ProofGen. rewrite (app_nil_heap h).
  rfe_case. norm_app. rfe_case. norm_app.
  unfold sm3_Write. unfold_ops. run_any.
  challenge_case. run_any. finish_range HN.
Qed.

Lemma ProofGenNoB_range (y1 y2 : bigInt) (Y1 Y2 A1 A2 A : CurvePoint)
    (h : list Z) (t : list byte) (pf : bigInt * bigInt * bigInt) (s' : state) :
  0 < N ->
  ProofGenNoB y1 y2 Y1 Y2 A1 A2 A (State h t) = (Ok pf, s') ->
  proof_below (2 ^ 256) (heap s') pf.
Proof.
  intros HN. unfold ProofGenNoB. rewrite (app_nil_heap h).
  rfe_case. norm_app. rfe_case. norm_app.
  unfold sm3_Write. unfold_ops. run_any.
  challenge_case. run_any. finish_range HN.
Qed.

Lemma ShareProofGen_range (ri : bigInt) (priv : PrivateKey)
    (share : CipherText) (Q : PublicKey) (rB : CurvePoint)
    (h : list Z) (t : list byte) (pf : bigInt * bigInt * bigInt) (s' : state) :
  0 < N ->
  ShareProofGen ri priv share Q rB (State h t) = (Ok pf, s') ->
  proof_below (2 ^ 256) (heap s') pf.
Proof.
  intros HN. unfold ShareProofGen, neg_copy. unfold_ops. run_any.
  by apply ProofGen_range.
Qed.

Lemma ShareProofGenNoB_range (ri : bigInt) (priv : PrivateKey)
    (share : CipherText) (Q : PublicKey) (rB : CurvePoint)
    (h : list Z) (t : list byte) (pf : bigInt * bigInt * bigInt) (s' : state) :
  0 < N ->
  ShareProofGenNoB ri priv share Q rB (State h t) = (Ok pf, s') ->
  proof_below (2 ^ 256) (heap s') pf.
Proof.
  intros HN. unfold ShareProofGenNoB, neg_copy. unfold_ops. run_any.
  by apply ProofGenNoB_range.
Qed.

(** C5, as the code has it.  In every proof (c, r1, r2) that [ProofGen],
    [ProofGenNoB], [ShareProofGen] or [ShareProofGenNoB] returns, the
    responses r1 and r2 are in [0, N), and the challenge c is the 256-bit
    integer of the digest, in [0, 2^256): it is not reduced mod N. *)
Theorem proof_components_range (h : list Z) (t : list byte)
    (pf : bigInt * bigInt * bigInt) (s' : state) :
  0 < N ->
  (exists y1 y2 B Y1 Y2 A1 A2 A,
     ProofGen y1 y2 B Y1 Y2 A1 A2 A (State h t) = (Ok pf, s'))
  \/ (exists y1 y2 Y1 Y2 A1 A2 A,
        ProofGenNoB y1 y2 Y1 Y2 A1 A2 A (State h t) = (Ok pf, s'))
  \/ (exists ri priv share Q rB,
        ShareProofGen ri priv share Q rB (State h t) = (Ok pf, s'))
  \/ (exists ri priv share Q rB,
        ShareProofGenNoB ri priv share Q rB (State h t) = (Ok pf, s')) ->
  proof_below (2 ^ 256) (heap s') pf.
Proof.
  intros HN [H|[H|[H|H]]].
  - destruct H as (? & ? & ? & ? & ? & ? & ? & ? & H). by eapply ProofGen_range.
  - destruct H as (? & ? & ? & ? & ? & ? & ? & H). by eapply ProofGenNoB_range.
  - destruct H as (? & ? & ? & ? & ? & H). by eapply ShareProofGen_range.
  - destruct H as (? & ? & ? & ? & ? & H). by eapply ShareProofGenNoB_range.
Qed.

End ProofRange.

(** *** The variants without B *)

Section NoB.

Context {curve : elliptic.Curve} {laws : CurveLaws} {hash : sm3.Hash}.

(** A run that keeps what it learns about the pointers, for the other
    side of an equation to use. *)
Ltac stop_both :=
  repeat first [ mstep | rewrite bind_load_None by eassumption
               | rewrite ScalarMult_base ];
  reflexivity.

Ltac load_both :=
  match goal with
  | |- context [ bind (load ?x) _ (State ?h ?t) ] =>
      let E := fresh "E" in
      destruct (deref h x) as [?|] eqn:E;
      [ repeat (erewrite (bind_load x _ _ h t) by exact E)
      | repeat (rewrite (bind_load_None x _ h t E)); stop_both ]
  end.

Ltac challenge_both :=
  match goal with
  | |- context [ bind (challenge ?m) _ _ ] =>
      unfold challenge;
      destruct (decide (32 <= length (sm3.Sum m))%nat);
      [ unfold Int_SetBytes | rewrite !bind_throw; reflexivity ]
  end.

Ltac mod_both :=
  match goal with
  | |- context [ if ?n =? 0 then throw DivisionByZero else _ ] =>
      destruct (Z.eqb_spec n 0); [ rewrite ?bind_throw; reflexivity | ]
  end.

Ltac run_both :=
  repeat first [ mstep | rewrite ScalarMult_base | load_both | mod_both ].

Lemma ProofGenNoB_ProofGen (y1 y2 : bigInt) (B Y1 Y2 A1 A2 A : CurvePoint)
    (h : list Z) (t : list byte) :
  holds h B (elliptic.Gx elliptic.Params, elliptic.Gy elliptic.Params) ->
  ProofGenNoB y1 y2 Y1 Y2 A1 A2 A (State h t)
  = ProofGen y1 y2 B Y1 Y2 A1 A2 A (State h t).
Proof.
  intros [HBx HBy]. cbn [fst snd] in *.
  unfold ProofGenNoB, ProofGen. rewrite (app_nil_heap h).
  rfe_case. norm_app. rfe_case. norm_app.
  unfold sm3_Write. unfold_ops. run_both.
  challenge_both. run_both. reflexivity.
Qed.

Lemma ProofVrfNoB_ProofVrf (c r1 r2 : bigInt) (B Y1 Y2 A1 A2 A : CurvePoint)
    (h : list Z) (t : list byte) :
  holds h B (elliptic.Gx elliptic.Params, elliptic.Gy elliptic.Params) ->
  ProofVrfNoB c r1 r2 Y1 Y2 A1 A2 A (State h t)
  = ProofVrf c r1 r2 B Y1 Y2 A1 A2 A (State h t).
Proof.
  intros [HBx HBy]. cbn [fst snd] in *.
  unfold ProofVrfNoB, ProofVrf. rewrite (app_nil_heap h).
  unfold sm3_Write. unfold_ops. run_both.
  challenge_both. run_both. reflexivity.
Qed.

(** C9.  The variants without B are the variants with B at the base
    point: when the point [B] given to [ProofGen] and [ProofVrf] has the
    coordinates of the base point of the curve, [ProofGenNoB] returns
    from every state (so with the same nonces read) what [ProofGen]
    returns, and [ProofVrfNoB] what [ProofVrf] returns: the same outcome
    and the same heap, so the same proof and the same boolean. *)
Theorem NoB_equivalence (B : CurvePoint) (h : list Z) (t : list byte) :
  holds h B (elliptic.Gx elliptic.Params, elliptic.Gy elliptic.Params) ->
  (forall y1 y2 Y1 Y2 A1 A2 A,
     ProofGenNoB y1 y2 Y1 Y2 A1 A2 A (State h t)
     = ProofGen y1 y2 B Y1 Y2 A1 A2 A (State h t))
  /\ (forall c r1 r2 Y1 Y2 A1 A2 A,
        ProofVrfNoB c r1 r2 Y1 Y2 A1 A2 A (State h t)
        = ProofVrf c r1 r2 B Y1 Y2 A1 A2 A (State h t)).
Proof.
  intros HB. split; intros.
  - by apply ProofGenNoB_ProofGen.
  - by apply ProofVrfNoB_ProofVrf.
Qed.

End NoB.

(** ** The frame of the operations *)

Lemma frame_ret {A} (n : nat) (a : A) (Q : A -> Prop) :
  Q a -> frame n (ret a) Q.
Proof. intros HQ s Hs. cbn. repeat split; [done|]. by intros ? [= <-]. Qed.

Lemma frame_throw {A} (n : nat) (p : panic) (Q : A -> Prop) :
  frame n (throw p) Q.
Proof. intros s Hs. cbn. repeat split; done. Qed.

Lemma frame_bind {A B} (n : nat) (m : M A) (f : A -> M B) (Q : A -> Prop)
    (R : B -> Prop) :
  frame n m Q -> (forall a, Q a -> frame n (f a) R) -> frame n (bind m f) R.
Proof.
  intros Hm Hf s Hs. destruct (Hm s Hs) as (Ht & Hl & HQ).
  unfold bind. destruct (m s) as [[a|e|p] s1]; cbn in *; [|done|done].
  destruct (Hf a (HQ a eq_refl) s1 Hl) as (Ht' & Hl' & HR).
  split; [congruence|]. by split.
Qed.

Lemma frame_weaken {A} (n : nat) (m : M A) (Q Q' : A -> Prop) :
  frame n m Q -> (forall a, Q a -> Q' a) -> frame n m Q'.
Proof.
  intros Hm HQ s Hs. destruct (Hm s Hs) as (Ht & Hl & H). repeat split; auto.
Qed.

Lemma frame_load (n : nat) (x : bigInt) : frame n (load x) (fun _ => True).
Proof.
  intros s Hs. unfold load. destruct (deref (heap s) x); cbn; repeat split; done.
Qed.

Lemma frame_alloc (n : nat) (v : Z) : frame n (alloc v) (fun l => (n <= l)%nat).
Proof.
  intros s Hs. unfold alloc. cbn. split; [|split].
  - by rewrite take_app_le.
  - rewrite length_app. lia.
  - by intros ? [= <-].
Qed.

Lemma frame_store (n l : nat) (v : Z) :
  (n <= l)%nat -> frame n (store l v) (fun _ => True).
Proof.
  intros Hl s Hs. unfold store. destruct (decide _); cbn; [|done].
  rewrite take_insert_ge by lia. rewrite length_insert. done.
Qed.

Lemma frame_ReadFull (n k : nat) : frame n (ReadFull k) (fun _ => True).
Proof.
  intros s Hs. unfold ReadFull. destruct (decide _); cbn; [done|].
  destruct (tape s); cbn; done.
Qed.

(** The calls of math/big: a receiver among the new big.Int. *)

Ltac frame_step :=
  match goal with
  | |- frame _ (bind _ _) _ => eapply frame_bind; [|intros ? ?]
  | |- frame _ (ret _) _ => apply frame_ret
  | |- frame _ (throw _) _ => apply frame_throw
  | |- frame _ (load _) _ => apply frame_load
  | |- frame _ (alloc _) _ => apply frame_alloc
  | |- frame _ (store _ _) _ => apply frame_store
  | |- frame _ (ReadFull _) _ => apply frame_ReadFull
  | |- frame _ (if ?b then _ else _) _ => destruct b
  | |- frame _ (let (_, _) := ?p in _) _ => destruct p
  | H : _ /\ _ |- _ => destruct H
  | |- (_ <= _)%nat => cbn [fst snd] in *; lia
  | |- True => exact I
  | |- _ /\ _ => split
  end.

Lemma frame_new_Int (n : nat) : frame n new_Int (fun l => (n <= l)%nat).
Proof. apply frame_alloc. Qed.

Lemma frame_Int_Set (n z : nat) (x : bigInt) :
  (n <= z)%nat -> frame n (Int_Set z x) (fun l => (n <= l)%nat).
Proof. intros Hz. unfold Int_Set. repeat frame_step. Qed.

Lemma frame_Int_Neg (n z : nat) (x : bigInt) :
  (n <= z)%nat -> frame n (Int_Neg z x) (fun l => (n <= l)%nat).
Proof. intros Hz. unfold Int_Neg. repeat frame_step. Qed.

Lemma frame_Int_Mod (n z : nat) (x m : bigInt) :
  (n <= z)%nat -> frame n (Int_Mod z x m) (fun l => (n <= l)%nat).
Proof. intros Hz. unfold Int_Mod. repeat frame_step. Qed.

Lemma frame_Int_Add (n z : nat) (x y : bigInt) :
  (n <= z)%nat -> frame n (Int_Add z x y) (fun l => (n <= l)%nat).
Proof. intros Hz. unfold Int_Add. repeat frame_step. Qed.

Lemma frame_Int_Sub (n z : nat) (x y : bigInt) :
  (n <= z)%nat -> frame n (Int_Sub z x y) (fun l => (n <= l)%nat).
Proof. intros Hz. unfold Int_Sub. repeat frame_step. Qed.

Lemma frame_Int_Mul (n z : nat) (x y : bigInt) :
  (n <= z)%nat -> frame n (Int_Mul z x y) (fun l => (n <= l)%nat).
Proof. intros Hz. unfold Int_Mul. repeat frame_step. Qed.

Lemma frame_Int_Bytes (n : nat) (x : bigInt) :
  frame n (Int_Bytes x) (fun _ => True).
Proof. unfold Int_Bytes. repeat frame_step. Qed.

Lemma frame_Int_Cmp (n : nat) (x y : bigInt) :
  frame n (Int_Cmp x y) (fun _ => True).
Proof. unfold Int_Cmp. repeat frame_step. Qed.

Lemma frame_Int_SetBytes (n : nat) (b : list byte) :
  frame n (Int_SetBytes b) (fun l => (n <= l)%nat).
Proof. apply frame_alloc. Qed.

Section Frame.

Context {curve : elliptic.Curve} {hash : sm3.Hash}.

Ltac frame_call :=
  first
    [ frame_step
    | apply frame_new_Int
    | apply frame_Int_SetBytes
    | apply frame_Int_Bytes
    | apply frame_Int_Cmp
    | apply frame_Int_Set
    | apply frame_Int_Neg
    | apply frame_Int_Mod
    | apply frame_Int_Add
    | apply frame_Int_Sub
    | apply frame_Int_Mul ].

Lemma frame_alloc_point (n : nat) (xy : Z * Z) :
  frame n (alloc_point xy) (fresh2 n).
Proof. unfold alloc_point, fresh2. repeat frame_call. Qed.

Lemma frame_curve_Add (n : nat) (x1 y1 x2 y2 : bigInt) :
  frame n (curve_Add x1 y1 x2 y2) (fresh2 n).
Proof. unfold curve_Add. repeat frame_call. apply frame_alloc_point. Qed.

Lemma frame_curve_ScalarMult (n : nat) (x y : bigInt) (k : list byte) :
  frame n (curve_ScalarMult x y k) (fresh2 n).
Proof. unfold curve_ScalarMult. repeat frame_call. apply frame_alloc_point. Qed.

Lemma frame_curve_ScalarBaseMult (n : nat) (k : list byte) :
  frame n (curve_ScalarBaseMult k) (fresh2 n).
Proof. apply frame_alloc_point. Qed.

Lemma frame_randFieldElement (n : nat) :
  frame n randFieldElement (fun l => (n <= l)%nat).
Proof. unfold randFieldElement. repeat frame_call. Qed.

Ltac frame_pkg :=
  repeat first
    [ frame_call
    | apply frame_curve_Add
    | apply frame_curve_ScalarMult
    | apply frame_curve_ScalarBaseMult
    | apply frame_randFieldElement
    | match goal with H : fresh2 _ _ |- _ => destruct H end ].

Lemma frame_PointEncrypt (n : nat) (pub : PublicKey) (Dp : CurvePoint) :
  frame n (PointEncrypt pub Dp) (fun _ => True).
Proof. unfold PointEncrypt. frame_pkg. Qed.

Lemma frame_PointDecrypt (n : nat) (ct : CipherText) (priv : PrivateKey) :
  frame n (PointDecrypt ct priv) (fun _ => True).
Proof. unfold PointDecrypt. frame_pkg. Qed.

Lemma frame_Plain_PointDecrypt (n : nat) (ct : CipherText) (priv : PrivateKey) :
  frame n (Plain.PointDecrypt ct priv) (fun _ => True).
Proof. unfold Plain.PointDecrypt. frame_pkg. Qed.

Lemma frame_ShareCal (n : nat) (Q : PublicKey) (rB : CurvePoint)
    (priv : PrivateKey) :
  frame n (ShareCal Q rB priv) (fun _ => True).
Proof. unfold ShareCal. frame_pkg. Qed.

Lemma frame_Plain_ShareCal (n : nat) (Q : PublicKey) (rB : CurvePoint)
    (priv : PrivateKey) :
  frame n (Plain.ShareCal Q rB priv) (fun _ => True).
Proof. unfold Plain.ShareCal. frame_pkg. Qed.

Lemma frame_ShareReplace_loop (n : nat) (shares : list CipherText) :
  forall sigma, frame n (ShareReplace_loop sigma shares) (fun _ => True).
Proof.
  induction shares as [|share shares IH]; intros sigma; cbn [ShareReplace_loop].
  - frame_pkg.
  - frame_pkg. apply IH.
Qed.

Lemma frame_ShareReplace (n : nat) (shares : CipherVector) (rct : CipherText) :
  frame n (ShareReplace shares rct) (fun _ => True).
Proof.
  unfold ShareReplace. destruct shares; [apply frame_throw|].
  eapply frame_bind; [apply frame_ShareReplace_loop|]. intros ? _. frame_pkg.
Qed.

Lemma frame_CollPubKey_loop (n : nat) (pubs : list PublicKey) :
  forall acc, frame n (CollPubKey_loop acc pubs) (fun _ => True).
Proof.
  induction pubs as [|pub pubs IH]; intros acc; cbn [CollPubKey_loop].
  - frame_pkg.
  - frame_pkg. apply IH.
Qed.

Lemma frame_CollPubKey (n : nat) (pubs : list PublicKey) :
  frame n (CollPubKey pubs) (fun _ => True).
Proof.
  unfold CollPubKey. destruct pubs; [apply frame_throw|].
  apply frame_CollPubKey_loop.
Qed.

Lemma frame_CollPrivKey_loop (n collPriv : nat) (privs : list PrivateKey) :
  (n <= collPriv)%nat ->
  frame n (CollPrivKey_loop collPriv privs) (fun _ => True).
Proof.
  intros Hc. induction privs as [|priv privs IH]; cbn [CollPrivKey_loop].
  - frame_pkg.
  - eapply frame_bind; [by apply frame_Int_Add|]. intros _ _.
    eapply frame_bind; [apply frame_Int_Cmp|]. intros cmp _.
    apply frame_bind with (Q := fun _ => True); [|intros _ _; apply IH].
    destruct (cmp >=? 0); frame_pkg.
Qed.

Lemma frame_CollPrivKey (n : nat) (privs : list PrivateKey) :
  frame n (CollPrivKey privs) (fun _ => True).
Proof.
  unfold CollPrivKey. destruct privs; [apply frame_throw|].
  eapply frame_bind; [apply frame_alloc|]. intros collPriv Hc.
  eapply frame_bind; [by apply frame_CollPrivKey_loop|]. intros _ _. frame_pkg.
Qed.

Lemma frame_sm3_Write (n : nat) (h : list byte) (x : bigInt) :
  frame n (sm3_Write h x) (fun _ => True).
Proof. unfold sm3_Write. frame_pkg. Qed.

Lemma frame_challenge (n : nat) (h : list byte) :
  frame n (challenge h) (fun l => (n <= l)%nat).
Proof. unfold challenge. frame_pkg. Qed.

Ltac frame_proof :=
  repeat first
    [ frame_call
    | apply frame_curve_Add
    | apply frame_curve_ScalarMult
    | apply frame_curve_ScalarBaseMult
    | apply frame_randFieldElement
    | apply frame_sm3_Write
    | apply frame_challenge
    | match goal with H : fresh2 _ _ |- _ => destruct H end ].

Lemma frame_ProofGen (n : nat) (y1 y2 : bigInt) (B Y1 Y2 A1 A2 A : CurvePoint) :
  frame n (ProofGen y1 y2 B Y1 Y2 A1 A2 A) (fun _ => True).
Proof. unfold ProofGen. frame_proof. Qed.

Lemma frame_ProofGenNoB (n : nat) (y1 y2 : bigInt) (Y1 Y2 A1 A2 A : CurvePoint) :
  frame n (ProofGenNoB y1 y2 Y1 Y2 A1 A2 A) (fun _ => True).
Proof. unfold ProofGenNoB. frame_proof. Qed.

Lemma frame_ProofVrf (n : nat) (c r1 r2 : bigInt)
    (B Y1 Y2 A1 A2 A : CurvePoint) :
  frame n (ProofVrf c r1 r2 B Y1 Y2 A1 A2 A) (fun _ => True).
Proof. unfold ProofVrf. frame_proof. Qed.

Lemma frame_ProofVrfNoB (n : nat) (c r1 r2 : bigInt)
    (Y1 Y2 A1 A2 A : CurvePoint) :
  frame n (ProofVrfNoB c r1 r2 Y1 Y2 A1 A2 A) (fun _ => True).
Proof. unfold ProofVrfNoB. frame_proof. Qed.

Lemma frame_neg_copy (n : nat) (rB : CurvePoint) :
  frame n (neg_copy rB) (fun _ => True).
Proof. unfold neg_copy. frame_proof. Qed.

Lemma frame_ShareProofGen (n : nat) (ri : bigInt) (priv : PrivateKey)
    (share : CipherText) (Q : PublicKey) (rB : CurvePoint) :
  frame n (ShareProofGen ri priv share Q rB) (fun _ => True).
Proof.
  unfold ShareProofGen. eapply frame_bind; [apply frame_neg_copy|].
  intros ? _. apply frame_ProofGen.
Qed.

Lemma frame_ShareProofGenNoB (n : nat) (ri : bigInt) (priv : PrivateKey)
    (share : CipherText) (Q : PublicKey) (rB : CurvePoint) :
  frame n (ShareProofGenNoB ri priv share Q rB) (fun _ => True).
Proof.
  unfold ShareProofGenNoB. eapply frame_bind; [apply frame_neg_copy|].
  intros ? _. apply frame_ProofGenNoB.
Qed.

Lemma frame_ShareProofVry (n : nat) (c r1 r2 : bigInt) (share : CipherText)
    (nodePubKey Q : PublicKey) (rB : CurvePoint) :
  frame n (ShareProofVry c r1 r2 share nodePubKey Q rB) (fun _ => True).
Proof.
  unfold ShareProofVry. eapply frame_bind; [apply frame_neg_copy|].
  intros ? _. apply frame_ProofVrf.
Qed.

Lemma frame_ShareProofVryNoB (n : nat) (c r1 r2 : bigInt) (share : CipherText)
    (nodePubKey Q : PublicKey) (rB : CurvePoint) :
  frame n (ShareProofVryNoB c r1 r2 share nodePubKey Q rB) (fun _ => True).
Proof.
  unfold ShareProofVryNoB. eapply frame_bind; [apply frame_neg_copy|].
  intros ? _. apply frame_ProofVrfNoB.
Qed.

Lemma frame_preserved {A} (m : M A) (Q : A -> Prop) (s : state) :
  frame (length (heap s)) m Q -> preserved s (snd (m s)).
Proof.
  intros Hm. destruct (Hm s (le_n _)) as (Ht & Hl & _).
  intros [l|w] v; cbn; [|done]. intros Hv.
  rewrite firstn_all in Ht.
  rewrite <- (take_drop (length (heap s)) (heap (snd (m s)))), Ht.
  by apply lookup_app_l_Some.
Qed.

(** C10.  No operation changes what its arguments point to: from any
    state and for any arguments, after [PointEncrypt], [PointDecrypt],
    [ShareCal] (of either file), [ShareReplace], [ShareProofGen] and
    [ShareProofVry] (with or without B), whatever the outcome, every
    pointer that led to a big.Int before the call leads to the same value
    after it.  The in-place negations and reductions write to big.Int
    that the call made itself; the aggregation sets the fields of a copy
    of the first share. *)
Theorem arguments_preserved (s : state) :
  (forall pub Dp, preserved s (snd (PointEncrypt pub Dp s)))
  /\ (forall ct priv, preserved s (snd (PointDecrypt ct priv s)))
  /\ (forall ct priv, preserved s (snd (Plain.PointDecrypt ct priv s)))
  /\ (forall Q rB priv, preserved s (snd (ShareCal Q rB priv s)))
  /\ (forall Q rB priv, preserved s (snd (Plain.ShareCal Q rB priv s)))
  /\ (forall shares rct, preserved s (snd (ShareReplace shares rct s)))
  /\ (forall ri priv share Q rB,
        preserved s (snd (ShareProofGen ri priv share Q rB s)))
  /\ (forall ri priv share Q rB,
        preserved s (snd (ShareProofGenNoB ri priv share Q rB s)))
  /\ (forall c r1 r2 share nodePubKey Q rB,
        preserved s (snd (ShareProofVry c r1 r2 share nodePubKey Q rB s)))
  /\ (forall c r1 r2 share nodePubKey Q rB,
        preserved s (snd (ShareProofVryNoB c r1 r2 share nodePubKey Q rB s))).
Proof.
  repeat split; intros; eapply frame_preserved.
  - apply frame_PointEncrypt.
  - apply frame_PointDecrypt.
  - apply frame_Plain_PointDecrypt.
  - apply frame_ShareCal.
  - apply frame_Plain_ShareCal.
  - apply frame_ShareReplace.
  - apply frame_ShareProofGen.
  - apply frame_ShareProofGenNoB.
  - apply frame_ShareProofVry.
  - apply frame_ShareProofVryNoB.
Qed.

End Frame.

(** The model does see a write through an argument: negating a big.Int
    in place, as the statement [priv.D.Neg(priv.D)] of the commented-out
    decryption would, changes what the pointer leads to. *)
Example in_place_Neg_is_seen :
  ~ preserved (State [5] []) (snd (Int_Neg 0 (cell 0%nat) (State [5] []))).
Proof. intros H. specialize (H (cell 0%nat) 5 eq_refl). discriminate H. Qed.

Section Sampling.

Context {curve : elliptic.Curve}.

Local Abbreviation N := (elliptic.N elliptic.Params).
Local Abbreviation BitSize := (elliptic.BitSize elliptic.Params).

(** C7.  [randFieldElement] reads [BitSize/8 + 8] bytes (40 when
    [BitSize] is 256, as for SM2); when the reader delivers them, it
    returns the scalar [(t mod (N-1)) + 1] for the big-endian integer [t]
    of these bytes, which is in [1, N-1]; it returns an error exactly
    when the reader does not have that many bytes, and it never panics. *)
Theorem randFieldElement_scalar (h : list Z) (t : list byte) :
  0 <= BitSize -> 1 < N ->
  let len := Z.to_nat (Z.quot BitSize 8 + 8) in
  let k := SetBytes (take len t) mod (N - 1) + 1 in
  ((len <= length t)%nat ->
     exists l s',
       randFieldElement (State h t) = (Ok l, s')
       /\ deref (heap s') (cell l) = Some k
       /\ tape s' = drop len t
       /\ 1 <= k <= N - 1)
  /\ ((length t < len)%nat ->
        exists e s', randFieldElement (State h t) = (Err e, s'))
  /\ (forall e s', randFieldElement (State h t) = (Err e, s') ->
        (length t < len)%nat)
  /\ (forall p s', randFieldElement (State h t) <> (Panic p, s'))
  /\ (BitSize = 256 -> len = 40%nat).
Proof.
  intros HB HN len k.
  assert (Hq : 0 <= Z.quot BitSize 8) by (apply Z.quot_pos; lia).
  assert (Hok : (len <= length t)%nat ->
            randFieldElement (State h t)
            = (Ok (length h), State (h ++ [k; N - 1]) (drop len t))).
  { intros Hlen. unfold randFieldElement.
    destruct (Z.ltb_spec (Z.quot BitSize 8 + 8) 0) as [Hneg|_]; [lia|].
    fold len. rewrite bind_ReadFull by exact Hlen.
    unfold_ops. repeat mstep.
    destruct (Z.eqb_spec (N - 1) 0) as [E|_]; [lia|].
    repeat mstep. rewrite Z.abs_eq by lia. reflexivity. }
  assert (Hshort : (length t < len)%nat ->
            exists e s', randFieldElement (State h t) = (Err e, s')).
  { intros Hlen. unfold randFieldElement.
    destruct (Z.ltb_spec (Z.quot BitSize 8 + 8) 0) as [Hneg|_]; [lia|].
    fold len. unfold bind, ReadFull. cbn [tape heap].
    destruct (decide _); [lia|]. destruct t; by eexists _, _. }
  split; [|split; [|split; [|split]]].
  - intros Hlen. rewrite (Hok Hlen). eexists _, _. split; [reflexivity|].
    cbn [heap tape]. split; [solve_deref|]. split; [reflexivity|].
    unfold k. pose proof (Z.mod_pos_bound (SetBytes (take len t)) (N - 1)). lia.
  - exact Hshort.
  - intros e s' He. destruct (le_lt_dec len (length t)) as [Hlen|Hlen]; [|done].
    rewrite (Hok Hlen) in He. discriminate He.
  - intros p s' Hp. destruct (le_lt_dec len (length t)) as [Hlen|Hlen].
    + rewrite (Hok Hlen) in Hp. discriminate Hp.
    + destruct (Hshort Hlen) as (e & s1 & He). rewrite He in Hp. discriminate Hp.
  - intros E. unfold len. rewrite E. reflexivity.
Qed.

End Sampling.


(** ** The small curve keeps the contract *)
Module ToyLaws.
Import Toy.

Lemma pair_eqb_eq (u v : Z * Z) : pair_eqb u v = true -> u = v.
Proof.
  destruct u, v. unfold pair_eqb. cbn. intros H.
  apply andb_prop in H as [H1 H2]. f_equal; by apply Z.eqb_eq.
Qed.

Lemma residue_In (i : Z) : 0 <= i < 19 -> In i residues.
Proof.
  intros Hi. unfold residues. apply in_map_iff. exists (Z.to_nat i).
  split; [lia|]. apply in_seq. lia.
Qed.

Lemma add_multiple (i j : Z) :
  0 <= i < 19 -> 0 <= j < 19 ->
  add (fst (multiple i)) (snd (multiple i)) (fst (multiple j)) (snd (multiple j))
  = multiple ((i + j) mod 19).
Proof.
  intros Hi Hj.
  assert (H : forallb (fun i => forallb (fun j =>
                pair_eqb (add (fst (multiple i)) (snd (multiple i))
                              (fst (multiple j)) (snd (multiple j)))
                         (multiple ((i + j) mod 19))) residues) residues = true)
    by (vm_compute; reflexivity).
  rewrite forallb_forall in H. specialize (H i (residue_In i Hi)).
  rewrite forallb_forall in H. by apply pair_eqb_eq, H, residue_In.
Qed.

Lemma multiple_reduced (i : Z) :
  0 <= i < 19 ->
  (fst (multiple i) mod p, snd (multiple i) mod p) = multiple i.
Proof.
  intros Hi.
  assert (H : forallb (fun i =>
                pair_eqb (fst (multiple i) mod p, snd (multiple i) mod p)
                         (multiple i)) residues = true)
    by (vm_compute; reflexivity).
  rewrite forallb_forall in H. by apply pair_eqb_eq, H, residue_In.
Qed.

Lemma multiple_neg (i : Z) :
  0 <= i < 19 ->
  multiple ((- i) mod 19) = (fst (multiple i), (- snd (multiple i)) mod p).
Proof.
  intros Hi.
  assert (H : forallb (fun i =>
                pair_eqb (multiple ((- i) mod 19))
                         (fst (multiple i), (- snd (multiple i)) mod p))
                residues = true)
    by (vm_compute; reflexivity).
  rewrite forallb_forall in H. by apply pair_eqb_eq, H, residue_In.
Qed.

Lemma mul_pos_multiple (k : positive) (i : Z) :
  0 <= i < 19 ->
  mul_pos k (fst (multiple i)) (snd (multiple i))
  = multiple ((Z.pos k * i) mod 19).
Proof.
  intros Hi. induction k as [k IH|k IH|]; cbn [mul_pos].
  - rewrite IH, add_multiple by (apply Z.mod_pos_bound; lia).
    rewrite add_multiple by (try apply Z.mod_pos_bound; lia).
    f_equal. rewrite <- Z.add_mod by lia. rewrite Zplus_mod_idemp_l.
    f_equal. lia.
  - rewrite IH, add_multiple by (apply Z.mod_pos_bound; lia).
    f_equal. rewrite <- Z.add_mod by lia. f_equal. lia.
  - rewrite multiple_reduced by lia. f_equal. rewrite Z.mod_small; lia.
Qed.

Lemma mul_multiple (k : list byte) (i : Z) :
  0 <= i < 19 ->
  mul (fst (multiple i)) (snd (multiple i)) k
  = multiple ((SetBytes k * i) mod 19).
Proof.
  intros Hi. unfold mul. pose proof (SetBytes_nonneg k) as Hk.
  destruct (SetBytes k) as [|k'|k']; [reflexivity| |lia].
  by apply mul_pos_multiple.
Qed.

Lemma pt_multiple (k : Z) : pt k = multiple (k mod 19).
Proof.
  unfold pt. cbn [elliptic.ScalarBaseMult elliptic.N elliptic.Params curve].
  change n with 19.
  pose proof (Z.mod_pos_bound k 19 ltac:(lia)) as Hk.
  change (mul 5 1) with (mul (fst (multiple 1)) (snd (multiple 1))).
  rewrite mul_multiple by lia. rewrite SetBytes_Bytes_nonneg by lia.
  f_equal. rewrite Z.mul_1_r. apply Z.mod_mod. lia.
Qed.

#[export] Instance laws : CurveLaws.
Proof.
  split.
  - reflexivity.
  - reflexivity.
  - change (0 <= 5). lia.
  - reflexivity.
  - intros k. rewrite pt_multiple.
    cbn [elliptic.ScalarBaseMult curve].
    change (mul 5 1) with (mul (fst (multiple 1)) (snd (multiple 1))).
    rewrite mul_multiple by lia. f_equal. f_equal. lia.
  - intros a k. rewrite !pt_multiple.
    cbn [elliptic.ScalarMult curve].
    rewrite mul_multiple by (apply Z.mod_pos_bound; lia).
    f_equal. apply Zmult_mod_idemp_r.
  - intros a b. rewrite !pt_multiple. cbn [elliptic.Add curve].
    rewrite add_multiple by (apply Z.mod_pos_bound; lia).
    f_equal. symmetry. apply Z.add_mod. lia.
  - intros a. rewrite !pt_multiple.
    cbn [elliptic.P elliptic.Params curve].
    rewrite <- multiple_neg by (apply Z.mod_pos_bound; lia).
    f_equal. rewrite <- (Z.sub_0_l a), <- (Z.sub_0_l (a mod 19)).
    symmetry. apply Zminus_mod_idemp_r.
Qed.

#[export] Instance reduces : AddReduces.
Proof.
  split; intros; cbn [elliptic.Add elliptic.P elliptic.Params curve];
    unfold add; by rewrite Z.mod_mod by (unfold p; lia).
Qed.


End ToyLaws.

(** ** SM3 has 32 bytes *)
Module SM3Laws.
Import SM3.

Lemma length_round (W V : list Z) (j : Z) :
  length V = 8%nat -> length (round W V j) = 8%nat.
Proof.
  intros HV. do 9 (destruct V as [|? V]; try discriminate HV). reflexivity.
Qed.

Lemma length_rounds (W : list Z) (js : list Z) :
  forall V, length V = 8%nat -> length (fold_left (round W) js V) = 8%nat.
Proof.
  induction js as [|j js IH]; intros V HV; cbn [fold_left]; [done|].
  by apply IH, length_round.
Qed.

Lemma length_compress (V block : list Z) :
  length V = 8%nat -> length (compress V block) = 8%nat.
Proof.
  intros HV. unfold compress.
  rewrite length_map, length_combine, length_rounds by done. lia.
Qed.

Lemma length_blocks (fuel : nat) :
  forall V ws, length V = 8%nat -> length (blocks fuel V ws) = 8%nat.
Proof.
  induction fuel as [|f IH]; intros V ws HV; cbn [blocks]; [done|].
  destruct ws; [done|]. by apply IH, length_compress.
Qed.

Lemma length_Sum (msg : list byte) : length (Sum msg) = 32%nat.
Proof.
  unfold Sum. set (ws := words _ _).
  pose proof (length_blocks (length ws) IV ws eq_refl) as H.
  destruct (blocks (length ws) IV ws) as [|? V]; [discriminate H|].
  do 8 (destruct V as [|? V]; try discriminate H). reflexivity.
Qed.

#[export] Instance laws : HashLaws.
Proof. split. intros msg. cbn [sm3.Sum hash]. rewrite length_Sum. lia. Qed.

(** The examples of the standard: the digests of "abc" and of 16 times
    "abcd". *)
Example Sum_abc :
  map byte_to_Z (Sum [x61; x62; x63])
  = [0x66; 0xc7; 0xf0; 0xf4; 0x62; 0xee; 0xed; 0xd9;
     0xd1; 0xf2; 0xd4; 0x6b; 0xdc; 0x10; 0xe4; 0xe2;
     0x41; 0x67; 0xc4; 0x87; 0x5c; 0xf2; 0xf7; 0xa2;
     0x29; 0x7d; 0xa0; 0x2b; 0x8f; 0x4b; 0xa8; 0xe0].
Proof. vm_compute. reflexivity. Qed.

Example Sum_abcd16 :
  map byte_to_Z (Sum (concat (repeat [x61; x62; x63; x64] 16)))
  = [0xde; 0xbe; 0x9f; 0xf9; 0x22; 0x75; 0xb8; 0xa1;
     0x38; 0x60; 0x48; 0x89; 0xc1; 0x8e; 0x5a; 0x4d;
     0x6f; 0xdb; 0x70; 0xe5; 0x38; 0x7e; 0x57; 0x65;
     0x29; 0x3d; 0xcb; 0xa3; 0x9c; 0x0c; 0x57; 0x32].
Proof. vm_compute. reflexivity. Qed.

End SM3Laws.

(** ** The plain file

    Its [PointDecrypt] and [ShareCal] hand [Add] a y coordinate that is
    negative and not reduced; they compute what the other file computes
    on a curve whose [Add] takes such a coordinate for its residue. *)

Section PlainFile.

Context {curve : elliptic.Curve} {laws : CurveLaws} {reduces : AddReduces}.

Lemma Plain_PointDecrypt_spec (h : list Z) (t : list byte) (ct : CipherText)
    (priv : PrivateKey) (d r c : Z) :
  deref h (D priv) = Some d -> 0 <= d ->
  holds h (K ct) (pt r) -> holds h (C ct) (pt c) ->
  exists Dp new,
    Plain.PointDecrypt ct priv (State h t) = (Ok Dp, State (h ++ new) t)
    /\ holds (h ++ new) Dp (pt (c - d * r)).
Proof.
  intros Hd Hd0 HK HC. use_holds. unfold Plain.PointDecrypt.
  unfold_ops. run.
  rewrite ScalarMult_Bytes by lia.
  rewrite Add_raw_r, Add_neg_r.
  eexists _, _. split; [reflexivity|]. solve_holds.
Qed.

Lemma Plain_ShareCal_spec (h : list Z) (t : list byte) (Q : PublicKey)
    (rB : CurvePoint) (priv : PrivateKey) (k q r : Z) :
  deref h (D priv) = Some k -> 0 <= k ->
  holds h Q (pt q) -> holds h rB (pt r) -> (nonce_len <= length t)%nat ->
  let ri := field_element (take nonce_len t) in
  exists share new,
    Plain.ShareCal Q rB priv (State h t)
    = (Ok share, State (h ++ new) (drop nonce_len t))
    /\ holds (h ++ new) (K share) (pt ri)
    /\ holds (h ++ new) (C share) (pt (ri * q - k * r)).
Proof.
  intros Hd Hk HQ HrB Hlen ri. use_holds. unfold Plain.ShareCal.
  pose proof (field_element_range (take nonce_len t)) as Hr. fold ri in Hr.
  erewrite bind_Ok by (by apply randFieldElement_run). fold ri.
  unfold_ops. run.
  rewrite ScalarBaseMult_Bytes, !ScalarMult_Bytes by lia.
  rewrite Add_raw_l, Add_neg_l.
  eexists _, _. split; [reflexivity|]. split; solve_holds.
Qed.

(** The round trip of C2 for the decryption of the plain file. *)
Lemma Plain_PointDecrypt_PointEncrypt (h : list Z) (t : list byte)
    (priv : PrivateKey) (Dp : CurvePoint) (sk d : Z) :
  1 <= sk < elliptic.N elliptic.Params ->
  keypair h priv sk ->
  holds h Dp (pt d) ->
  (nonce_len <= length t)%nat ->
  exists ct s1 out s2,
    PointEncrypt (GetPubKey priv) Dp (State h t) = (Ok ct, s1)
    /\ Plain.PointDecrypt ct priv s1 = (Ok out, s2)
    /\ holds (heap s2) out (pt d).
Proof.
  intros Hsk [Hd Hpub] HD Hlen.
  destruct (PointEncrypt_spec h t (GetPubKey priv) Dp sk d Hpub HD Hlen)
    as (ct & new1 & Hrun1 & HK & HC).
  destruct (Plain_PointDecrypt_spec (h ++ new1) (drop nonce_len t) ct priv sk
              _ _ (deref_app_l _ new1 _ _ Hd) ltac:(lia) HK HC)
    as (out & new2 & Hrun2 & Hout).
  eexists _, _, _, _. split; [exact Hrun1|]. split; [exact Hrun2|]. cbn [heap].
  set (r := field_element (take nonce_len t)) in *.
  by replace (r * sk + d - sk * r) with d in Hout by lia.
Qed.

End PlainFile.

(** * Further properties of the code *)

(** ** Entropy: who reads the reader, and what a short reader does *)

Lemma quiet_ret {A} (a : A) : quiet (ret a).
Proof. intros s. by split. Qed.

Lemma quiet_throw {A} (p : panic) : quiet (throw (A := A) p).
Proof. intros s. by split. Qed.

Lemma quiet_bind {A B} (m : M A) (f : A -> M B) :
  quiet m -> (forall a, quiet (f a)) -> quiet (bind m f).
Proof.
  intros Hm Hf s. destruct (Hm s) as [Ht He]. unfold bind.
  destruct (m s) as [[a|e|p] s1]; cbn in *.
  - destruct (Hf a s1) as [Ht' He']. split; [congruence|done].
  - by destruct (He e).
  - by split.
Qed.

Lemma quiet_load (x : bigInt) : quiet (load x).
Proof. intros s. unfold load. destruct (deref _ _); by split. Qed.

Lemma quiet_alloc (v : Z) : quiet (alloc v).
Proof. intros s. by split. Qed.

Lemma quiet_store (l : nat) (v : Z) : quiet (store l v).
Proof. intros s. unfold store. destruct (decide _); by split. Qed.

Ltac quiet_step :=
  match goal with
  | |- quiet (bind _ _) => apply quiet_bind; [|intros ?]
  | |- quiet (ret _) => apply quiet_ret
  | |- quiet (throw _) => apply quiet_throw
  | |- quiet (load _) => apply quiet_load
  | |- quiet (alloc _) => apply quiet_alloc
  | |- quiet (store _ _) => apply quiet_store
  | |- quiet (if ?b then _ else _) => destruct b
  | |- quiet (let (_, _) := ?p in _) => destruct p
  end.

Ltac quiet_ops :=
  unfold sm3_Write, challenge; unfold_ops; repeat quiet_step.

Section Quiet.

Context {curve : elliptic.Curve} {hash : sm3.Hash}.

Lemma quiet_PointDecrypt (ct : CipherText) (priv : PrivateKey) :
  quiet (PointDecrypt ct priv).
Proof. unfold PointDecrypt. quiet_ops. Qed.

Lemma quiet_Plain_PointDecrypt (ct : CipherText) (priv : PrivateKey) :
  quiet (Plain.PointDecrypt ct priv).
Proof. unfold Plain.PointDecrypt. quiet_ops. Qed.

Lemma quiet_ShareReplace_loop (shares : list CipherText) :
  forall sigma, quiet (ShareReplace_loop sigma shares).
Proof.
  induction shares as [|share shares IH]; intros sigma; cbn [ShareReplace_loop].
  - apply quiet_ret.
  - quiet_ops. apply IH.
Qed.

Lemma quiet_ShareReplace (shares : CipherVector) (rct : CipherText) :
  quiet (ShareReplace shares rct).
Proof.
  unfold ShareReplace. destruct shares; [apply quiet_throw|].
  apply quiet_bind; [apply quiet_ShareReplace_loop|]. intros sigma. quiet_ops.
Qed.

Lemma quiet_CollPubKey_loop (pubs : list PublicKey) :
  forall acc, quiet (CollPubKey_loop acc pubs).
Proof.
  induction pubs as [|pub pubs IH]; intros acc; cbn [CollPubKey_loop].
  - apply quiet_ret.
  - quiet_ops. apply IH.
Qed.

Lemma quiet_CollPubKey (pubs : list PublicKey) : quiet (CollPubKey pubs).
Proof.
  unfold CollPubKey. destruct pubs; [apply quiet_throw|].
  apply quiet_CollPubKey_loop.
Qed.

Lemma quiet_CollPrivKey_loop (collPriv : nat) (privs : list PrivateKey) :
  quiet (CollPrivKey_loop collPriv privs).
Proof.
  induction privs as [|priv privs IH]; cbn [CollPrivKey_loop].
  - apply quiet_ret.
  - quiet_ops; apply IH.
Qed.

Lemma quiet_CollPrivKey (privs : list PrivateKey) : quiet (CollPrivKey privs).
Proof.
  unfold CollPrivKey. destruct privs; [apply quiet_throw|].
  apply quiet_bind; [apply quiet_alloc|]. intros collPriv.
  apply quiet_bind; [apply quiet_CollPrivKey_loop|]. intros _. quiet_ops.
Qed.

Lemma quiet_ProofVrf (c r1 r2 : bigInt) (B Y1 Y2 A1 A2 A : CurvePoint) :
  quiet (ProofVrf c r1 r2 B Y1 Y2 A1 A2 A).
Proof. unfold ProofVrf. quiet_ops. Qed.

Lemma quiet_ProofVrfNoB (c r1 r2 : bigInt) (Y1 Y2 A1 A2 A : CurvePoint) :
  quiet (ProofVrfNoB c r1 r2 Y1 Y2 A1 A2 A).
Proof. unfold ProofVrfNoB. quiet_ops. Qed.

Lemma quiet_neg_copy (rB : CurvePoint) : quiet (neg_copy rB).
Proof. unfold neg_copy. quiet_ops. Qed.

Lemma quiet_ShareProofVry (c r1 r2 : bigInt) (share : CipherText)
    (nodePubKey Q : PublicKey) (rB : CurvePoint) :
  quiet (ShareProofVry c r1 r2 share nodePubKey Q rB).
Proof.
  unfold ShareProofVry. apply quiet_bind; [apply quiet_neg_copy|].
  intros A2. apply quiet_ProofVrf.
Qed.

Lemma quiet_ShareProofVryNoB (c r1 r2 : bigInt) (share : CipherText)
    (nodePubKey Q : PublicKey) (rB : CurvePoint) :
  quiet (ShareProofVryNoB c r1 r2 share nodePubKey Q rB).
Proof.
  unfold ShareProofVryNoB. apply quiet_bind; [apply quiet_neg_copy|].
  intros A2. apply quiet_ProofVrfNoB.
Qed.

(** X1.  Decryption, aggregation and verification need no entropy and
    have no error: from any state and for any arguments, [PointDecrypt]
    (of either file), [ShareReplace], [CollPrivKey], [CollPubKey],
    [ProofVrf], [ProofVrfNoB], [ShareProofVry] and [ShareProofVryNoB]
    leave the reader untouched and never return an error: the [error]
    result of those that have one is always nil. *)
Theorem no_entropy_no_error :
  (forall ct priv, quiet (PointDecrypt ct priv))
  /\ (forall ct priv, quiet (Plain.PointDecrypt ct priv))
  /\ (forall shares rct, quiet (ShareReplace shares rct))
  /\ (forall privs, quiet (CollPrivKey privs))
  /\ (forall pubs, quiet (CollPubKey pubs))
  /\ (forall c r1 r2 B Y1 Y2 A1 A2 A, quiet (ProofVrf c r1 r2 B Y1 Y2 A1 A2 A))
  /\ (forall c r1 r2 Y1 Y2 A1 A2 A, quiet (ProofVrfNoB c r1 r2 Y1 Y2 A1 A2 A))
  /\ (forall c r1 r2 share nodePubKey Q rB,
        quiet (ShareProofVry c r1 r2 share nodePubKey Q rB))
  /\ (forall c r1 r2 share nodePubKey Q rB,
        quiet (ShareProofVryNoB c r1 r2 share nodePubKey Q rB)).
Proof.
  repeat split; intros.
  all: first [ apply quiet_PointDecrypt | apply quiet_Plain_PointDecrypt
             | apply quiet_ShareReplace | apply quiet_CollPrivKey
             | apply quiet_CollPubKey | apply quiet_ProofVrf
             | apply quiet_ProofVrfNoB | apply quiet_ShareProofVry
             | apply quiet_ShareProofVryNoB ].
Qed.

(** *** The nonce and a short reader *)

Lemma randFieldElement_Ok_inv (h : list Z) (t : list byte) (k : nat)
    (s' : state) :
  randFieldElement (State h t) = (Ok k, s') ->
  (nonce_len <= length t)%nat
  /\ k = length h
  /\ exists v w, s' = State (h ++ [v; w]) (drop nonce_len t).
Proof.
  unfold randFieldElement, nonce_len.
  destruct (Z.ltb_spec (Z.quot (elliptic.BitSize elliptic.Params) 8 + 8) 0);
    [by intros [=]|].
  set (n := Z.to_nat _).
  destruct (decide (n <= length t)%nat) as [Hn|Hn].
  - rewrite bind_ReadFull by exact Hn. unfold_ops. repeat mstep.
    destruct (Z.eqb_spec (elliptic.N elliptic.Params - 1) 0);
      [by intros [=]|].
    repeat mstep. intros [= <- <-]. split; [done|]. split; [done|].
    by eexists _, _.
  - unfold bind, ReadFull. cbn [tape heap]. destruct (decide _); [done|].
    destruct t; by intros [=].
Qed.

Lemma randFieldElement_Err_inv (h : list Z) (t : list byte) (e : error)
    (s' : state) :
  randFieldElement (State h t) = (Err e, s') ->
  (length t < nonce_len)%nat /\ e = short_read t /\ s' = State h [].
Proof.
  unfold randFieldElement, nonce_len.
  destruct (Z.ltb_spec (Z.quot (elliptic.BitSize elliptic.Params) 8 + 8) 0);
    [by intros [=]|].
  set (n := Z.to_nat _).
  destruct (decide (n <= length t)%nat) as [Hn|Hn].
  - rewrite bind_ReadFull by exact Hn. unfold_ops. repeat mstep.
    destruct (Z.eqb_spec (elliptic.N elliptic.Params - 1) 0);
      [by intros [=]|].
    repeat mstep. by intros [=].
  - unfold bind, ReadFull. cbn [tape heap]. destruct (decide _); [done|].
    destruct t; intros [= <- <-]; (split; [lia|done]).
Qed.

Lemma randFieldElement_short (h : list Z) (t : list byte) :
  0 <= elliptic.BitSize elliptic.Params ->
  (length t < nonce_len)%nat ->
  randFieldElement (State h t) = (Err (short_read t), State h []).
Proof.
  intros HB Hlen. unfold randFieldElement.
  destruct (Z.ltb_spec (Z.quot (elliptic.BitSize elliptic.Params) 8 + 8) 0)
    as [Hneg|_].
  { pose proof (Z.quot_pos (elliptic.BitSize elliptic.Params) 8). lia. }
  fold nonce_len. unfold bind, ReadFull. cbn [tape heap].
  destruct (decide _); [lia|]. by destruct t.
Qed.

End Quiet.

Section Entropy.

Context {curve : elliptic.Curve} {hash : sm3.Hash}.

(** X2.  A reader that ends before the nonce is read: [PointEncrypt],
    [ShareCal] (of either file), [ProofGen] and [ProofGenNoB] return the
    error of [io.ReadFull] ([EOF] on an empty reader, [ErrUnexpectedEOF]
    otherwise) before anything else: no big.Int is made and no pointer
    is followed, so the heap is the heap of the call. *)
Theorem entropy_failure (h : list Z) (t : list byte) :
  0 <= elliptic.BitSize elliptic.Params ->
  (length t < nonce_len)%nat ->
  (forall pub Dp,
     PointEncrypt pub Dp (State h t) = (Err (short_read t), State h []))
  /\ (forall Q rB priv,
        ShareCal Q rB priv (State h t) = (Err (short_read t), State h []))
  /\ (forall Q rB priv,
        Plain.ShareCal Q rB priv (State h t) = (Err (short_read t), State h []))
  /\ (forall y1 y2 B Y1 Y2 A1 A2 A,
        ProofGen y1 y2 B Y1 Y2 A1 A2 A (State h t)
        = (Err (short_read t), State h []))
  /\ (forall y1 y2 Y1 Y2 A1 A2 A,
        ProofGenNoB y1 y2 Y1 Y2 A1 A2 A (State h t)
        = (Err (short_read t), State h [])).
Proof.
  intros HB Hlen.
  pose proof (randFieldElement_short h t HB Hlen) as E.
  repeat split; intros.
  - unfold PointEncrypt. by erewrite bind_Err by exact E.
  - unfold ShareCal. by erewrite bind_Err by exact E.
  - unfold Plain.ShareCal. by erewrite bind_Err by exact E.
  - unfold ProofGen. by erewrite bind_Err by exact E.
  - unfold ProofGenNoB. by erewrite bind_Err by exact E.
Qed.

Lemma drew_one {A} (k : nat -> M A) (h : list Z) (t : list byte) :
  (forall a, quiet (k a)) ->
  drew 1 t (bind randFieldElement k (State h t)).
Proof.
  intros Hk. unfold drew.
  destruct (randFieldElement (State h t)) as [[a|e|p] s1] eqn:E.
  - erewrite bind_Ok by exact E.
    apply randFieldElement_Ok_inv in E as (Hl & _ & v & w & ->).
    destruct (Hk a (State (h ++ [v; w]) (drop nonce_len t))) as [Ht He].
    destruct (k a _) as [[b|e|p] s2]; cbn [fst snd tape] in *.
    + split; [lia|]. rewrite Ht. f_equal; lia.
    + by destruct (He e).
    + done.
  - erewrite bind_Err by exact E. cbn [fst snd].
    apply randFieldElement_Err_inv in E as (Hl & -> & ->).
    split; [lia|]. split; [destruct t; auto|done].
  - by erewrite bind_Panic by exact E.
Qed.

Lemma drew_two {A} (k : nat -> nat -> M A) (h : list Z) (t : list byte) :
  (forall a b, quiet (k a b)) ->
  drew 2 t (bind randFieldElement
              (fun v1 => bind randFieldElement (fun v2 => k v1 v2))
              (State h t)).
Proof.
  intros Hk. unfold drew.
  destruct (randFieldElement (State h t)) as [[a|e|p] s1] eqn:E.
  - erewrite bind_Ok by exact E.
    apply randFieldElement_Ok_inv in E as (Hl & _ & v & w & ->).
    pose proof (drew_one (k a) (h ++ [v; w]) (drop nonce_len t) (Hk a)) as H.
    unfold drew in H.
    destruct (bind randFieldElement _ _) as [[b|e|p] s2]; cbn [fst snd] in *.
    + rewrite length_drop in H. destruct H as [H1 H2]. split; [lia|].
      rewrite H2, drop_drop. f_equal; lia.
    + rewrite length_drop in H. destruct H as (H1 & H2 & H3).
      split; [lia|]. by split.
    + done.
  - erewrite bind_Err by exact E. cbn [fst snd].
    apply randFieldElement_Err_inv in E as (Hl & -> & ->).
    split; [lia|]. split; [destruct t; auto|done].
  - by erewrite bind_Panic by exact E.
Qed.

Lemma drew_after_quiet {A B} (n : nat) (m : M A) (f : A -> M B) (h : list Z)
    (t : list byte) :
  quiet m -> (forall a h', drew n t (f a (State h' t))) ->
  drew n t (bind m f (State h t)).
Proof.
  intros Hm Hf. destruct (Hm (State h t)) as [Ht He]. unfold bind.
  destruct (m (State h t)) as [[a|e|p] [h1 t1]]; cbn [fst snd tape] in *.
  - subst t1. apply Hf.
  - by destruct (He e).
  - by unfold drew.
Qed.

(** X3.  What the reader is asked for.  [PointEncrypt] and [ShareCal] (of
    either file) take one nonce, [ProofGen], [ProofGenNoB],
    [ShareProofGen] and [ShareProofGenNoB] two: when the call returns a
    value the reader had the bytes and is left right behind them; when it
    returns an error the reader was shorter than that, the error is the
    one of [io.ReadFull], and the reader is used up.  Nothing else in
    these functions returns an error. *)
Theorem entropy_accounting (h : list Z) (t : list byte) :
  (forall pub Dp, drew 1 t (PointEncrypt pub Dp (State h t)))
  /\ (forall Q rB priv, drew 1 t (ShareCal Q rB priv (State h t)))
  /\ (forall Q rB priv, drew 1 t (Plain.ShareCal Q rB priv (State h t)))
  /\ (forall y1 y2 B Y1 Y2 A1 A2 A,
        drew 2 t (ProofGen y1 y2 B Y1 Y2 A1 A2 A (State h t)))
  /\ (forall y1 y2 Y1 Y2 A1 A2 A,
        drew 2 t (ProofGenNoB y1 y2 Y1 Y2 A1 A2 A (State h t)))
  /\ (forall ri priv share Q rB,
        drew 2 t (ShareProofGen ri priv share Q rB (State h t)))
  /\ (forall ri priv share Q rB,
        drew 2 t (ShareProofGenNoB ri priv share Q rB (State h t))).
Proof.
  assert (HG : forall h' y1 y2 B Y1 Y2 A1 A2 A,
            drew 2 t (ProofGen y1 y2 B Y1 Y2 A1 A2 A (State h' t))).
  { intros. unfold ProofGen. apply drew_two. intros a b. quiet_ops. }
  assert (HN : forall h' y1 y2 Y1 Y2 A1 A2 A,
            drew 2 t (ProofGenNoB y1 y2 Y1 Y2 A1 A2 A (State h' t))).
  { intros. unfold ProofGenNoB. apply drew_two. intros a b. quiet_ops. }
  repeat split; intros.
  - unfold PointEncrypt. apply drew_one. intros a. quiet_ops.
  - unfold ShareCal. apply drew_one. intros a. quiet_ops.
  - unfold Plain.ShareCal. apply drew_one. intros a. quiet_ops.
  - apply HG.
  - apply HN.
  - unfold ShareProofGen. apply drew_after_quiet; [apply quiet_neg_copy|].
    intros A2 h'. apply HG.
  - unfold ShareProofGenNoB. apply drew_after_quiet; [apply quiet_neg_copy|].
    intros A2 h'. apply HN.
Qed.

End Entropy.

(** ** The proofs, from generation to verification *)

Section Completeness.

Context {curve : elliptic.Curve} {laws : CurveLaws}
        {hash : sm3.Hash} {hlaws : HashLaws}.

(** What [ProofGen] returns for a tuple that satisfies the three
    relations verifies, in any later heap and against any points with the
    coordinates of the tuple. *)
Lemma ProofGen_verifies (h : list Z) (t : list byte) (y1 y2 : bigInt)
    (B Y1 Y2 A1 A2 A : CurvePoint) (u1 u2 b a1 a2 : Z) :
  deref h y1 = Some u1 -> deref h y2 = Some u2 ->
  holds h B (pt b) -> holds h Y1 (pt (u1 * b)) -> holds h Y2 (pt (u2 * b)) ->
  holds h A1 (pt a1) -> holds h A2 (pt a2) ->
  holds h A (pt (u1 * a1 + u2 * a2)) ->
  (2 * nonce_len <= length t)%nat ->
  exists c r1 r2 new,
    ProofGen y1 y2 B Y1 Y2 A1 A2 A (State h t)
    = (Ok (c, r1, r2), State (h ++ new) (drop nonce_len (drop nonce_len t)))
    /\ forall (l : list Z) (t' : list byte) (B' Y1' Y2' A1' A2' A' : CurvePoint),
         let h' := (h ++ new) ++ l in
         holds h' B' (pt b) -> holds h' Y1' (pt (u1 * b)) ->
         holds h' Y2' (pt (u2 * b)) -> holds h' A1' (pt a1) ->
         holds h' A2' (pt a2) -> holds h' A' (pt (u1 * a1 + u2 * a2)) ->
         exists new',
           ProofVrf c r1 r2 B' Y1' Y2' A1' A2' A' (State h' t')
           = (Ok true, State (h' ++ new') t').
Proof.
  intros Hy1 Hy2 HB HY1 HY2 HA1 HA2 HA Hlen.
  destruct (ProofGen_spec h t y1 y2 B Y1 Y2 A1 A2 A u1 u2 b a1 a2
              (pt (u1 * b)) (pt (u2 * b)) (pt (u1 * a1 + u2 * a2))
              Hy1 Hy2 HB HY1 HY2 HA1 HA2 HA Hlen)
    as (pc & pr1 & pr2 & new & Hrun & Hc & Hr1 & Hr2).
  set (v1 := field_element (take nonce_len t)) in *.
  set (v2 := field_element (take nonce_len (drop nonce_len t))) in *.
  match type of Hc with _ = Some ?x => set (c := x) in * end.
  exists pc, pr1, pr2, new. split; [exact Hrun|].
  intros l t' B' Y1' Y2' A1' A2' A' h' HB' HY1' HY2' HA1' HA2' HA'.
  destruct (ProofVrf_spec h' t' pc pr1 pr2 B' Y1' Y2' A1' A2' A'
              c (response v1 c u1) (response v2 c u2) b (u1 * b) (u2 * b)
              a1 a2 (u1 * a1 + u2 * a2)
              (deref_app_l _ l _ _ Hc) (deref_app_l _ l _ _ Hr1)
              (deref_app_l _ l _ _ Hr2)
              (proj1 (challenge_value_range _))
              (proj1 (response_range _ _ _)) (proj1 (response_range _ _ _))
              HB' HY1' HY2' HA1' HA2' HA') as (new' & Hvrf).
  exists new'. rewrite Hvrf.
  match goal with
  | |- (Ok ?x, _) = _ => enough (Hb : x = true) by (rewrite Hb; reflexivity)
  end.
  apply Z.eqb_eq. unfold c at 1. do 2 f_equal.
  assert (E1 : pt (response v1 c u1 * b + c * (u1 * b)) = pt (v1 * b)).
  { replace (response v1 c u1 * b + c * (u1 * b))
      with (response v1 c u1 * b + c * u1 * b + 0) by ring.
    rewrite pt_response. f_equal. ring. }
  assert (E2 : pt (response v2 c u2 * b + c * (u2 * b)) = pt (v2 * b)).
  { replace (response v2 c u2 * b + c * (u2 * b))
      with (response v2 c u2 * b + c * u2 * b + 0) by ring.
    rewrite pt_response. f_equal. ring. }
  assert (E3 : pt (response v1 c u1 * a1 + response v2 c u2 * a2
                   + c * (u1 * a1 + u2 * a2)) = pt (v1 * a1 + v2 * a2)).
  { replace (response v1 c u1 * a1 + response v2 c u2 * a2
             + c * (u1 * a1 + u2 * a2))
      with (response v1 c u1 * a1 + c * u1 * a1
            + (response v2 c u2 * a2 + c * u2 * a2)) by ring.
    rewrite pt_response.
    replace (v1 * a1 + (response v2 c u2 * a2 + c * u2 * a2))
      with (response v2 c u2 * a2 + c * u2 * a2 + v1 * a1) by ring.
    rewrite pt_response. f_equal. ring. }
  by rewrite E1, E2, E3.
Qed.

(** X4.  Completeness of the proof system itself, as [TestProofGen_Vrf_NoB]
    runs it: for scalars y1, y2 and points with Y1 = y1*B, Y2 = y2*B and
    A = y1*A1 + y2*A2, the proof that [ProofGen] returns makes [ProofVrf]
    return true on the same tuple, and the proof that [ProofGenNoB]
    returns makes [ProofVrfNoB] return true when B is the base point. *)
Theorem ProofVrf_ProofGen (h : list Z) (t : list byte) (y1 y2 : bigInt)
    (B Y1 Y2 A1 A2 A : CurvePoint) (u1 u2 b a1 a2 : Z) :
  deref h y1 = Some u1 -> deref h y2 = Some u2 ->
  holds h B (pt b) -> holds h Y1 (pt (u1 * b)) -> holds h Y2 (pt (u2 * b)) ->
  holds h A1 (pt a1) -> holds h A2 (pt a2) ->
  holds h A (pt (u1 * a1 + u2 * a2)) ->
  (2 * nonce_len <= length t)%nat ->
  (exists c r1 r2 s1 s2,
     ProofGen y1 y2 B Y1 Y2 A1 A2 A (State h t) = (Ok (c, r1, r2), s1)
     /\ ProofVrf c r1 r2 B Y1 Y2 A1 A2 A s1 = (Ok true, s2))
  /\ (b = 1 ->
      exists c r1 r2 s1 s2,
        ProofGenNoB y1 y2 Y1 Y2 A1 A2 A (State h t) = (Ok (c, r1, r2), s1)
        /\ ProofVrfNoB c r1 r2 Y1 Y2 A1 A2 A s1 = (Ok true, s2)).
Proof.
  intros Hy1 Hy2 HB HY1 HY2 HA1 HA2 HA Hlen. split.
  - destruct (ProofGen_verifies h t y1 y2 B Y1 Y2 A1 A2 A u1 u2 b a1 a2)
      as (c & r1 & r2 & new & Hgen & Hvrf); try done.
    destruct (Hvrf [] (drop nonce_len (drop nonce_len t)) B Y1 Y2 A1 A2 A)
      as (new' & Hrun); try (by do 2 apply holds_app_l).
    rewrite app_nil_r in Hrun. by eexists _, _, _, _, _.
  - intros ->.
    destruct (ProofGen_verifies h t y1 y2 base_point Y1 Y2 A1 A2 A
                u1 u2 1 a1 a2)
      as (c & r1 & r2 & new & Hgen & Hvrf); try done.
    { apply holds_base_point. }
    destruct (Hvrf [] (drop nonce_len (drop nonce_len t))
                base_point Y1 Y2 A1 A2 A)
      as (new' & Hrun);
      try (by do 2 apply holds_app_l); [apply holds_base_point|].
    rewrite app_nil_r in Hrun.
    exists c, r1, r2. eexists _, _.
    rewrite (ProofGenNoB_ProofGen y1 y2 base_point) by (by split).
    split; [exact Hgen|].
    rewrite (ProofVrfNoB_ProofVrf c r1 r2 base_point) by (by split).
    exact Hrun.
Qed.

Lemma bind_ext {A B} (m : M A) (f g : A -> M B) (s : state) :
  (forall a h t, f a (State h t) = g a (State h t)) ->
  bind m f s = bind m g s.
Proof.
  intros H. unfold bind. destruct (m s) as [[a|e|p] [h t]]; auto.
Qed.

Lemma ShareProofGenNoB_ShareProofGen (s : state) (ri : bigInt)
    (priv : PrivateKey) (share : CipherText) (Q : PublicKey) (rB : CurvePoint) :
  ShareProofGenNoB ri priv share Q rB s = ShareProofGen ri priv share Q rB s.
Proof.
  unfold ShareProofGenNoB, ShareProofGen. apply bind_ext. intros A2 h t.
  apply ProofGenNoB_ProofGen. by split.
Qed.

Lemma ShareProofVryNoB_ShareProofVry (s : state) (c r1 r2 : bigInt)
    (share : CipherText) (nodePubKey Q : PublicKey) (rB : CurvePoint) :
  ShareProofVryNoB c r1 r2 share nodePubKey Q rB s
  = ShareProofVry c r1 r2 share nodePubKey Q rB s.
Proof.
  unfold ShareProofVryNoB, ShareProofVry. apply bind_ext. intros A2 h t.
  apply ProofVrfNoB_ProofVrf. by split.
Qed.

(** X5.  The share functions without B are the share functions with B:
    [ShareProofGenNoB] returns from every state what [ShareProofGen]
    returns, and [ShareProofVryNoB] what [ShareProofVry] returns, the
    outcome and the state. *)
Theorem ShareProofNoB_same (s : state) (share : CipherText)
    (Q : PublicKey) (rB : CurvePoint) :
  (forall ri priv,
     ShareProofGenNoB ri priv share Q rB s = ShareProofGen ri priv share Q rB s)
  /\ (forall c r1 r2 nodePubKey,
        ShareProofVryNoB c r1 r2 share nodePubKey Q rB s
        = ShareProofVry c r1 r2 share nodePubKey Q rB s).
Proof.
  split; intros.
  - apply ShareProofGenNoB_ShareProofGen.
  - apply ShareProofVryNoB_ShareProofVry.
Qed.

(** The proof of an honest share verifies, in any later heap. *)
Lemma ShareProofGen_verifies (h : list Z) (t : list byte) (ri : bigInt)
    (priv : PrivateKey) (share : CipherText) (Q : PublicKey) (rB : CurvePoint)
    (vri sk q r : Z) :
  deref h ri = Some vri -> keypair h priv sk ->
  holds h Q (pt q) -> holds h rB (pt r) ->
  holds h (K share) (pt vri) ->
  holds h (C share) (pt (vri * q - sk * r)) ->
  (2 * nonce_len <= length t)%nat ->
  exists c r1 r2 new,
    ShareProofGen ri priv share Q rB (State h t)
    = (Ok (c, r1, r2), State (h ++ new) (drop nonce_len (drop nonce_len t)))
    /\ forall (l : list Z) (t' : list byte),
         exists new',
           ShareProofVry c r1 r2 share (GetPubKey priv) Q rB
             (State ((h ++ new) ++ l) t')
           = (Ok true, State (((h ++ new) ++ l) ++ new') t').
Proof.
  intros Hri [Hd Hpub] HQ HrB HK HC Hlen. unfold ShareProofGen.
  destruct (neg_copy_spec h t rB r HrB) as (A2 & n1 & R1 & HA2).
  erewrite bind_Ok by exact R1.
  destruct (ProofGen_verifies (h ++ n1) t ri (D priv) base_point (K share)
              (Public priv) Q A2 (C share) vri sk 1 q (- r))
    as (c & r1 & r2 & n2 & Hgen & Hvrf);
    try (by apply deref_app_l); try apply holds_base_point; try done.
  { rewrite Z.mul_1_r. by apply holds_app_l. }
  { rewrite Z.mul_1_r. by apply holds_app_l. }
  { by apply holds_app_l. }
  { replace (vri * q + sk * - r) with (vri * q - sk * r) by ring.
    by apply holds_app_l. }
  rewrite Hgen. exists c, r1, r2, (n1 ++ n2). rewrite app_assoc.
  split; [reflexivity|]. intros l t'. unfold ShareProofVry.
  destruct (neg_copy_spec (((h ++ n1) ++ n2) ++ l) t' rB r)
    as (A2' & n3 & R3 & HA2'); [by do 3 apply holds_app_l|].
  erewrite bind_Ok by exact R3.
  destruct (Hvrf (l ++ n3) t' base_point (K share) (GetPubKey priv) Q A2'
              (C share)) as (n4 & Hrun).
  all: rewrite ?app_assoc; try apply holds_base_point; try exact HA2'.
  - rewrite Z.mul_1_r. by do 4 apply holds_app_l.
  - rewrite Z.mul_1_r. by do 4 apply holds_app_l.
  - by do 4 apply holds_app_l.
  - replace (vri * q + sk * - r) with (vri * q - sk * r) by ring.
    by do 4 apply holds_app_l.
  - rewrite app_assoc in Hrun. rewrite Hrun. exists (n3 ++ n4).
    by rewrite !app_assoc.
Qed.

(** X6.  A share and its proof, as [TestShareProofGen_Vrf_NoB] runs them:
    for a key pair, a requester key Q and a point rB, [ShareCal] returns a
    share (K = ri*B, C = ri*Q - sk*rB) and its nonce ri in [1, N-1]; the
    proof [ShareProofGen] makes of them verifies under [ShareProofVry],
    and the one of [ShareProofGenNoB] under [ShareProofVryNoB]. *)
Theorem ShareCal_proof_verifies (h : list Z) (t : list byte)
    (priv : PrivateKey) (Q : PublicKey) (rB : CurvePoint) (sk q r : Z) :
  keypair h priv sk -> 1 <= sk < elliptic.N elliptic.Params ->
  holds h Q (pt q) -> holds h rB (pt r) ->
  (3 * nonce_len <= length t)%nat ->
  exists share ri s1 vri,
    ShareCal Q rB priv (State h t) = (Ok (share, ri), s1)
    /\ deref (heap s1) ri = Some vri
    /\ 1 <= vri < elliptic.N elliptic.Params
    /\ holds (heap s1) (K share) (pt vri)
    /\ holds (heap s1) (C share) (pt (vri * q - sk * r))
    /\ (exists c r1 r2 s2 s3,
          ShareProofGen ri priv share Q rB s1 = (Ok (c, r1, r2), s2)
          /\ ShareProofVry c r1 r2 share (GetPubKey priv) Q rB s2
             = (Ok true, s3))
    /\ (exists c r1 r2 s2 s3,
          ShareProofGenNoB ri priv share Q rB s1 = (Ok (c, r1, r2), s2)
          /\ ShareProofVryNoB c r1 r2 share (GetPubKey priv) Q rB s2
             = (Ok true, s3)).
Proof.
  intros Hkey Hsk HQ HrB Hlen. pose proof Hkey as [Hd Hpub].
  destruct (ShareCal_spec h t Q rB priv sk q r Hd ltac:(lia) HQ HrB)
    as (share & ri & n1 & Hcal & Hri & HK & HC); [lia|].
  set (vri := field_element (take nonce_len t)) in *.
  destruct (ShareProofGen_verifies (h ++ n1) (drop nonce_len t) ri priv share
              Q rB vri sk q r)
    as (c & r1 & r2 & n2 & Hgen & Hvrf);
    try (by apply holds_app_l); try done.
  { by apply keypair_app_l. }
  { rewrite length_drop. lia. }
  destruct (Hvrf [] (drop nonce_len (drop nonce_len (drop nonce_len t))))
    as (n3 & Hrun).
  rewrite app_nil_r in Hrun.
  exists share, ri, (State (h ++ n1) (drop nonce_len t)), vri.
  split; [exact Hcal|]. cbn [heap]. split; [exact Hri|].
  split; [apply field_element_range|]. split; [exact HK|]. split; [exact HC|].
  split.
  - by eexists _, _, _, _, _.
  - exists c, r1, r2. eexists _, _.
    rewrite ShareProofGenNoB_ShareProofGen. split; [exact Hgen|].
    rewrite ShareProofVryNoB_ShareProofVry. exact Hrun.
Qed.

End Completeness.

(** ** Keys, ciphertexts and shares put together *)

Section Compose.

Context {curve : elliptic.Curve} {laws : CurveLaws}.

Lemma Forall2_keypair_D (h : list Z) (privs : list PrivateKey) (ks : list Z) :
  Forall2 (keypair h) privs ks -> Forall (fun k => 0 <= k) ks ->
  Forall2 (fun priv k => deref h (D priv) = Some k /\ 0 <= k) privs ks.
Proof.
  intros Hkeys Hrange.
  eapply Forall2_impl; [apply (Forall2_with_r _ _ _ _ Hkeys Hrange)|].
  by intros pk k [[Hk _] Hr].
Qed.

Lemma Forall2_keypair_Public (h l : list Z) (privs : list PrivateKey)
    (ks : list Z) :
  Forall2 (keypair h) privs ks ->
  Forall2 (fun pub k => holds (h ++ l) pub (pt k)) (map GetPubKey privs) ks.
Proof.
  intros Hkeys. apply Forall2_fmap_l. eapply Forall2_impl; [exact Hkeys|].
  intros ? ? [? ?]. by apply holds_app_l.
Qed.

(** What [TestCollPrivKey] runs, up to the decryption: the two aggregate
    keys, then a ciphertext for the aggregate public key. *)
Lemma aggregate_encrypt (h : list Z) (t : list byte)
    (privs : list PrivateKey) (ks : list Z) (Dp : CurvePoint) (d : Z) :
  privs <> [] ->
  Forall2 (keypair h) privs ks ->
  Forall (fun k => 0 <= k) ks ->
  holds h Dp (pt d) ->
  (nonce_len <= length t)%nat ->
  let r := field_element (take nonce_len t) in
  exists collPrivKey n1 collPubKey n2 ct n3,
    CollPrivKey privs (State h t) = (Ok collPrivKey, State (h ++ n1) t)
    /\ CollPubKey (map GetPubKey privs) (State (h ++ n1) t)
       = (Ok collPubKey, State ((h ++ n1) ++ n2) t)
    /\ PointEncrypt collPubKey Dp (State ((h ++ n1) ++ n2) t)
       = (Ok ct, State (((h ++ n1) ++ n2) ++ n3) (drop nonce_len t))
    /\ keypair (h ++ n1) collPrivKey (sumZ ks mod elliptic.N elliptic.Params)
    /\ holds (((h ++ n1) ++ n2) ++ n3) (K ct) (pt r)
    /\ holds (((h ++ n1) ++ n2) ++ n3) (C ct) (pt (r * sumZ ks + d)).
Proof.
  intros Hne Hkeys Hrange HD Hlen r.
  destruct (CollPrivKey_spec privs ks h t Hne) as (cpriv & n1 & R1 & Hpriv).
  { by apply Forall2_keypair_D. }
  destruct (CollPubKey_spec (map GetPubKey privs) ks (h ++ n1) t)
    as (cpub & n2 & R2 & Hpub).
  { by destruct privs. }
  { by apply Forall2_keypair_Public. }
  destruct (PointEncrypt_spec ((h ++ n1) ++ n2) t cpub Dp (sumZ ks) d Hpub)
    as (ct & n3 & R3 & HK & HC); [by do 2 apply holds_app_l|done|].
  by exists cpriv, n1, cpub, n2, ct, n3.
Qed.

(** X7.  [TestCollPrivKey]: a point encrypted under [CollPubKey] of the
    public keys is decrypted by [CollPrivKey] of the private keys, for any
    nonempty list of key pairs. *)
Theorem aggregate_key_round_trip (h : list Z) (t : list byte)
    (privs : list PrivateKey) (ks : list Z) (Dp : CurvePoint) (d : Z) :
  privs <> [] ->
  Forall2 (keypair h) privs ks ->
  Forall (fun k => 0 <= k) ks ->
  holds h Dp (pt d) ->
  (nonce_len <= length t)%nat ->
  exists collPrivKey s1 collPubKey s2 ct s3 dct s4,
    CollPrivKey privs (State h t) = (Ok collPrivKey, s1)
    /\ CollPubKey (map GetPubKey privs) s1 = (Ok collPubKey, s2)
    /\ PointEncrypt collPubKey Dp s2 = (Ok ct, s3)
    /\ PointDecrypt ct collPrivKey s3 = (Ok dct, s4)
    /\ holds (heap s4) dct (pt d).
Proof.
  intros Hne Hkeys Hrange HD Hlen. pose proof N_gt_1 as HN.
  destruct (aggregate_encrypt h t privs ks Dp d Hne Hkeys Hrange HD Hlen)
    as (cpriv & n1 & cpub & n2 & ct & n3 & R1 & R2 & R3 & [Hd _] & HK & HC).
  set (r := field_element (take nonce_len t)) in *.
  set (S := sumZ ks) in *.
  destruct (PointDecrypt_spec (((h ++ n1) ++ n2) ++ n3) (drop nonce_len t)
              ct cpriv (S mod elliptic.N elliptic.Params) r (r * S + d))
    as (out & n4 & R4 & Hout); try done.
  { by do 2 apply deref_app_l. }
  { apply Z.mod_pos_bound. lia. }
  eexists _, _, _, _, _, _, _, _.
  split; [exact R1|]. split; [exact R2|]. split; [exact R3|].
  split; [exact R4|]. cbn [heap].
  replace (r * S + d - S mod elliptic.N elliptic.Params * r)
    with (d + (r * (S / elliptic.N elliptic.Params)) * elliptic.N elliptic.Params)
    in Hout.
  - by rewrite pt_shift in Hout.
  - pose proof (Z.div_mod S (elliptic.N elliptic.Params)). nia.
Qed.

(** X8.  Nothing in the aggregation looks at the sum: when the private
    keys add up to a multiple of N, [CollPrivKey] returns the key 0 and a
    ciphertext made for [CollPubKey] of the public keys carries the
    plaintext itself in its field C. *)
Theorem zero_aggregate_key (h : list Z) (t : list byte)
    (privs : list PrivateKey) (ks : list Z) (Dp : CurvePoint) (d : Z) :
  privs <> [] ->
  Forall2 (keypair h) privs ks ->
  Forall (fun k => 1 <= k < elliptic.N elliptic.Params) ks ->
  sumZ ks mod elliptic.N elliptic.Params = 0 ->
  holds h Dp (pt d) ->
  (nonce_len <= length t)%nat ->
  exists collPrivKey s1 collPubKey s2 ct s3,
    CollPrivKey privs (State h t) = (Ok collPrivKey, s1)
    /\ CollPubKey (map GetPubKey privs) s1 = (Ok collPubKey, s2)
    /\ PointEncrypt collPubKey Dp s2 = (Ok ct, s3)
    /\ deref (heap s3) (D collPrivKey) = Some 0
    /\ holds (heap s3) (C ct) (pt d).
Proof.
  intros Hne Hkeys Hrange Hzero HD Hlen. pose proof N_gt_1 as HN.
  destruct (aggregate_encrypt h t privs ks Dp d Hne Hkeys) 
    as (cpriv & n1 & cpub & n2 & ct & n3 & R1 & R2 & R3 & [Hd _] & HK & HC);
    try done.
  { eapply Forall_impl; [exact Hrange|]. cbn. lia. }
  rewrite Hzero in Hd.
  eexists _, _, _, _, _, _.
  split; [exact R1|]. split; [exact R2|]. split; [exact R3|]. cbn [heap].
  split; [by do 2 apply deref_app_l|].
  set (r := field_element (take nonce_len t)) in *.
  replace (r * sumZ ks + d)
    with (d + (r * (sumZ ks / elliptic.N elliptic.Params))
              * elliptic.N elliptic.Params) in HC.
  - by rewrite pt_shift in HC.
  - pose proof (Z.div_mod (sumZ ks) (elliptic.N elliptic.Params)). nia.
Qed.

(** X9.  What a requester decrypts, whatever the shares are: for shares
    (a_i*B, b_i*B), a ciphertext with C = c*B and the requester key q,
    [ShareReplace] followed by [PointDecrypt] returns
    (b_1 + ... + b_m + c - q*(a_1 + ... + a_m))*B.  The field K of the
    ciphertext is no part of it. *)
Theorem key_switch_value (h : list Z) (t : list byte) (shares : CipherVector)
    (vs : list (Z * Z)) (rct : CipherText) (c : Z) (q : PrivateKey) (qd : Z) :
  shares <> [] ->
  Forall2 (fun share v => holds h (K share) (pt (fst v))
                          /\ holds h (C share) (pt (snd v))) shares vs ->
  holds h (C rct) (pt c) ->
  deref h (D q) = Some qd -> 0 <= qd ->
  exists tct s1 out s2,
    ShareReplace shares rct (State h t) = (Ok tct, s1)
    /\ PointDecrypt tct q s1 = (Ok out, s2)
    /\ holds (heap s2) out
         (pt (sumZ (map snd vs) + c - qd * sumZ (map fst vs))).
Proof.
  intros Hne Hvs Hc Hq Hqd.
  destruct (ShareReplace_spec shares vs rct c h t Hne Hvs Hc)
    as (tct & n1 & R1 & HK & HC).
  destruct (PointDecrypt_spec (h ++ n1) t tct q qd (sumZ (map fst vs))
              (sumZ (map snd vs) + c))
    as (out & n2 & R2 & Hout); try done.
  { by apply deref_app_l. }
  by eexists _, _, _, _.
Qed.

End Compose.

(** ** What the verifier looks at *)

Section Verifier.

Context {curve : elliptic.Curve} {laws : CurveLaws}
        {hash : sm3.Hash} {hlaws : HashLaws}.

Ltac run_vrf :=
  repeat first [ mstep | P_nonzero | N_nonzero | rewrite bind_challenge ].

(** [ProofVrf] on any three integers: the scalars of the multiplications
    are absolute values ([Bytes] drops the sign), the comparison is on the
    integers. *)
Lemma ProofVrf_value (h : list Z) (t : list byte) (pc pr1 pr2 : bigInt)
    (B Y1 Y2 A1 A2 A : CurvePoint) (c w1 w2 b e1 e2 a1 a2 a : Z) :
  deref h pc = Some c -> deref h pr1 = Some w1 -> deref h pr2 = Some w2 ->
  holds h B (pt b) -> holds h Y1 (pt e1) -> holds h Y2 (pt e2) ->
  holds h A1 (pt a1) -> holds h A2 (pt a2) -> holds h A (pt a) ->
  exists new,
    ProofVrf pc pr1 pr2 B Y1 Y2 A1 A2 A (State h t)
    = (Ok (c =? challenge_value
                  (transcript
                     [pt b; pt e1; pt e2; pt a1; pt a2; pt a;
                      pt (Z.abs w1 * b + Z.abs c * e1);
                      pt (Z.abs w2 * b + Z.abs c * e2);
                      pt (Z.abs w1 * a1 + Z.abs w2 * a2 + Z.abs c * a)])),
       State (h ++ new) t).
Proof.
  intros Hc Hw1 Hw2 HB HY1 HY2 HA1 HA2 HA. use_holds.
  unfold ProofVrf. rewrite (app_nil_heap h).
  unfold sm3_Write. unfold_ops. run_vrf.
  rewrite !ScalarMult_pt, !SetBytes_Bytes, !Add_pt.
  match goal with
  | |- context [ ?x ?= ?y ] => destruct (Z.compare_spec x y) as [E|E|E]
  end.
  - eexists.
    replace (0 =? 0) with true by reflexivity. unfold ret.
    f_equal. f_equal. symmetry. apply Z.eqb_eq. exact E.
  - eexists.
    replace (-1 =? 0) with false by reflexivity. unfold ret.
    f_equal. f_equal. symmetry. apply Z.eqb_neq. cbn in *. lia.
  - eexists.
    replace (1 =? 0) with false by reflexivity. unfold ret.
    f_equal. f_equal. symmetry. apply Z.eqb_neq. cbn in *. lia.
Qed.

(** X10.  The challenge of an accepted proof is a 256-bit number: on
    curve points [ProofVrf] returns a verdict for any three integers, and
    the verdict is true only if 0 <= c < 2^256; a negative challenge and
    one of more than 32 bytes are rejected whatever the responses are. *)
Theorem ProofVrf_challenge_range (h : list Z) (t : list byte)
    (pc pr1 pr2 : bigInt) (B Y1 Y2 A1 A2 A : CurvePoint)
    (c w1 w2 b e1 e2 a1 a2 a : Z) :
  deref h pc = Some c -> deref h pr1 = Some w1 -> deref h pr2 = Some w2 ->
  holds h B (pt b) -> holds h Y1 (pt e1) -> holds h Y2 (pt e2) ->
  holds h A1 (pt a1) -> holds h A2 (pt a2) -> holds h A (pt a) ->
  exists verdict s',
    ProofVrf pc pr1 pr2 B Y1 Y2 A1 A2 A (State h t) = (Ok verdict, s')
    /\ (verdict = true -> 0 <= c < 2 ^ 256)
    /\ (c < 0 \/ 2 ^ 256 <= c -> verdict = false).
Proof.
  intros Hc Hw1 Hw2 HB HY1 HY2 HA1 HA2 HA.
  destruct (ProofVrf_value h t pc pr1 pr2 B Y1 Y2 A1 A2 A c w1 w2 b e1 e2
              a1 a2 a) as (new & E); try done.
  eexists _, _. split; [exact E|].
  match goal with
  | |- context [ challenge_value ?m ] =>
      pose proof (challenge_value_range m) as Hr;
      set (c' := challenge_value m) in *
  end.
  split.
  - intros Hv. apply Z.eqb_eq in Hv. lia.
  - intros Hout. apply Z.eqb_neq. lia.
Qed.

(** X11.  The responses are read modulo N and never compared with it: for
    the same challenge, responses that differ by multiples of N (or by
    their sign) get the same verdict. *)
Theorem ProofVrf_responses_mod_N (h : list Z) (t : list byte)
    (pc pr1 pr2 pr1' pr2' : bigInt) (B Y1 Y2 A1 A2 A : CurvePoint)
    (c w1 w2 w1' w2' b e1 e2 a1 a2 a : Z) :
  deref h pc = Some c ->
  deref h pr1 = Some w1 -> deref h pr2 = Some w2 ->
  deref h pr1' = Some w1' -> deref h pr2' = Some w2' ->
  Z.abs w1' mod elliptic.N elliptic.Params
  = Z.abs w1 mod elliptic.N elliptic.Params ->
  Z.abs w2' mod elliptic.N elliptic.Params
  = Z.abs w2 mod elliptic.N elliptic.Params ->
  holds h B (pt b) -> holds h Y1 (pt e1) -> holds h Y2 (pt e2) ->
  holds h A1 (pt a1) -> holds h A2 (pt a2) -> holds h A (pt a) ->
  exists verdict s1 s2,
    ProofVrf pc pr1 pr2 B Y1 Y2 A1 A2 A (State h t) = (Ok verdict, s1)
    /\ ProofVrf pc pr1' pr2' B Y1 Y2 A1 A2 A (State h t) = (Ok verdict, s2).
Proof.
  intros Hc Hw1 Hw2 Hw1' Hw2' E1 E2 HB HY1 HY2 HA1 HA2 HA.
  pose proof N_gt_1 as HN.
  destruct (ProofVrf_value h t pc pr1 pr2 B Y1 Y2 A1 A2 A c w1 w2 b e1 e2
              a1 a2 a) as (n1 & R1); try done.
  destruct (ProofVrf_value h t pc pr1' pr2' B Y1 Y2 A1 A2 A c w1' w2' b e1 e2
              a1 a2 a) as (n2 & R2); try done.
  eexists _, _, _. split; [exact R1|]. rewrite R2. f_equal. f_equal.
  set (N := elliptic.N elliptic.Params) in *.
  assert (F1 : Z.abs w1' = Z.abs w1 + (Z.abs w1' / N - Z.abs w1 / N) * N).
  { pose proof (Z.div_mod (Z.abs w1') N). pose proof (Z.div_mod (Z.abs w1) N).
    lia. }
  assert (F2 : Z.abs w2' = Z.abs w2 + (Z.abs w2' / N - Z.abs w2 / N) * N).
  { pose proof (Z.div_mod (Z.abs w2') N). pose proof (Z.div_mod (Z.abs w2) N).
    lia. }
  set (k1 := Z.abs w1' / N - Z.abs w1 / N) in *.
  set (k2 := Z.abs w2' / N - Z.abs w2 / N) in *.
  rewrite F1, F2. do 3 f_equal.
  repeat match goal with
  | |- _ :: _ = _ :: _ => f_equal
  end.
  - replace ((Z.abs w1 + k1 * N) * b + Z.abs c * e1)
      with (Z.abs w1 * b + Z.abs c * e1 + (k1 * b) * N) by ring.
    apply pt_shift.
  - replace ((Z.abs w2 + k2 * N) * b + Z.abs c * e2)
      with (Z.abs w2 * b + Z.abs c * e2 + (k2 * b) * N) by ring.
    apply pt_shift.
  - replace ((Z.abs w1 + k1 * N) * a1 + (Z.abs w2 + k2 * N) * a2 + Z.abs c * a)
      with (Z.abs w1 * a1 + Z.abs w2 * a2 + Z.abs c * a
            + (k1 * a1 + k2 * a2) * N) by ring.
    apply pt_shift.
Qed.

End Verifier.

(** ** The tests *)

Section TestFunctions.

Context {curve : elliptic.Curve} {laws : CurveLaws}
        {hash : sm3.Hash} {hlaws : HashLaws}.

Lemma same_point_true (h : list Z) (t : list byte) (Dp out : CurvePoint)
    (v : Z * Z) :
  holds h Dp v -> holds h out v ->
  same_point Dp out (State h t) = (Ok true, State h t).
Proof.
  intros [Hx Hy] [Hx' Hy']. unfold same_point, Int_Cmp.
  rewrite bind_bind. erewrite bind_load by exact Hx.
  rewrite bind_bind. erewrite bind_load by exact Hx'.
  rewrite bind_ret, Z.compare_refl. cbn [Z.eqb].
  rewrite !bind_bind. erewrite bind_load by exact Hy.
  rewrite bind_bind. erewrite bind_load by exact Hy'.
  by rewrite !bind_ret, Z.compare_refl.
Qed.

(** X12.  [TestCollPubKey] prints "Eqal": for a nonempty list of key
    pairs, the public key of the sum of the private keys compares equal
    to [CollPubKey] of the public keys. *)
Theorem TestCollPubKey_passes (h : list Z) (t : list byte)
    (privs : list PrivateKey) (ks : list Z) :
  privs <> [] ->
  Forall2 (keypair h) privs ks ->
  Forall (fun k => 0 <= k) ks ->
  exists s', TestCollPubKey privs (State h t) = (Ok true, s').
Proof.
  intros Hne Hkeys Hrange. pose proof N_gt_1 as HN. unfold TestCollPubKey.
  rewrite bind_alloc.
  erewrite bind_Ok
    by (apply (CollPrivKey_loop_spec privs ks);
        [by apply Forall2_keypair_D|lia]).
  rewrite Z.add_0_l.
  set (S := sumZ ks mod elliptic.N elliptic.Params).
  destruct (CollPubKey_spec (map GetPubKey privs) ks (h ++ [S]) t)
    as (cpub & n1 & R1 & [Hx Hy]).
  { by destruct privs. }
  { by apply Forall2_keypair_Public. }
  erewrite bind_Ok by exact R1.
  assert (HS : deref ((h ++ [S]) ++ n1) (cell (length h)) = Some S).
  { apply deref_app_l. by rewrite deref_new0. }
  remember ((h ++ [S]) ++ n1) as h1 eqn:Eh1.
  unfold_ops. run.
  rewrite ScalarBaseMult_Bytes by (apply Z.mod_pos_bound; lia).
  unfold S. rewrite pt_mod.
  erewrite (same_point_true _ _ cpub _ (pt (sumZ ks))); [by eexists| |].
  - split; by apply deref_app_l.
  - solve_holds.
Qed.

Lemma ShareCal_proved_spec (Q : PublicKey) (rB : CurvePoint) (q r : Z)
    (pks : list PrivateKey) :
  forall (ks : list Z) (h : list Z) (t : list byte),
  Forall2 (fun priv k => keypair h priv k /\ 0 <= k) pks ks ->
  holds h Q (pt q) -> holds h rB (pt r) ->
  (length pks * (3 * nonce_len) <= length t)%nat ->
  exists shares new vs,
    ShareCal_proved Q rB pks (State h t)
    = (Ok (shares, repeat true (length pks)),
       State (h ++ new) (drop (length pks * (3 * nonce_len)) t))
    /\ Forall2 (fun share v => holds (h ++ new) (K share) (pt (fst v))
                               /\ holds (h ++ new) (C share) (pt (snd v)))
               shares vs
    /\ length shares = length pks
    /\ sumZ (map snd vs) = sumZ (map fst vs) * q - sumZ ks * r.
Proof.
  induction pks as [|pk pks IH]; intros ks h t Hall HQ HrB Hlen.
  - inversion Hall; subst. exists [], [], []. cbn. rewrite app_nil_r, drop_0.
    repeat split; constructor.
  - inversion Hall as [|? k ? ks' [Hkey Hk] Hrest]; subst.
    cbn [ShareCal_proved length] in *. pose proof Hkey as [Hd Hpub].
    destruct (ShareCal_spec h t Q rB pk k q r Hd Hk HQ HrB)
      as (share & rip & n1 & Hrun1 & Hri & HsK & HsC); [lia|].
    erewrite bind_Ok by exact Hrun1.
    set (ri := field_element (take nonce_len t)) in *.
    destruct (ShareProofGen_verifies (h ++ n1) (drop nonce_len t) rip pk share
                Q rB ri k q r)
      as (c & r1 & r2 & n2 & Hgen & Hvrf);
      try (by apply holds_app_l); try done.
    { by apply keypair_app_l. }
    { rewrite length_drop. lia. }
    cbv beta iota.
    erewrite bind_Ok
      by (rewrite ShareProofGenNoB_ShareProofGen; exact Hgen).
    cbv beta iota.
    destruct (Hvrf [] (drop nonce_len (drop nonce_len (drop nonce_len t))))
      as (n3 & Hrun3).
    rewrite app_nil_r in Hrun3.
    erewrite bind_Ok
      by (rewrite ShareProofVryNoB_ShareProofVry; exact Hrun3).
    destruct (IH ks' (((h ++ n1) ++ n2) ++ n3)
                (drop nonce_len (drop nonce_len (drop nonce_len t))))
      as (shares & n4 & vs & Hrun4 & Hvs & Hlen4 & Hsum).
    + eapply Forall2_impl; [exact Hrest|]. intros ? ? [? ?].
      split; [by do 3 apply keypair_app_l|done].
    + by do 3 apply holds_app_l.
    + by do 3 apply holds_app_l.
    + rewrite !length_drop. lia.
    + erewrite bind_Ok by exact Hrun4. unfold ret. cbn [fst snd repeat].
      rewrite !drop_drop, <- !app_assoc in *.
      exists (share :: shares), (n1 ++ n2 ++ n3 ++ n4),
             ((ri, ri * q - k * r) :: vs).
      split; [do 3 f_equal; lia|]. split; [|split].
      * constructor; [|exact Hvs]. cbn [fst snd]. rewrite !app_assoc.
        split; by do 3 apply holds_app_l.
      * cbn. lia.
      * cbn [map sumZ fst snd]. lia.
Qed.

(** X13.  [TestWorkFlow] of the file with the proofs prints "Eqal" and
    no flag: for m >= 1 servers with keys in [1, N-1], a requester key
    pair and a point, with the bytes of 3m + 1 nonces in the random
    source, the decrypted point compares equal to the plaintext and every
    share proof verifies. *)
Theorem TestWorkFlow_passes (h : list Z) (t : list byte)
    (pks : list PrivateKey) (ks : list Z) (q : PrivateKey) (qd : Z)
    (Dp : CurvePoint) (d : Z) :
  pks <> [] ->
  Forall2 (keypair h) pks ks ->
  Forall (fun k => 1 <= k < elliptic.N elliptic.Params) ks ->
  keypair h q qd -> 1 <= qd < elliptic.N elliptic.Params ->
  holds h Dp (pt d) ->
  ((3 * length pks + 1) * nonce_len <= length t)%nat ->
  exists s',
    TestWorkFlow pks q Dp (State h t)
    = (Ok (true, repeat true (length pks)), s').
Proof.
  intros Hne Hkeys Hrange [Hqd HQ] Hq HD Hlen. unfold TestWorkFlow.
  destruct (CollPubKey_spec (map GetPubKey pks) ks h t)
    as (collPk & n1 & R1 & HPk).
  { by destruct pks. }
  { apply Forall2_fmap_l. eapply Forall2_impl; [exact Hkeys|].
    by intros ? ? [? ?]. }
  erewrite bind_Ok by exact R1.
  destruct (PointEncrypt_spec (h ++ n1) t collPk Dp (sumZ ks) d HPk
              (holds_app_l _ n1 _ _ HD)) as (ct & n2 & R2 & HctK & HctC); [lia|].
  erewrite bind_Ok by exact R2.
  set (r := field_element (take nonce_len t)) in *.
  destruct (ShareCal_proved_spec (Public q) (K ct) qd r pks ks
              ((h ++ n1) ++ n2) (drop nonce_len t))
    as (shares & n3 & vs & R3 & Hvs & Hlen3 & Hsum).
  { eapply Forall2_impl; [apply (Forall2_with_r _ _ _ _ Hkeys Hrange)|].
    intros pk k [Hk Hr]. split; [by do 2 apply keypair_app_l|lia]. }
  { by do 2 apply holds_app_l. }
  { exact HctK. }
  { rewrite length_drop. lia. }
  erewrite bind_Ok by exact R3. cbn [fst snd].
  destruct (ShareReplace_spec shares vs ct (r * sumZ ks + d)
              (((h ++ n1) ++ n2) ++ n3)
              (drop (length pks * (3 * nonce_len)) (drop nonce_len t)))
    as (tct & n4 & R4 & HtK & HtC).
  { destruct shares; [destruct pks; done|done]. }
  { exact Hvs. }
  { by apply holds_app_l. }
  erewrite bind_Ok by exact R4.
  destruct (PointDecrypt_spec ((((h ++ n1) ++ n2) ++ n3) ++ n4)
              (drop (length pks * (3 * nonce_len)) (drop nonce_len t)) tct q qd
              (sumZ (map fst vs)) (sumZ (map snd vs) + (r * sumZ ks + d)))
    as (out & n5 & R5 & Hout); [by do 4 apply deref_app_l|lia|done|done|].
  erewrite bind_Ok by exact R5.
  rewrite Hsum in Hout.
  replace (sumZ (map fst vs) * qd - sumZ ks * r + (r * sumZ ks + d)
           - qd * sumZ (map fst vs)) with d in Hout by ring.
  erewrite bind_Ok
    by (apply (same_point_true _ _ Dp out (pt d));
        [by do 5 apply holds_app_l|exact Hout]).
  by eexists.
Qed.

Context {reduces : AddReduces}.

Lemma Plain_ShareCal_all_spec (Q : PublicKey) (rB : CurvePoint) (q r : Z)
    (pks : list PrivateKey) :
  forall (ks : list Z) (h : list Z) (t : list byte),
  Forall2 (fun priv k => deref h (D priv) = Some k /\ 0 <= k) pks ks ->
  holds h Q (pt q) -> holds h rB (pt r) ->
  (length pks * nonce_len <= length t)%nat ->
  exists shares new vs,
    Plain_ShareCal_all Q rB pks (State h t)
    = (Ok shares, State (h ++ new) (drop (length pks * nonce_len) t))
    /\ Forall2 (fun share v => holds (h ++ new) (K share) (pt (fst v))
                               /\ holds (h ++ new) (C share) (pt (snd v)))
               shares vs
    /\ length shares = length pks
    /\ sumZ (map snd vs) = sumZ (map fst vs) * q - sumZ ks * r.
Proof.
  induction pks as [|pk pks IH]; intros ks h t Hall HQ HrB Hlen.
  - inversion Hall; subst. exists [], [], []. cbn. rewrite app_nil_r, drop_0.
    repeat split; constructor.
  - inversion Hall as [|? k ? ks' [Hd Hk] Hrest]; subst.
    cbn [Plain_ShareCal_all length] in *.
    destruct (Plain_ShareCal_spec h t Q rB pk k q r Hd Hk HQ HrB)
      as (share & new1 & Hrun1 & HsK & HsC); [lia|].
    erewrite bind_Ok by exact Hrun1.
    destruct (IH ks' (h ++ new1) (drop nonce_len t))
      as (shares & new2 & vs & Hrun2 & Hvs & Hlen2 & Hsum).
    + eapply Forall2_impl; [exact Hrest|]. intros ? ? [? ?].
      split; [by apply deref_app_l|done].
    + by apply holds_app_l.
    + by apply holds_app_l.
    + rewrite length_drop. lia.
    + erewrite bind_Ok by exact Hrun2. unfold ret.
      rewrite drop_drop, <- app_assoc in *.
      set (ri := field_element (take nonce_len t)) in *.
      exists (share :: shares), (new1 ++ new2), ((ri, ri * q - k * r) :: vs).
      split; [do 3 f_equal; lia|]. split; [|split].
      * constructor; [|exact Hvs]. cbn [fst snd]. rewrite !app_assoc.
        split; by apply holds_app_l.
      * cbn. lia.
      * cbn [map sumZ fst snd]. lia.
Qed.

(** X14.  [TestWorkFlow] of the plain file prints "Eqal" on a curve whose
    [Add] reduces the y coordinates it is given: for m >= 1 servers with
    keys in [1, N-1], a requester key pair and a point, with the bytes of
    m + 1 nonces in the random source, the decrypted point compares equal
    to the plaintext. *)
Theorem Plain_TestWorkFlow_passes (h : list Z) (t : list byte)
    (pks : list PrivateKey) (ks : list Z) (q : PrivateKey) (qd : Z)
    (Dp : CurvePoint) (d : Z) :
  pks <> [] ->
  Forall2 (keypair h) pks ks ->
  Forall (fun k => 1 <= k < elliptic.N elliptic.Params) ks ->
  keypair h q qd -> 1 <= qd < elliptic.N elliptic.Params ->
  holds h Dp (pt d) ->
  ((length pks + 1) * nonce_len <= length t)%nat ->
  exists s', Plain_TestWorkFlow pks q Dp (State h t) = (Ok true, s').
Proof.
  intros Hne Hkeys Hrange [Hqd HQ] Hq HD Hlen. unfold Plain_TestWorkFlow.
  destruct (CollPubKey_spec (map GetPubKey pks) ks h t)
    as (collPk & n1 & R1 & HPk).
  { by destruct pks. }
  { apply Forall2_fmap_l. eapply Forall2_impl; [exact Hkeys|].
    by intros ? ? [? ?]. }
  erewrite bind_Ok by exact R1.
  destruct (PointEncrypt_spec (h ++ n1) t collPk Dp (sumZ ks) d HPk
              (holds_app_l _ n1 _ _ HD)) as (ct & n2 & R2 & HctK & HctC); [lia|].
  erewrite bind_Ok by exact R2.
  set (r := field_element (take nonce_len t)) in *.
  destruct (Plain_ShareCal_all_spec (Public q) (K ct) qd r pks ks
              ((h ++ n1) ++ n2) (drop nonce_len t))
    as (shares & n3 & vs & R3 & Hvs & Hlen3 & Hsum).
  { eapply Forall2_impl; [apply (Forall2_with_r _ _ _ _ Hkeys Hrange)|].
    intros pk k [[Hk _] Hr]. split; [by do 2 apply deref_app_l|lia]. }
  { by do 2 apply holds_app_l. }
  { exact HctK. }
  { rewrite length_drop. lia. }
  erewrite bind_Ok by exact R3.
  destruct (ShareReplace_spec shares vs ct (r * sumZ ks + d)
              (((h ++ n1) ++ n2) ++ n3)
              (drop (length pks * nonce_len) (drop nonce_len t)))
    as (tct & n4 & R4 & HtK & HtC).
  { destruct shares; [destruct pks; done|done]. }
  { exact Hvs. }
  { by apply holds_app_l. }
  erewrite bind_Ok by exact R4.
  destruct (Plain_PointDecrypt_spec ((((h ++ n1) ++ n2) ++ n3) ++ n4)
              (drop (length pks * nonce_len) (drop nonce_len t)) tct q qd
              (sumZ (map fst vs)) (sumZ (map snd vs) + (r * sumZ ks + d)))
    as (out & n5 & R5 & Hout); [by do 4 apply deref_app_l|lia|done|done|].
  erewrite bind_Ok by exact R5.
  rewrite Hsum in Hout.
  replace (sumZ (map fst vs) * qd - sumZ ks * r + (r * sumZ ks + d)
           - qd * sumZ (map fst vs)) with d in Hout by ring.
  rewrite (same_point_true _ _ Dp out (pt d));
    [by eexists|by do 5 apply holds_app_l|exact Hout].
Qed.

(** X15.  The two files compute the same: on curve points, and on a curve
    whose [Add] reduces the y coordinates it is given, [PointDecrypt] of
    the plain file returns a point with the coordinates of the one the
    other file returns, and [ShareCal] a share with the same coordinates
    from the same nonce. *)
Theorem plain_file_agrees (h : list Z) (t : list byte) (ct : CipherText)
    (Q : PublicKey) (rB : CurvePoint) (priv : PrivateKey) (d q r a c : Z) :
  deref h (D priv) = Some d -> 0 <= d ->
  holds h (K ct) (pt a) -> holds h (C ct) (pt c) ->
  holds h Q (pt q) -> holds h rB (pt r) ->
  (nonce_len <= length t)%nat ->
  (exists out s1 out' s2 v,
     PointDecrypt ct priv (State h t) = (Ok out, s1)
     /\ Plain.PointDecrypt ct priv (State h t) = (Ok out', s2)
     /\ holds (heap s1) out v /\ holds (heap s2) out' v
     /\ tape s1 = tape s2)
  /\ (exists share ri s1 share' s2 vK vC,
        ShareCal Q rB priv (State h t) = (Ok (share, ri), s1)
        /\ Plain.ShareCal Q rB priv (State h t) = (Ok share', s2)
        /\ holds (heap s1) (K share) vK /\ holds (heap s2) (K share') vK
        /\ holds (heap s1) (C share) vC /\ holds (heap s2) (C share') vC
        /\ tape s1 = tape s2).
Proof.
  intros Hd Hd0 HK HC HQ HrB Hlen. split.
  - destruct (PointDecrypt_spec h t ct priv d a c Hd Hd0 HK HC)
      as (out & n1 & R1 & H1).
    destruct (Plain_PointDecrypt_spec h t ct priv d a c Hd Hd0 HK HC)
      as (out' & n2 & R2 & H2).
    by eexists _, _, _, _, _.
  - destruct (ShareCal_spec h t Q rB priv d q r Hd Hd0 HQ HrB Hlen)
      as (share & ri & n1 & R1 & _ & HK1 & HC1).
    destruct (Plain_ShareCal_spec h t Q rB priv d q r Hd Hd0 HQ HrB Hlen)
      as (share' & n2 & R2 & HK2 & HC2).
    by eexists _, _, _, _, _, _, _.
Qed.

End TestFunctions.

(** ** The claims on the small curve *)

Module Witness.
Import Toy ToyLaws SM3 SM3Laws Runs.

Ltac toy_holds := repeat split; vm_compute; reflexivity.

Lemma PointDecrypt_PointEncrypt_witness :
  exists ct s1 out s2,
    PointEncrypt (GetPubKey (key 0)) Dp0 (State h0 t0) = (Ok ct, s1)
    /\ PointDecrypt ct (key 0) s1 = (Ok out, s2)
    /\ holds (heap s2) out (pt 4)
    /\ holds (heap s2) Dp0 (pt 4).
Proof.
  apply (PointDecrypt_PointEncrypt h0 t0 (key 0) Dp0 3 4).
  - change (1 <= 3 < 19). lia.
  - toy_holds.
  - toy_holds.
  - vm_compute. lia.
Defined.

Lemma WorkFlow_key_switch_witness :
  exists out s',
    WorkFlow [key 0; key 1; key 2] (key 3) Dp0 (State h0 t0) = (Ok out, s')
    /\ holds (heap s') out (pt 4)
    /\ holds (heap s') Dp0 (pt 4).
Proof.
  apply (WorkFlow_key_switch h0 t0 [key 0; key 1; key 2] [3; 5; 18] (key 3) 7
           Dp0 4).
  - discriminate.
  - repeat constructor; vm_compute; reflexivity.
  - repeat constructor; vm_compute; discriminate.
  - toy_holds.
  - change (1 <= 7 < 19). lia.
  - toy_holds.
  - vm_compute. lia.
Defined.

Lemma ShareProofVry_ShareProofGen_witness :
  exists c r1 r2 s1 s2,
    ShareProofGen ri1 priv1 share1 Q1 rB1 (State h1 t0) = (Ok (c, r1, r2), s1)
    /\ ShareProofVry c r1 r2 share1 (GetPubKey priv1) Q1 rB1 s1 = (Ok true, s2).
Proof.
  apply (ShareProofVry_ShareProofGen h1 t0 ri1 priv1 share1 Q1 rB1 2 3 7 5).
  - reflexivity.
  - change (1 <= 2 < 19). lia.
  - toy_holds.
  - change (1 <= 3 < 19). lia.
  - toy_holds.
  - toy_holds.
  - toy_holds.
  - toy_holds.
  - vm_compute. lia.
Defined.

Lemma CollPrivKey_CollPubKey_witness :
  exists collPrivKey s1 collPubKey s2,
    CollPrivKey [key 0; key 1; key 2] (State h0 t0) = (Ok collPrivKey, s1)
    /\ CollPubKey (map GetPubKey [key 0; key 1; key 2]) s1 = (Ok collPubKey, s2)
    /\ deref (heap s2) (D collPrivKey)
       = Some (sumZ [3; 5; 18] mod elliptic.N elliptic.Params)
    /\ holds (heap s2) (GetPubKey collPrivKey)
         (pt (sumZ [3; 5; 18] mod elliptic.N elliptic.Params))
    /\ holds (heap s2) collPubKey
         (pt (sumZ [3; 5; 18] mod elliptic.N elliptic.Params)).
Proof.
  apply (CollPrivKey_CollPubKey h0 t0 [key 0; key 1; key 2] [3; 5; 18]).
  - discriminate.
  - repeat constructor; vm_compute; reflexivity.
  - repeat constructor; vm_compute; discriminate.
Defined.

Lemma proof_components_range_witness :
  proof_below (2 ^ 256) (heap (snd proof1)) (cell 28, cell 30, cell 31).
Proof.
  apply (proof_components_range h1 t0 (cell 28, cell 30, cell 31) (snd proof1)).
  - change (0 < 19). lia.
  - right. right. left. exists ri1, priv1, share1, Q1, rB1.
    vm_compute. reflexivity.
Defined.

Lemma ShareReplace_Permutation_witness :
  exists ct1 s1 ct2 s2 vK vC,
    ShareReplace [ct_at 0; ct_at 1] (ct_at 2) (State h2 t0) = (Ok ct1, s1)
    /\ ShareReplace [ct_at 1; ct_at 0] (ct_at 2) (State h2 t0) = (Ok ct2, s2)
    /\ holds (heap s1) (K ct1) vK /\ holds (heap s2) (K ct2) vK
    /\ holds (heap s1) (C ct1) vC /\ holds (heap s2) (C ct2) vC.
Proof.
  apply (ShareReplace_Permutation h2 t0 [ct_at 0; ct_at 1] [ct_at 1; ct_at 0]
           (ct_at 2)).
  - discriminate.
  - apply perm_swap.
  - repeat constructor; [exists (2, 3)|exists (4, 5)]; toy_holds.
  - exists 7. toy_holds.
Defined.

Lemma randFieldElement_scalar_witness :
  exists l s',
    randFieldElement (State h0 t0) = (Ok l, s')
    /\ deref (heap s') (cell l) = Some (SetBytes (take 8 t0) mod 18 + 1)
    /\ tape s' = drop 8 t0
    /\ 1 <= SetBytes (take 8 t0) mod 18 + 1 <= 18.
Proof.
  refine (proj1 (randFieldElement_scalar h0 t0 _ _) _).
  - change (0 <= 5). lia.
  - change (1 < 19). lia.
  - vm_compute. lia.
Defined.

Lemma NoB_equivalence_witness :
  (forall y1 y2 Y1 Y2 A1 A2 A,
     ProofGenNoB y1 y2 Y1 Y2 A1 A2 A (State [5; 1] t0)
     = ProofGen y1 y2 {| X := cell 0; Y := cell 1 |} Y1 Y2 A1 A2 A
         (State [5; 1] t0))
  /\ (forall c r1 r2 Y1 Y2 A1 A2 A,
        ProofVrfNoB c r1 r2 Y1 Y2 A1 A2 A (State [5; 1] t0)
        = ProofVrf c r1 r2 {| X := cell 0; Y := cell 1 |} Y1 Y2 A1 A2 A
            (State [5; 1] t0)).
Proof.
  apply (NoB_equivalence {| X := cell 0; Y := cell 1 |} [5; 1] t0).
  split; reflexivity.
Defined.

(** *** Counterexamples *)

(** C5 as stated: the challenge of a returned proof is below N.  On the
    curve of order 19, with SM3, the proof of [share1] has a challenge of
    256 bits. *)
Lemma proof_challenge_not_below_N :
  ShareProofGen ri1 priv1 share1 Q1 rB1 (State h1 t0) = proof1
  /\ fst proof1 = Ok (cell 28, cell 30, cell 31)
  /\ deref (heap (snd proof1)) (cell 28)
     = Some 107853787808970843024302931846277702837868695813908431064236714193058436578833
  /\ ~ proof_below (elliptic.N elliptic.Params) (heap (snd proof1))
         (cell 28, cell 30, cell 31).
Proof.
  split; [vm_compute; reflexivity|]. split; [reflexivity|].
  split; [reflexivity|].
  intros (c & r1 & r2 & Hc & _ & _ & Hrange & _).
  vm_compute in Hc. injection Hc as <-. vm_compute in Hrange.
  destruct Hrange as [_ H]. discriminate H.
Qed.

(** C8 as stated: an empty collection makes the three functions return
    an error.  None of them returns an error. *)
Lemma empty_aggregation_no_error :
  ~ returns_error (CollPrivKey [] (State h0 t0))
  /\ ~ returns_error (CollPubKey [] (State h0 t0))
  /\ ~ returns_error (ShareReplace [] (ct_at 0) (State h0 t0)).
Proof. repeat split; intros [e He]; discriminate He. Qed.

End Witness.

(** ** The further properties on the small curve *)

Module Examples.
Import Toy ToyLaws SM3 SM3Laws Runs ProofRuns.

Ltac by_run := repeat split; vm_compute; reflexivity.
Ltac in_range := repeat constructor; vm_compute; discriminate.

Lemma entropy_failure_witness :
  (forall pub Dp,
     PointEncrypt pub Dp (State h0 [x01; x02; x03])
     = (Err (short_read [x01; x02; x03]), State h0 []))
  /\ (forall Q rB priv,
        ShareCal Q rB priv (State h0 [x01; x02; x03])
        = (Err (short_read [x01; x02; x03]), State h0 []))
  /\ (forall Q rB priv,
        Plain.ShareCal Q rB priv (State h0 [x01; x02; x03])
        = (Err (short_read [x01; x02; x03]), State h0 []))
  /\ (forall y1 y2 B Y1 Y2 A1 A2 A,
        ProofGen y1 y2 B Y1 Y2 A1 A2 A (State h0 [x01; x02; x03])
        = (Err (short_read [x01; x02; x03]), State h0 []))
  /\ (forall y1 y2 Y1 Y2 A1 A2 A,
        ProofGenNoB y1 y2 Y1 Y2 A1 A2 A (State h0 [x01; x02; x03])
        = (Err (short_read [x01; x02; x03]), State h0 [])).
Proof.
  apply (entropy_failure h0 [x01; x02; x03]).
  - change (0 <= 5). lia.
  - vm_compute. lia.
Defined.

Lemma ProofVrf_ProofGen_witness :
  (exists c r1 r2 s1 s2,
     ProofGen (D (key 0)) (D (key 1)) base_point
       (Public (key 0)) (Public (key 1))
       (Public (key 0)) (Public (key 0)) (Public (key 1)) (State h0 t0)
     = (Ok (c, r1, r2), s1)
     /\ ProofVrf c r1 r2 base_point (Public (key 0)) (Public (key 1))
          (Public (key 0)) (Public (key 0)) (Public (key 1)) s1
        = (Ok true, s2))
  /\ (1 = 1 ->
      exists c r1 r2 s1 s2,
        ProofGenNoB (D (key 0)) (D (key 1))
          (Public (key 0)) (Public (key 1))
          (Public (key 0)) (Public (key 0)) (Public (key 1)) (State h0 t0)
        = (Ok (c, r1, r2), s1)
        /\ ProofVrfNoB c r1 r2 (Public (key 0)) (Public (key 1))
             (Public (key 0)) (Public (key 0)) (Public (key 1)) s1
           = (Ok true, s2)).
Proof.
  apply (ProofVrf_ProofGen h0 t0 (D (key 0)) (D (key 1)) base_point
           (Public (key 0)) (Public (key 1))
           (Public (key 0)) (Public (key 0)) (Public (key 1)) 3 5 1 3 3).
  - reflexivity.
  - reflexivity.
  - by_run.
  - by_run.
  - by_run.
  - by_run.
  - by_run.
  - by_run.
  - vm_compute. lia.
Defined.

Lemma ShareProofNoB_same_witness :
  (forall ri priv,
     ShareProofGenNoB ri priv share1 Q1 rB1 (State h1 t0)
     = ShareProofGen ri priv share1 Q1 rB1 (State h1 t0))
  /\ (forall c r1 r2 nodePubKey,
        ShareProofVryNoB c r1 r2 share1 nodePubKey Q1 rB1 (State h1 t0)
        = ShareProofVry c r1 r2 share1 nodePubKey Q1 rB1 (State h1 t0)).
Proof. apply (ShareProofNoB_same (State h1 t0) share1 Q1 rB1). Defined.

Lemma ShareCal_proof_verifies_witness :
  exists share ri s1 vri,
    ShareCal (Public (key 3)) Dp0 (key 0) (State h0 t0) = (Ok (share, ri), s1)
    /\ deref (heap s1) ri = Some vri
    /\ 1 <= vri < elliptic.N elliptic.Params
    /\ holds (heap s1) (K share) (pt vri)
    /\ holds (heap s1) (C share) (pt (vri * 7 - 3 * 4))
    /\ (exists c r1 r2 s2 s3,
          ShareProofGen ri (key 0) share (Public (key 3)) Dp0 s1
          = (Ok (c, r1, r2), s2)
          /\ ShareProofVry c r1 r2 share (GetPubKey (key 0))
               (Public (key 3)) Dp0 s2 = (Ok true, s3))
    /\ (exists c r1 r2 s2 s3,
          ShareProofGenNoB ri (key 0) share (Public (key 3)) Dp0 s1
          = (Ok (c, r1, r2), s2)
          /\ ShareProofVryNoB c r1 r2 share (GetPubKey (key 0))
               (Public (key 3)) Dp0 s2 = (Ok true, s3)).
Proof.
  apply (ShareCal_proof_verifies h0 t0 (key 0) (Public (key 3)) Dp0 3 7 4).
  - by_run.
  - change (1 <= 3 < 19). lia.
  - by_run.
  - by_run.
  - vm_compute. lia.
Defined.

Lemma aggregate_key_round_trip_witness :
  exists collPrivKey s1 collPubKey s2 ct s3 dct s4,
    CollPrivKey [key 0; key 1; key 2] (State h0 t0) = (Ok collPrivKey, s1)
    /\ CollPubKey (map GetPubKey [key 0; key 1; key 2]) s1 = (Ok collPubKey, s2)
    /\ PointEncrypt collPubKey Dp0 s2 = (Ok ct, s3)
    /\ PointDecrypt ct collPrivKey s3 = (Ok dct, s4)
    /\ holds (heap s4) dct (pt 4).
Proof.
  apply (aggregate_key_round_trip h0 t0 [key 0; key 1; key 2] [3; 5; 18] Dp0 4).
  - discriminate.
  - repeat constructor; vm_compute; reflexivity.
  - in_range.
  - by_run.
  - vm_compute. lia.
Defined.

Lemma zero_aggregate_key_witness :
  exists collPrivKey s1 collPubKey s2 ct s3,
    CollPrivKey [key 1; key 3; key 3] (State h0 t0) = (Ok collPrivKey, s1)
    /\ CollPubKey (map GetPubKey [key 1; key 3; key 3]) s1 = (Ok collPubKey, s2)
    /\ PointEncrypt collPubKey Dp0 s2 = (Ok ct, s3)
    /\ deref (heap s3) (D collPrivKey) = Some 0
    /\ holds (heap s3) (C ct) (pt 4).
Proof.
  apply (zero_aggregate_key h0 t0 [key 1; key 3; key 3] [5; 7; 7] Dp0 4).
  - discriminate.
  - repeat constructor; vm_compute; reflexivity.
  - repeat constructor; vm_compute; discriminate.
  - reflexivity.
  - by_run.
  - vm_compute. lia.
Defined.

Lemma key_switch_value_witness :
  exists tct s1 out s2,
    ShareReplace [ct_at 0; ct_at 1] (ct_at 2) (State h2 t0) = (Ok tct, s1)
    /\ PointDecrypt tct {| Public := K (ct_at 0); D := cell 1 |} s1
       = (Ok out, s2)
    /\ holds (heap s2) out
         (pt (sumZ (map snd [(2, 3); (4, 5)]) + 7
              - 3 * sumZ (map fst [(2, 3); (4, 5)]))).
Proof.
  apply (key_switch_value h2 t0 [ct_at 0; ct_at 1] [(2, 3); (4, 5)] (ct_at 2) 7
           {| Public := K (ct_at 0); D := cell 1 |} 3).
  - discriminate.
  - repeat constructor; vm_compute; reflexivity.
  - by_run.
  - reflexivity.
  - lia.
Defined.

Lemma ProofVrf_challenge_range_witness :
  exists verdict s',
    ProofVrf (cell 28) (cell 30) (cell 31) base_point
      (Public (key 0)) (Public (key 1))
      (Public (key 0)) (Public (key 0)) (Public (key 1))
      (State (heap (snd proof0)) (tape (snd proof0)))
    = (Ok verdict, s')
    /\ (verdict = true -> 0 <= nth 28 (heap (snd proof0)) 0 < 2 ^ 256)
    /\ (nth 28 (heap (snd proof0)) 0 < 0 \/ 2 ^ 256 <= nth 28 (heap (snd proof0)) 0
        -> verdict = false).
Proof.
  apply (ProofVrf_challenge_range (heap (snd proof0)) (tape (snd proof0))
           (cell 28) (cell 30) (cell 31) base_point
           (Public (key 0)) (Public (key 1))
           (Public (key 0)) (Public (key 0)) (Public (key 1))
           (nth 28 (heap (snd proof0)) 0) (nth 30 (heap (snd proof0)) 0)
           (nth 31 (heap (snd proof0)) 0) 1 3 5 3 3 5).
  - reflexivity.
  - reflexivity.
  - reflexivity.
  - by_run.
  - by_run.
  - by_run.
  - by_run.
  - by_run.
  - by_run.
Defined.

Lemma ProofVrf_responses_mod_N_witness :
  exists verdict s1 s2,
    ProofVrf (cell 28) (cell 30) (cell 31) base_point
      (Public (key 0)) (Public (key 1))
      (Public (key 0)) (Public (key 0)) (Public (key 1)) (State h3 [])
    = (Ok verdict, s1)
    /\ ProofVrf (cell 28) (cell 32) (cell 33) base_point
         (Public (key 0)) (Public (key 1))
         (Public (key 0)) (Public (key 0)) (Public (key 1)) (State h3 [])
       = (Ok verdict, s2).
Proof.
  apply (ProofVrf_responses_mod_N h3 [] (cell 28) (cell 30) (cell 31)
           (cell 32) (cell 33) base_point
           (Public (key 0)) (Public (key 1))
           (Public (key 0)) (Public (key 0)) (Public (key 1))
           (nth 28 h3 0) (nth 30 h3 0) (nth 31 h3 0) (nth 32 h3 0) (nth 33 h3 0)
           1 3 5 3 3 5).
  - reflexivity.
  - reflexivity.
  - reflexivity.
  - reflexivity.
  - reflexivity.
  - vm_compute. reflexivity.
  - vm_compute. reflexivity.
  - by_run.
  - by_run.
  - by_run.
  - by_run.
  - by_run.
  - by_run.
Defined.

Lemma TestCollPubKey_passes_witness :
  exists s', TestCollPubKey [key 0; key 1; key 2] (State h0 t0) = (Ok true, s').
Proof.
  apply (TestCollPubKey_passes h0 t0 [key 0; key 1; key 2] [3; 5; 18]).
  - discriminate.
  - repeat constructor; vm_compute; reflexivity.
  - in_range.
Defined.

Lemma TestWorkFlow_passes_witness :
  exists s',
    TestWorkFlow [key 0] (key 3) Dp0 (State h0 t0)
    = (Ok (true, repeat true (length [key 0])), s').
Proof.
  apply (TestWorkFlow_passes h0 t0 [key 0] [3] (key 3) 7 Dp0 4).
  - discriminate.
  - repeat constructor; vm_compute; reflexivity.
  - repeat constructor; vm_compute; discriminate.
  - by_run.
  - change (1 <= 7 < 19). lia.
  - by_run.
  - vm_compute. lia.
Defined.

Lemma Plain_TestWorkFlow_passes_witness :
  exists s',
    Plain_TestWorkFlow [key 0; key 1; key 2] (key 3) Dp0 (State h0 t0)
    = (Ok true, s').
Proof.
  apply (Plain_TestWorkFlow_passes h0 t0 [key 0; key 1; key 2] [3; 5; 18]
           (key 3) 7 Dp0 4).
  - discriminate.
  - repeat constructor; vm_compute; reflexivity.
  - repeat constructor; vm_compute; discriminate.
  - by_run.
  - change (1 <= 7 < 19). lia.
  - by_run.
  - vm_compute. lia.
Defined.

Lemma plain_file_agrees_witness :
  (exists out s1 out' s2 v,
     PointDecrypt {| K := Public (key 0); C := Public (key 1) |} (key 3)
       (State h0 t0) = (Ok out, s1)
     /\ Plain.PointDecrypt {| K := Public (key 0); C := Public (key 1) |}
          (key 3) (State h0 t0) = (Ok out', s2)
     /\ holds (heap s1) out v /\ holds (heap s2) out' v
     /\ tape s1 = tape s2)
  /\ (exists share ri s1 share' s2 vK vC,
        ShareCal (Public (key 2)) Dp0 (key 3) (State h0 t0)
        = (Ok (share, ri), s1)
        /\ Plain.ShareCal (Public (key 2)) Dp0 (key 3) (State h0 t0)
           = (Ok share', s2)
        /\ holds (heap s1) (K share) vK /\ holds (heap s2) (K share') vK
        /\ holds (heap s1) (C share) vC /\ holds (heap s2) (C share') vC
        /\ tape s1 = tape s2).
Proof.
  apply (plain_file_agrees h0 t0 {| K := Public (key 0); C := Public (key 1) |}
           (Public (key 2)) Dp0 (key 3) 7 18 4 3 5).
  - reflexivity.
  - lia.
  - by_run.
  - by_run.
  - by_run.
  - by_run.
  - vm_compute. lia.
Defined.

End Examples.
